(** * megamega2612: voice allocation, tick scheduler and parameter editing

    A shallow embedding of [src/megamega1/main.c], the main controller of the
    megamega2612 FM synthesizer.  The controller keeps one global
    [struct Parameters ym] and one [struct GlobalVars glb]; three interrupt
    handlers ([USART_RX_vect], [TIMER1_OVF_vect], [PCINT2_vect]) mutate them
    and talk to the YM2612 through [sendreg].

    Modelling conventions:
    - C integers are [Z].  [uint8_t] values are reduced with [u8]; the 16-bit
      AVR [int] is reduced with [int] (two's complement wrap-around, which is
      what avr-gcc emits).
    - Every handler starts with [cli()] and runs to completion, so a handler is
      a function [Machine -> Machine].
    - [sendreg] clocks three bytes out over SPI.  The machine keeps the ordered
      log of those triples in [sink]; it is the only trace of the register
      traffic.
    - The LCD ([printToLCD]) is write-only and never read back; it is left out.
    - The editable parameters are reached through the pointer [ym.value], so
      they live in a store indexed by the address of the field ([Field]). *)

From Stdlib Require Import ZArith List Lia Bool.
From stdpp Require Import base decidable list.
Import ListNotations.

Local Open Scope Z_scope.

(** ** Machine integers *)

Definition u8 (z : Z) : Z := z mod 256.

Definition int (z : Z) : Z := (z + 32768) mod 65536 - 32768.

(** C truth value of an integer. *)
Definition truthy (z : Z) : bool := negb (z =? 0).

(** ** Data model *)

(** Addresses of the [int] members of [struct Parameters] that [ym.value] can
    point to.  [F_multiple o] is [&ym.multiple[o]]. *)
Inductive Field : Type :=
| F_patchNum | F_velSens | F_minVel | F_polyphony
| F_algorithm | F_feedback
| F_detune (o : Z) | F_multiple (o : Z) | F_totalLvl (o : Z)
| F_attack (o : Z) | F_decay (o : Z) | F_susLvl (o : Z) | F_susRate (o : Z)
| F_release (o : Z) | F_rateScl (o : Z) | F_ssgeg (o : Z)
| F_lfoFreq | F_vibrato | F_tremolo
| F_amOn (o : Z).

#[global] Instance Field_eq_dec : EqDecision Field.
Proof. solve_decision. Defined.

(** One row of [ym.notesOn]: [notesOn[i][0]] is the note number,
    [notesOn[i][1]] says the channel should be on, [notesOn[i][2]] says it is
    on. *)
Record NoteRow : Type := mkRow { nr_note : Z; nr_sched : Z; nr_on : Z }.

#[global] Instance NoteRow_inhabited : Inhabited NoteRow := populate (mkRow 0 0 0).

(** [struct Parameters].  The members that the program never reads
    ([timeOn], [patchName], [modWheel], [aftertouch], [modIndex], [atIndex])
    are omitted. *)
Record Parameters : Type := mkParameters {
  op : Z;
  group : Z;
  current : Z;
  value : Field;
  freq : list (Z * Z);
  notesOn : list NoteRow;
  vel : list Z;
  sustain : bool;
  par : Field -> Z
}.

(** The MIDI part of [struct GlobalVars]. *)
Record GlobalVars : Type := mkGlobalVars {
  midiBuf : list Z;
  midiIndex : Z;
  msgStart : Z
}.

(** One [sendreg] transmission: channel-group flag, register, data. *)
Definition RegWrite : Type := (Z * Z * Z)%type.

Record Machine : Type := mkMachine {
  ym : Parameters;
  glb : GlobalVars;
  sink : list RegWrite
}.

(** *** Field updates *)

Definition set_op (v : Z) (y : Parameters) : Parameters :=
  mkParameters v (group y) (current y) (value y) (freq y) (notesOn y) (vel y) (sustain y) (par y).
Definition set_group (v : Z) (y : Parameters) : Parameters :=
  mkParameters (op y) v (current y) (value y) (freq y) (notesOn y) (vel y) (sustain y) (par y).
Definition set_current (v : Z) (y : Parameters) : Parameters :=
  mkParameters (op y) (group y) v (value y) (freq y) (notesOn y) (vel y) (sustain y) (par y).
Definition set_value (v : Field) (y : Parameters) : Parameters :=
  mkParameters (op y) (group y) (current y) v (freq y) (notesOn y) (vel y) (sustain y) (par y).
Definition set_freq (v : list (Z * Z)) (y : Parameters) : Parameters :=
  mkParameters (op y) (group y) (current y) (value y) v (notesOn y) (vel y) (sustain y) (par y).
Definition set_notesOn (v : list NoteRow) (y : Parameters) : Parameters :=
  mkParameters (op y) (group y) (current y) (value y) (freq y) v (vel y) (sustain y) (par y).
Definition set_vel (v : list Z) (y : Parameters) : Parameters :=
  mkParameters (op y) (group y) (current y) (value y) (freq y) (notesOn y) v (sustain y) (par y).
Definition set_sustain (v : bool) (y : Parameters) : Parameters :=
  mkParameters (op y) (group y) (current y) (value y) (freq y) (notesOn y) (vel y) v (par y).
Definition set_par (v : Field -> Z) (y : Parameters) : Parameters :=
  mkParameters (op y) (group y) (current y) (value y) (freq y) (notesOn y) (vel y) (sustain y) v.

(** [*f = v] for an [int] member. *)
Definition store (f : Field) (v : Z) (y : Parameters) : Parameters :=
  set_par (fun g => if decide (g = f) then v else par y g) y.

Definition set_midiBuf (v : list Z) (g : GlobalVars) : GlobalVars :=
  mkGlobalVars v (midiIndex g) (msgStart g).
Definition set_midiIndex (v : Z) (g : GlobalVars) : GlobalVars :=
  mkGlobalVars (midiBuf g) v (msgStart g).
Definition set_msgStart (v : Z) (g : GlobalVars) : GlobalVars :=
  mkGlobalVars (midiBuf g) (midiIndex g) v.

Definition with_ym (f : Parameters -> Parameters) (m : Machine) : Machine :=
  mkMachine (f (ym m)) (glb m) (sink m).
Definition with_glb (f : GlobalVars -> GlobalVars) (m : Machine) : Machine :=
  mkMachine (ym m) (f (glb m)) (sink m).

(** *** Named members of the parameter store *)

Definition patchNum (y : Parameters) : Z := par y F_patchNum.
Definition velSens (y : Parameters) : Z := par y F_velSens.
Definition minVel (y : Parameters) : Z := par y F_minVel.
Definition polyphony (y : Parameters) : Z := par y F_polyphony.
Definition algorithm (y : Parameters) : Z := par y F_algorithm.
Definition feedback (y : Parameters) : Z := par y F_feedback.
Definition detune (y : Parameters) (o : Z) : Z := par y (F_detune o).
Definition multiple (y : Parameters) (o : Z) : Z := par y (F_multiple o).
Definition totalLvl (y : Parameters) (o : Z) : Z := par y (F_totalLvl o).
Definition attack (y : Parameters) (o : Z) : Z := par y (F_attack o).
Definition decay (y : Parameters) (o : Z) : Z := par y (F_decay o).
Definition susLvl (y : Parameters) (o : Z) : Z := par y (F_susLvl o).
Definition susRate (y : Parameters) (o : Z) : Z := par y (F_susRate o).
Definition release (y : Parameters) (o : Z) : Z := par y (F_release o).
Definition rateScl (y : Parameters) (o : Z) : Z := par y (F_rateScl o).
Definition ssgeg (y : Parameters) (o : Z) : Z := par y (F_ssgeg o).
Definition lfoFreq (y : Parameters) : Z := par y F_lfoFreq.
Definition vibrato (y : Parameters) : Z := par y F_vibrato.
Definition tremolo (y : Parameters) : Z := par y F_tremolo.
Definition amOn (y : Parameters) (o : Z) : Z := par y (F_amOn o).

(** ** Constants of the register protocol *)

Definition MAX_PRESET : Z := 20.

(** [chan[]]: the channel codes of register 0x28. *)
Definition chan (i : nat) : Z := nth i [0; 1; 2; 4; 5; 6] 0.

(** [opOffset[]]: register offset of each operator. *)
Definition opOffset (o : nat) : Z := nth o [0; 0x08; 0x04; 0x0C] 0.

(** ** Register sink *)

(** [sendreg(flag, reg, data)]: three [uint8_t] bytes over SPI. *)
Definition sendreg (flag reg data : Z) (m : Machine) : Machine :=
  mkMachine (ym m) (glb m) (sink m ++ [(u8 flag, u8 reg, u8 data)]).

(** ** [minMaxValue] and [max] *)

(** [minMaxValue(&var, min, max)]; the result is the new content of [var]. *)
Definition minMaxValue (varVal min max : Z) : Z :=
  if varVal <? min then max
  else if varVal >? max then min
  else varVal.

Definition max (val1 val2 : Z) : Z :=
  if val1 >? val2 then val1 else val2.

(** ** Voice allocator: [note] *)

(** [notes[]], the frequency numbers of one octave. *)
Definition notes : list Z :=
  [311; 329; 349; 370; 392; 415; 440; 466; 493; 523; 554; 586].

(** The local [oct] of [note] after [minMaxValue(&oct, 0, 7)]. *)
Definition note_oct (noteIn : Z) : Z :=
  minMaxValue (int (noteIn ÷ 12 - 1)) 0 7.

(** The local [noteOut] of [note]. *)
Definition note_noteOut (noteIn : Z) : Z :=
  notes !!! Z.to_nat (Z.rem noteIn 12).

Definition chanGrp (i : nat) : Z := if Z.of_nat i >? 2 then 1 else 0.

(** Body of the first branch of the note-on loop: channel [i] is free. *)
Definition note_schedule (i : nat) (noteIn velocity : Z) (m : Machine) : Machine :=
  let oct := note_oct noteIn in
  let noteOut := note_noteOut noteIn in
  let m := with_ym (fun y => set_vel (<[i := max velocity (minVel y)]> (vel y)) y) m in
  let m := with_ym (fun y =>
    set_freq (<[i := (u8 (Z.lor (Z.shiftl oct 3) (Z.shiftr (Z.land noteOut 0x0700) 8)),
                     snd (freq y !!! i))]> (freq y)) y) m in
  let m := with_ym (fun y =>
    set_freq (<[i := (fst (freq y !!! i), u8 (Z.land noteOut 0x00FF))]> (freq y)) y) m in
  let m := with_ym (fun y =>
    set_notesOn (<[i := mkRow noteIn (nr_sched (notesOn y !!! i)) (nr_on (notesOn y !!! i))]>
                   (notesOn y)) y) m in
  with_ym (fun y =>
    set_notesOn (<[i := mkRow (nr_note (notesOn y !!! i)) 1 (nr_on (notesOn y !!! i))]>
                   (notesOn y)) y) m.

(** Body of the second branch: channel [i] already plays this note. *)
Definition note_retrigger (i : nat) (m : Machine) : Machine :=
  let m := sendreg 0 0x28 (0x00 + chan i) m in
  let m := sendreg (chanGrp i) (0xA4 + Z.of_nat i mod 3) (fst (freq (ym m) !!! i)) m in
  let m := sendreg (chanGrp i) (0xA0 + Z.of_nat i mod 3) (snd (freq (ym m) !!! i)) m in
  sendreg 0 0x28 (0xF0 + chan i) m.

(** The two loop conditions of [note]. *)
Definition chan_free (y : Parameters) (i : nat) : bool :=
  negb (truthy (nr_sched (notesOn y !!! i))) && negb (truthy (nr_on (notesOn y !!! i))).

Definition chan_plays (y : Parameters) (i : nat) (noteIn : Z) : bool :=
  truthy (nr_sched (notesOn y !!! i)) && truthy (nr_on (notesOn y !!! i))
  && (nr_note (notesOn y !!! i) =? noteIn).

(** [for(int i = 0; i < 6; i++)] of the note-on branch, over the indices still
    to visit; both branches end in [break]. *)
Fixpoint note_on_loop (idx : list nat) (noteIn velocity : Z) (m : Machine) : Machine :=
  match idx with
  | [] => m
  | i :: rest =>
      if chan_free (ym m) i then note_schedule i noteIn velocity m
      else if chan_plays (ym m) i noteIn then note_retrigger i m
      else note_on_loop rest noteIn velocity m
  end.

(** The loop of the note-off branch. *)
Fixpoint note_off_loop (idx : list nat) (noteIn : Z) (m : Machine) : Machine :=
  match idx with
  | [] => m
  | i :: rest =>
      if chan_plays (ym m) i noteIn then
        with_ym (fun y =>
          set_notesOn (<[i := mkRow (nr_note (notesOn y !!! i)) 0 (nr_on (notesOn y !!! i))]>
                         (notesOn y)) y) m
      else note_off_loop rest noteIn m
  end.

(** [void note(uint8_t noteIn, uint8_t velocity, bool on)]. *)
Definition note (noteIn velocity : Z) (on : bool) (m : Machine) : Machine :=
  let noteIn := u8 noteIn in
  let velocity := u8 velocity in
  if on then note_on_loop (seq 0 6) noteIn velocity m
  else note_off_loop (seq 0 6) noteIn m.

(** ** Tick scheduler: [TIMER1_OVF_vect] *)

(** [opLvl] for channel [i] and operator [o]. *)
Definition opLvl (y : Parameters) (i o : nat) : Z :=
  int (int (int (velSens y * vel y !!! i)
            + int (int (10 - velSens y) * totalLvl y (Z.of_nat o))) ÷ 10).

(** The inner loop [for(int o = 0; o < 4; o++)]. *)
Definition tick_levels (i : nat) (m : Machine) : Machine :=
  fold_left (fun m o =>
    sendreg (chanGrp i) (0x40 + Z.of_nat i mod 3 + opOffset o) (127 - opLvl (ym m) i o) m)
    (seq 0 4) m.

(** One iteration of the outer loop. *)
Definition tick_chan (m : Machine) (i : nat) : Machine :=
  let r := notesOn (ym m) !!! i in
  if truthy (nr_sched r) && negb (truthy (nr_on r)) then
    let m := tick_levels i m in
    let m := sendreg (chanGrp i) (0xA4 + Z.of_nat i mod 3) (fst (freq (ym m) !!! i)) m in
    let m := sendreg (chanGrp i) (0xA0 + Z.of_nat i mod 3) (snd (freq (ym m) !!! i)) m in
    let m := sendreg 0 0x28 (0xF0 + chan i) m in
    with_ym (fun y =>
      set_notesOn (<[i := mkRow (nr_note (notesOn y !!! i)) (nr_sched (notesOn y !!! i)) 1]>
                     (notesOn y)) y) m
  else if negb (truthy (nr_sched r)) && truthy (nr_on r) then
    if negb (sustain (ym m)) then
      let m := sendreg 0 0x28 (0x00 + chan i) m in
      with_ym (fun y => set_notesOn (<[i := mkRow 0 0 0]> (notesOn y)) y) m
    else m
  else m.

Definition TIMER1_OVF_vect (m : Machine) : Machine :=
  fold_left tick_chan (seq 0 6) m.

(** ** Register encoder: [writeToYM] *)

(** The [switch(options)] that computes [dataToWrite] (a [uint8_t]). *)
Definition dataToWrite (val1 val2 bitShift1 bitShift2 options subValue1 subValue2 : Z) : Z :=
  u8 (match options with
      | 0 => Z.shiftl val1 bitShift1 + Z.shiftl val2 bitShift2
      | 1 => Z.shiftl (subValue1 - val1) bitShift1 + Z.shiftl val2 bitShift2
      | 2 => Z.shiftl val1 bitShift1 + Z.shiftl (subValue2 - val2) bitShift2
      | 3 => Z.shiftl (subValue1 - val1) bitShift1 + Z.shiftl (subValue2 - val2) bitShift2
      | 4 => val1
      | 5 => Z.shiftl (val1 + 3) bitShift1 + Z.shiftl val2 bitShift2
      | 6 => Z.shiftl val1 bitShift1 + Z.shiftl (val2 + 3) bitShift2
      | 7 => subValue1 - val1
      | 8 => 0xC0 + Z.shiftl val1 bitShift1 + Z.shiftl val2 bitShift2
      | 9 => subValue1 - val1
      | _ => val1
      end).

(** [writeToYM]; every numeric parameter is a [uint8_t]. *)
Definition writeToYM (op val1 val2 baseReg bitShift1 bitShift2 : Z)
    (multiOp multiChannel : bool) (options subValue1 subValue2 : Z) (m : Machine) : Machine :=
  let op := u8 op in
  let val1 := u8 val1 in
  let val2 := u8 val2 in
  let baseReg := u8 baseReg in
  let bitShift1 := u8 bitShift1 in
  let bitShift2 := u8 bitShift2 in
  let options := u8 options in
  let subValue1 := u8 subValue1 in
  let subValue2 := u8 subValue2 in
  let regToWrite :=
    if multiOp then u8 (baseReg + opOffset (Z.to_nat op)) else baseReg in
  if multiChannel then
    fold_left (fun m j =>
      fold_left (fun m i =>
        sendreg (Z.of_nat j) (regToWrite + Z.of_nat i)
          (dataToWrite val1 val2 bitShift1 bitShift2 options subValue1 subValue2) m)
        (seq 0 3) m)
      (seq 0 2) m
  else
    sendreg 0 baseReg (val1 + Z.shiftl val2 bitShift2) m.

(** ** Preset loader: [changeAllParams] and [preset] *)

(** The special cases for the LFO and SSG-EG registers. *)
Definition write_lfo (op lfo : Z) (m : Machine) : Machine :=
  if lfo =? 0 then writeToYM op 0 0 0x22 0 3 false false 0 0 0 m
  else writeToYM op (lfo - 1) 1 0x22 0 3 false false 0 0 0 m.

Definition write_ssgeg (op eg : Z) (m : Machine) : Machine :=
  if eg =? 0 then writeToYM op 0 0 0x90 0 3 true true 4 0 0 m
  else writeToYM op (eg - 1) 1 0x90 0 3 true true 0 0 0 m.

(** One iteration of the operator loop of [changeAllParams].  The loop has no
    assignment to [ym.release]. *)
Definition changeAllParams_op (mult det tl atk dcy sl sr rel rs eg am : list Z)
    (m : Machine) (i : nat) : Machine :=
  let o := Z.of_nat i in
  let m := with_ym (store (F_multiple o) (mult !!! i)) m in
  let m := with_ym (store (F_detune o) (det !!! i)) m in
  let m := with_ym (store (F_totalLvl o) (tl !!! i)) m in
  let m := with_ym (store (F_attack o) (atk !!! i)) m in
  let m := with_ym (store (F_decay o) (dcy !!! i)) m in
  let m := with_ym (store (F_susLvl o) (sl !!! i)) m in
  let m := with_ym (store (F_susRate o) (sr !!! i)) m in
  let m := with_ym (store (F_rateScl o) (rs !!! i)) m in
  let m := with_ym (store (F_ssgeg o) (eg !!! i)) m in
  let m := with_ym (store (F_amOn o) (am !!! i)) m in
  let m := writeToYM o (mult !!! i) (det !!! i) 0x30 0 4 true true 6 0 0 m in
  let m := writeToYM o (tl !!! i) 0 0x40 0 0 true true 9 127 0 m in
  let m := writeToYM o (atk !!! i) (rs !!! i) 0x50 0 6 true true 1 31 0 m in
  let m := writeToYM o (dcy !!! i) (am !!! i) 0x60 0 7 true true 1 31 0 m in
  let m := writeToYM o (sl !!! i) (rel !!! i) 0x80 4 0 true true 3 15 15 m in
  let m := writeToYM o (sr !!! i) 0 0x70 0 0 true true 7 31 0 m in
  write_ssgeg o (eg !!! i) m.

(** [changeAllParams]; the four arguments of each operator parameter are
    passed as the array the function rebuilds from them. *)
Definition changeAllParams (alg fb lfo vib trem : Z)
    (mult det tl atk dcy sl sr rel rs eg am : list Z) (m : Machine) : Machine :=
  let m := with_ym (store F_algorithm alg) m in
  let m := with_ym (store F_feedback fb) m in
  let m := with_ym (store F_lfoFreq lfo) m in
  let m := with_ym (store F_vibrato vib) m in
  let m := with_ym (store F_tremolo trem) m in
  let m := writeToYM 0 alg fb 0xB0 0 3 false true 0 0 0 m in
  let m := write_lfo 0 lfo m in
  let m := writeToYM 0 vib trem 0xB4 0 4 false true 8 0 0 m in
  fold_left (changeAllParams_op mult det tl atk dcy sl sr rel rs eg am) (seq 0 4) m.

(** One record of the preset library, in the argument order of
    [changeAllParams]. *)
Record Patch : Type := mkPatch {
  p_alg : Z; p_fb : Z; p_lfo : Z; p_vib : Z; p_trem : Z;
  p_mult : list Z; p_det : list Z; p_tl : list Z; p_atk : list Z;
  p_dcy : list Z; p_sl : list Z; p_sr : list Z; p_rel : list Z;
  p_rs : list Z; p_eg : list Z; p_am : list Z
}.

(** The 21 calls of [preset], as data. *)
Definition patches : list Patch := [
  mkPatch 7 0 0 0 0 [10;8;4;2] [-3;1;3;0] [63;117;117;127] [0;0;0;0] [23;23;23;23] [0;0;0;0] [29;29;29;29] [1;1;1;1] [1;2;1;2] [0;0;0;0] [0;0;0;0];
  mkPatch 3 4 2 4 0 [1;10;2;6] [0;0;0;0] [127;127;127;127] [0;2;12;7] [4;0;23;31] [14;5;0;13] [29;16;0;29] [7;5;8;7] [1;1;1;1] [0;0;0;0] [0;0;0;0];
  mkPatch 4 0 0 0 0 [10;8;4;2] [-3;1;3;0] [27;112;112;127] [0;0;9;0] [16;16;16;21] [0;0;0;0] [29;29;29;29] [7;7;7;10] [1;2;1;2] [0;0;0;0] [0;0;0;0];
  mkPatch 5 3 3 0 3 [10;8;6;2] [-3;1;3;0] [100;117;117;127] [10;26;25;0] [15;23;16;21] [13;7;12;0] [29;29;29;29] [9;1;19;11] [1;2;1;2] [0;0;0;0] [0;0;1;0];
  mkPatch 0 6 1 6 2 [10;8;1;2] [-3;1;3;0] [88;112;112;127] [14;17;14;8] [18;19;19;22] [0;0;0;15] [29;29;29;29] [6;6;6;8] [2;1;2;1] [3;1;3;0] [1;1;1;0];
  mkPatch 2 5 0 0 0 [1;2;7;2] [3;-3;3;0] [126;97;106;127] [16;19;27;10] [27;22;26;21] [13;10;12;12] [31;31;31;27] [8;8;8;8] [1;1;1;1] [0;0;0;0] [0;0;0;0];
  mkPatch 7 4 0 0 0 [4;2;1;2] [-2;2;1;-1] [124;117;120;127] [0;0;0;0] [16;23;31;12] [0;0;0;0] [29;29;0;18] [1;1;1;1] [1;1;1;1] [0;0;0;0] [0;0;0;0];
  mkPatch 3 0 0 0 0 [4;6;3;4] [-3;2;3;-1] [111;79;118;127] [11;14;2;1] [15;20;10;17] [0;0;0;0] [29;29;29;29] [9;1;10;9] [2;2;1;2] [0;0;0;0] [0;0;0;0];
  mkPatch 3 4 0 0 0 [4;6;7;4] [-1;2;3;-1] [111;117;118;127] [10;22;27;1] [15;20;17;21] [0;0;0;0] [29;29;31;29] [9;1;10;9] [2;2;1;2] [0;0;0;0] [0;0;0;0];
  mkPatch 3 5 0 0 0 [2;3;2;1] [-2;-2;1;0] [116;118;119;127] [25;23;0;0] [25;27;19;24] [9;10;11;13] [31;31;31;31] [4;4;4;4] [1;1;1;1] [0;0;0;0] [0;0;0;0];
  mkPatch 5 5 2 5 2 [2;2;2;2] [-1;1;3;0] [108;117;124;127] [8;6;12;7] [25;16;27;26] [4;0;0;0] [29;29;29;29] [4;1;3;2] [1;2;1;2] [0;0;0;0] [0;0;1;0];
  mkPatch 4 6 3 2 3 [4;5;4;4] [-3;3;-2;0] [117;114;117;127] [3;22;29;18] [16;28;23;20] [0;0;0;0] [29;29;29;29] [7;7;8;7] [1;1;1;1] [0;0;0;0] [0;1;0;0];
  mkPatch 5 2 5 0 1 [2;2;10;6] [0;0;0;0] [127;104;118;127] [27;16;0;0] [25;19;19;21] [5;0;12;0] [31;31;31;31] [9;8;8;8] [2;2;1;1] [0;1;0;0] [0;0;1;0];
  mkPatch 6 5 2 0 2 [7;3;14;3] [-3;-1;3;1] [113;120;125;118] [0;0;25;0] [22;23;22;23] [11;11;11;11] [31;31;31;31] [10;8;8;8] [1;1;1;1] [0;0;0;0] [0;0;1;0];
  mkPatch 5 5 3 0 2 [1;1;4;2] [0;0;0;0] [120;120;120;127] [27;28;20;24] [30;26;8;28] [0;3;0;10] [7;31;31;31] [9;7;7;7] [1;1;1;1] [0;0;1;0] [0;1;0;0];
  mkPatch 7 0 0 0 0 [2;2;2;2] [0;0;0;0] [0;0;0;127] [0;0;0;0] [31;31;31;31] [15;15;15;15] [31;31;31;31] [0;0;0;0] [0;0;0;0] [0;0;0;0] [0;0;0;0];
  mkPatch 1 0 0 0 0 [10;8;4;2] [-3;1;3;0] [27;112;112;127] [18;10;20;0] [16;0;29;25] [0;0;0;0] [29;29;29;29] [7;7;7;10] [1;2;1;2] [0;0;0;0] [0;0;0;0];
  mkPatch 6 4 0 0 0 [10;1;1;1] [0;0;0;0] [120;120;120;127] [0;0;0;0] [24;19;25;13] [0;0;0;0] [31;31;31;31] [8;8;6;9] [1;1;1;1] [0;0;0;0] [0;0;0;0];
  mkPatch 2 4 1 0 1 [2;6;8;4] [-3;0;3;0] [120;111;105;125] [14;23;0;14] [24;23;22;31] [0;0;8;12] [24;23;27;31] [9;8;8;9] [1;2;2;0] [0;0;7;0] [0;1;1;0];
  mkPatch 5 5 1 0 2 [4;2;10;2] [2;-1;1;0] [113;114;109;127] [0;23;21;0] [23;24;26;27] [0;0;0;0] [31;31;31;31] [7;7;9;9] [0;2;1;0] [0;0;3;0] [0;1;0;0];
  mkPatch 4 4 0 0 0 [4;3;7;2] [0;-1;1;0] [105;116;102;127] [18;0;14;0] [20;21;17;19] [7;0;0;0] [24;23;23;21] [9;9;9;9] [0;0;0;0] [8;0;0;0] [0;0;0;0]
].

Definition load_patch (p : Patch) (m : Machine) : Machine :=
  changeAllParams (p_alg p) (p_fb p) (p_lfo p) (p_vib p) (p_trem p)
    (p_mult p) (p_det p) (p_tl p) (p_atk p) (p_dcy p) (p_sl p) (p_sr p)
    (p_rel p) (p_rs p) (p_eg p) (p_am p) m.

(** [preset()]: [switch(ym.patchNum)] with cases 0 to 20 and no default. *)
Definition preset (m : Machine) : Machine :=
  if (0 <=? patchNum (ym m)) && (patchNum (ym m) <=? 20) then
    match patches !! Z.to_nat (patchNum (ym m)) with
    | Some p => load_patch p m
    | None => m
    end
  else m.

(** ** Navigation: [changeGroup] and [changeCurrent] *)

Definition changeGroup (m : Machine) : Machine :=
  let m := with_ym (fun y => set_group (minMaxValue (group y) 0 3) y) m in
  let m := with_ym (set_current 0) m in
  with_ym (fun y =>
    match group y with
    | 0 => set_value F_patchNum y
    | 1 => set_value F_algorithm y
    | 2 => set_value (F_attack (op y)) y
    | 3 => set_value F_lfoFreq y
    | _ => y
    end) m.

Definition changeCurrent (m : Machine) : Machine :=
  let m := with_ym (fun y => set_op (minMaxValue (op y) 0 3) y) m in
  let op := u8 (op (ym m)) in
  if group (ym m) =? 0 then
    let m := with_ym (fun y => set_current (minMaxValue (current y) 0 3) y) m in
    with_ym (fun y =>
      match current y with
      | 0 => set_value F_patchNum y
      | 1 => set_value F_velSens y
      | 2 => set_value F_minVel y
      | 3 => set_value F_polyphony y
      | _ => y
      end) m
  else if group (ym m) =? 1 then
    let m := with_ym (fun y => set_current (minMaxValue (current y) 0 4) y) m in
    with_ym (fun y =>
      match current y with
      | 0 => set_value F_algorithm y
      | 1 => set_value F_feedback y
      | 2 => set_value (F_multiple op) y
      | 3 => set_value (F_detune op) y
      | 4 => set_value (F_totalLvl op) y
      | _ => y
      end) m
  else if group (ym m) =? 2 then
    let m := with_ym (fun y => set_current (minMaxValue (current y) 0 6) y) m in
    with_ym (fun y =>
      match current y with
      | 0 => set_value (F_attack op) y
      | 1 => set_value (F_decay op) y
      | 2 => set_value (F_susLvl op) y
      | 3 => set_value (F_susRate op) y
      | 4 => set_value (F_release op) y
      | 5 => set_value (F_rateScl op) y
      | 6 => set_value (F_ssgeg op) y
      | _ => y
      end) m
  else if group (ym m) =? 3 then
    let m := with_ym (fun y => set_current (minMaxValue (current y) 0 3) y) m in
    with_ym (fun y =>
      match current y with
      | 0 => set_value F_lfoFreq y
      | 1 => set_value F_vibrato y
      | 2 => set_value F_tremolo y
      | 3 => set_value (F_amOn op) y
      | _ => y
      end) m
  else m.

(** ** Value editing: [changeValue] *)

(** [minMaxValue(&f, min, max)] on a member of the store. *)
Definition restrict (f : Field) (min max : Z) (m : Machine) : Machine :=
  with_ym (fun y => store f (minMaxValue (par y f) min max) y) m.

(** [changeValue()]: the chain of comparisons of [ym.value] with the address
    of each parameter. *)
Definition changeValue (m : Machine) : Machine :=
  let val := value (ym m) in
  let op := op (ym m) in
  if decide (val = F_patchNum) then
    let m := restrict F_patchNum 0 MAX_PRESET m in
    preset m
  else if decide (val = F_velSens) then
    restrict F_velSens 0 10 m
  else if decide (val = F_minVel) then
    restrict F_minVel 0 127 m
  else if decide (val = F_polyphony) then
    restrict F_polyphony 0 2 m
  else if decide (val = F_algorithm) then
    let m := restrict F_algorithm 0 7 m in
    writeToYM op (algorithm (ym m)) (feedback (ym m)) 0xB0 0 3 false true 0 0 0 m
  else if decide (val = F_feedback) then
    let m := restrict F_feedback 0 7 m in
    writeToYM op (feedback (ym m)) (algorithm (ym m)) 0xB0 3 0 false true 0 0 0 m
  else if decide (val = F_multiple op) then
    let m := restrict (F_multiple op) 0 15 m in
    writeToYM op (multiple (ym m) op) (detune (ym m) op) 0x30 0 4 true true 6 0 0 m
  else if decide (val = F_detune op) then
    let m := restrict (F_detune op) (-3) 3 m in
    writeToYM op (detune (ym m) op) (multiple (ym m) op) 0x30 4 0 true true 5 0 0 m
  else if decide (val = F_totalLvl op) then
    let m := restrict (F_totalLvl op) 0 127 m in
    writeToYM op (totalLvl (ym m) op) 0 0x40 0 0 true true 9 127 0 m
  else if decide (val = F_attack op) then
    let m := restrict (F_attack op) 0 31 m in
    writeToYM op (attack (ym m) op) (rateScl (ym m) op) 0x50 0 6 true true 1 31 0 m
  else if decide (val = F_decay op) then
    let m := restrict (F_decay op) 0 31 m in
    writeToYM op (decay (ym m) op) (amOn (ym m) op) 0x60 0 7 true true 1 31 0 m
  else if decide (val = F_susLvl op) then
    let m := restrict (F_susLvl op) 0 15 m in
    writeToYM op (susLvl (ym m) op) (release (ym m) op) 0x80 4 0 true true 3 15 15 m
  else if decide (val = F_susRate op) then
    let m := restrict (F_susRate op) 0 31 m in
    writeToYM op (susRate (ym m) op) 0 0x70 0 0 true true 7 31 0 m
  else if decide (val = F_release op) then
    let m := restrict (F_release op) 0 15 m in
    writeToYM op (release (ym m) op) (susLvl (ym m) op) 0x80 0 4 true true 3 15 15 m
  else if decide (val = F_rateScl op) then
    let m := restrict (F_rateScl op) 0 3 m in
    writeToYM op (rateScl (ym m) op) (attack (ym m) op) 0x50 6 0 true true 2 0 31 m
  else if decide (val = F_ssgeg op) then
    let m := restrict (F_ssgeg op) 0 8 m in
    write_ssgeg op (ssgeg (ym m) op) m
  else if decide (val = F_lfoFreq) then
    let m := restrict F_lfoFreq 0 8 m in
    write_lfo op (lfoFreq (ym m)) m
  else if decide (val = F_vibrato) then
    let m := restrict F_vibrato 0 7 m in
    writeToYM op (vibrato (ym m)) (tremolo (ym m)) 0xB4 0 4 false true 8 0 0 m
  else if decide (val = F_tremolo) then
    let m := restrict F_tremolo 0 3 m in
    writeToYM op (tremolo (ym m)) (vibrato (ym m)) 0xB4 4 0 false true 8 0 0 m
  else if decide (val = F_amOn op) then
    let m := restrict (F_amOn op) 0 1 m in
    writeToYM op (amOn (ym m) op) (decay (ym m) op) 0x60 7 0 true true 2 0 31 m
  else m.

(** The value-edit gesture of [PCINT2_vect] (a detent with neither button
    held): [++*ym.value] or [--*ym.value], then [changeValue()]. *)
Definition edit_value (clockwise : bool) (m : Machine) : Machine :=
  let m := with_ym (fun y =>
    store (value y) (int (par y (value y) + (if clockwise then 1 else -1))) y) m in
  changeValue m.

(** ** MIDI router: [USART_RX_vect] *)

Definition buf (m : Machine) (k : Z) : Z := midiBuf (glb m) !!! Z.to_nat k.

(** The first part of the handler: store the byte and advance the ring. *)
Definition midi_store (data : Z) (m : Machine) : Machine :=
  if data <? 0xF8 then
    let m := with_glb (fun g =>
      set_midiBuf (<[Z.to_nat (midiIndex g) := data]> (midiBuf g)) g) m in
    let m := if Z.land data 0xF0 >=? 0x80
             then with_glb (fun g => set_msgStart (u8 (midiIndex g)) g) m
             else m in
    let m := with_glb (fun g => set_midiIndex (int (midiIndex g + 1)) g) m in
    with_glb (fun g => set_midiIndex (minMaxValue (midiIndex g) 0 127) g) m
  else m.

Definition midi_data1 (m : Machine) : Z :=
  if msgStart (glb m) =? 127 then buf m 0
  else if msgStart (glb m) =? 126 then buf m 127
  else buf m (msgStart (glb m) + 1).

Definition midi_data2 (m : Machine) : Z :=
  if msgStart (glb m) =? 127 then buf m 1
  else if msgStart (glb m) =? 126 then buf m 0
  else buf m (msgStart (glb m) + 2).

Definition midi_case1 (m : Machine) : bool := msgStart (glb m) =? 127.

Definition midi_case2 (m : Machine) : bool :=
  negb (msgStart (glb m) =? 127) && (msgStart (glb m) =? 126).

(** The test for a complete three-byte message. *)
Definition midi_three (m : Machine) : bool :=
  (int (midiIndex (glb m) - msgStart (glb m)) =? 3)
  || ((midiIndex (glb m) =? 2) && midi_case1 m)
  || ((midiIndex (glb m) =? 1) && midi_case2 m).

(** The test for a complete two-byte message. *)
Definition midi_two (m : Machine) : bool :=
  (int (midiIndex (glb m) - msgStart (glb m)) =? 2)
  || ((midiIndex (glb m) =? 1) && midi_case1 m)
  || ((midiIndex (glb m) =? 0) && midi_case2 m).

Definition midi_status (m : Machine) : Z :=
  Z.land (buf m (msgStart (glb m))) 0xF0.

(** [case 0xB0]: controllers. *)
Definition controller (data1 data2 : Z) (m : Machine) : Machine :=
  if data1 =? 1 then
    if data2 =? 0 then
      if lfoFreq (ym m) =? 0 then sendreg 0 0x22 0 m
      else sendreg 0 0x22 (0x08 + lfoFreq (ym m) - 1) m
    else sendreg 0 0x22 (0x08 + data2 ÷ 18) m
  else if data1 =? 64 then
    if data2 =? 0 then with_ym (set_sustain true) m
    else with_ym (set_sustain false) m
  else m.

(** The six writes of register 0xB4 in [case 0xD0]. *)
Definition aftertouch_burst (depth : Z) (m : Machine) : Machine :=
  fold_left (fun m i =>
    fold_left (fun m j =>
      sendreg (Z.of_nat j) (0xB4 + Z.of_nat i)
        (0xC0 + Z.shiftl (tremolo (ym m)) 4 + depth) m)
      (seq 0 2) m)
    (seq 0 3) m.

(** [case 0xD0]: channel aftertouch. *)
Definition aftertouch (data1 : Z) (m : Machine) : Machine :=
  if data1 =? 0 then aftertouch_burst (vibrato (ym m)) m
  else aftertouch_burst (data1 ÷ 18) m.

(** [case 0xE0]: pitch bend, used to turn every channel off. *)
Definition all_off (m : Machine) : Machine :=
  fold_left (fun m i =>
    let m := sendreg 0 0x28 (0x00 + chan i) m in
    with_ym (fun y => set_notesOn (<[i := mkRow 0 0 0]> (notesOn y)) y) m)
    (seq 0 6) m.

Definition dispatch3 (m : Machine) : Machine :=
  let data1 := midi_data1 m in
  let data2 := midi_data2 m in
  match midi_status m with
  | 0x90 => note data1 data2 true m
  | 0x80 => note data1 data2 false m
  | 0xB0 => controller data1 data2 m
  | _ => m
  end.

Definition dispatch2 (m : Machine) : Machine :=
  let data1 := midi_data1 m in
  match midi_status m with
  | 0xD0 => aftertouch data1 m
  | 0xE0 => all_off m
  | _ => m
  end.

(** [ISR(USART_RX_vect)]; [UDR0] is the byte that arrived. *)
Definition USART_RX_vect (UDR0 : Z) (m : Machine) : Machine :=
  let data := u8 UDR0 in
  let m := midi_store data m in
  if midi_three m then dispatch3 m
  else if midi_two m then dispatch2 m
  else m.

(** ** Start-up state: [main] *)

Definition ym0 : Parameters :=
  mkParameters 0 0 0 F_patchNum
    (replicate 6 (0, 0)) (replicate 6 (mkRow 0 0 0)) (replicate 6 0) false
    (fun f => match f with
              | F_patchNum => 15
              | F_velSens => 2
              | F_minVel => 50
              | _ => 0
              end).

Definition glb0 : GlobalVars := mkGlobalVars (replicate 128 0) 0 0.

(** The state when [main] executes [sei()]. *)
Definition power_on : Machine :=
  changeGroup (preset (mkMachine ym0 glb0 [])).

(** ** Vocabulary of the properties *)

(** Row [i] of [ym.notesOn]. *)
Definition row (m : Machine) (i : nat) : NoteRow := notesOn (ym m) !!! i.

(** The two conditions of the tick loop: the channel is scheduled but not yet
    on, and the channel is on but no longer scheduled. *)
Definition due_on (y : Parameters) (i : nat) : bool :=
  truthy (nr_sched (notesOn y !!! i)) && negb (truthy (nr_on (notesOn y !!! i))).

Definition due_off (y : Parameters) (i : nat) : bool :=
  negb (truthy (nr_sched (notesOn y !!! i))) && truthy (nr_on (notesOn y !!! i)).

(** The register writes of one channel, as [sendreg] logs them. *)
Definition key_off (i : nat) : RegWrite := (0, 0x28, chan i).

Definition key_on (i : nat) : RegWrite := (0, 0x28, 0xF0 + chan i).

Definition pitch_high (y : Parameters) (i : nat) : RegWrite :=
  (chanGrp i, 0xA4 + Z.of_nat i mod 3, u8 (fst (freq y !!! i))).

Definition pitch_low (y : Parameters) (i : nat) : RegWrite :=
  (chanGrp i, 0xA0 + Z.of_nat i mod 3, u8 (snd (freq y !!! i))).

Definition level_write (y : Parameters) (i o : nat) (level : Z) : RegWrite :=
  (chanGrp i, 0x40 + Z.of_nat i mod 3 + opOffset o, u8 (127 - level)).

(** The blend of velocity and total level, in unbounded arithmetic. *)
Definition blend (y : Parameters) (i o : nat) : Z :=
  (velSens y * (vel y !!! i) + (10 - velSens y) * totalLvl y (Z.of_nat o)) / 10.

(** The writes that a handler adds to the sink. *)
Definition emitted (f : Machine -> Machine) (m : Machine) : list RegWrite :=
  drop (length (sink m)) (sink (f m)).

(** A channel is settled when the tick has nothing to do for it. *)
Definition settled (m : Machine) (i : nat) : Prop :=
  due_on (ym m) i = false /\ (due_off (ym m) i = false \/ sustain (ym m) = true).

(** The three channel arrays have their six elements. *)
Definition wf (y : Parameters) : Prop :=
  length (freq y) = 6%nat /\ length (notesOn y) = 6%nat /\ length (vel y) = 6%nat.

(** The two pitch bytes that [note] stores for a note number. *)
Definition pitch_bytes (noteIn : Z) : Z * Z :=
  (u8 (Z.lor (Z.shiftl (note_oct noteIn) 3) (Z.shiftr (Z.land (note_noteOut noteIn) 0x0700) 8)),
   u8 (Z.land (note_noteOut noteIn) 0x00FF)).

(** The octave block as the specification words it: [note/12 - 1] clamped
    into [0,7]. *)
Definition clamp (x lo hi : Z) : Z :=
  if x <? lo then lo else if x >? hi then hi else x.

Definition block_clamped (noteIn : Z) : Z := clamp (noteIn / 12 - 1) 0 7.

(** The bounds of every bounded parameter as the data model documents them
    (preset index 0 to 20, velocity sensitivity 0 to 10, and so on). *)
Definition documented_bounds (f : Field) : Z * Z :=
  match f with
  | F_patchNum => (0, 20)
  | F_velSens => (0, 10)
  | F_minVel => (0, 127)
  | F_polyphony => (0, 2)
  | F_algorithm => (0, 7)
  | F_feedback => (0, 7)
  | F_detune _ => (-3, 3)
  | F_multiple _ => (0, 15)
  | F_totalLvl _ => (0, 127)
  | F_attack _ => (0, 31)
  | F_decay _ => (0, 31)
  | F_susLvl _ => (0, 15)
  | F_susRate _ => (0, 31)
  | F_release _ => (0, 15)
  | F_rateScl _ => (0, 3)
  | F_ssgeg _ => (0, 8)
  | F_lfoFreq => (0, 8)
  | F_vibrato => (0, 7)
  | F_tremolo => (0, 3)
  | F_amOn _ => (0, 1)
  end.

(** The operator index of a per-operator parameter. *)
Definition field_operator (f : Field) : option Z :=
  match f with
  | F_detune o | F_multiple o | F_totalLvl o
  | F_attack o | F_decay o | F_susLvl o | F_susRate o
  | F_release o | F_rateScl o | F_ssgeg o | F_amOn o => Some o
  | _ => None
  end.

(** [f] is the parameter under the cursor: [ym.value] points to it, and a
    per-operator parameter is the one of the current operator. *)
Definition editing (y : Parameters) (f : Field) : Prop :=
  value y = f /\ (forall o, field_operator f = Some o -> o = op y).

(** *** Example states *)

(** Middle C at velocity 100 has just been requested after power-on. *)
Definition st_requested : Machine := note 60 100 true power_on.

(** The same note after the next tick: channel 0 sounds. *)
Definition st_sounding : Machine := TIMER1_OVF_vect st_requested.

(** Channel 0 sounds middle C and the sustain flag is set. *)
Definition st_pedal : Machine := with_ym (set_sustain true) st_sounding.

(** Channel 0 is free again while channel 1 still sounds D (62). *)
Definition st_gap : Machine :=
  TIMER1_OVF_vect (note 60 0 false
    (TIMER1_OVF_vect (note 62 100 true (note 60 100 true power_on)))).

(** Five clockwise detents after power-on: the cursor is on the preset
    index, which has reached the last preset. *)
Definition st_last_preset : Machine := Nat.iter 5 (edit_value true) power_on.

(** A run of the MIDI handler over the bytes that arrive, one call each. *)
Definition feed (bytes : list Z) (m : Machine) : Machine :=
  fold_left (fun m b => USART_RX_vect b m) bytes m.

(** The status byte and the controller number of a mod-wheel message and of a
    sustain-pedal message have arrived; the data byte is still to come. *)
Definition st_mod_wheel : Machine := feed [0xB0; 1] power_on.

Definition st_pedal_msg : Machine := feed [0xB0; 64] st_sounding.

(** 125 data bytes after power-on: the next byte goes to ring index 125. *)
Definition st_ring_125 : Machine := feed (repeat 0 125) power_on.

(** ** Further example states *)

(** Six different notes are held and sounding: no channel is free. *)
Definition st_full : Machine :=
  TIMER1_OVF_vect
    (fold_left (fun m n => note n 100 true m) [60; 62; 64; 65; 67; 69] power_on).

(** ** Vocabulary of the register encoder *)

(** The parameter that is packed into the same register byte. *)
(** The parameter lies within its documented bounds. *)
Definition in_bounds (y : Parameters) (f : Field) : Prop :=
  fst (documented_bounds f) <= par y f <= snd (documented_bounds f).

(** The six (group flag, channel offset) pairs of a broadcast, in the order
    of the two nested loops of [writeToYM]. *)
Definition broadcast : list (Z * Z) := [(0, 0); (0, 1); (0, 2); (1, 0); (1, 1); (1, 2)].

(** The integers [lo], [lo + 1], ..., [lo + n - 1]. *)
Definition zrange (lo : Z) (n : nat) : list Z := map (fun k => lo + Z.of_nat k) (seq 0 n).

(** ** Vocabulary of the preset loader *)

(** The ten assignments of one iteration of the operator loop of
    [changeAllParams], as one update of the store. *)
Definition op_stores (mult det tl atk dcy sl sr rs eg am : list Z) (i : nat)
    (y : Parameters) : Parameters :=
  store (F_amOn (Z.of_nat i)) (am !!! i)
    (store (F_ssgeg (Z.of_nat i)) (eg !!! i)
      (store (F_rateScl (Z.of_nat i)) (rs !!! i)
        (store (F_susRate (Z.of_nat i)) (sr !!! i)
          (store (F_susLvl (Z.of_nat i)) (sl !!! i)
            (store (F_decay (Z.of_nat i)) (dcy !!! i)
              (store (F_attack (Z.of_nat i)) (atk !!! i)
                (store (F_totalLvl (Z.of_nat i)) (tl !!! i)
                  (store (F_detune (Z.of_nat i)) (det !!! i)
                    (store (F_multiple (Z.of_nat i)) (mult !!! i) y))))))))).

(** Entry [o] of a four-element argument array, for an operator index 0 to 3. *)
Definition arg_at (a : list Z) (o : Z) : option Z :=
  if (0 <=? o) && (o <? 4) then Some (a !!! Z.to_nat o) else None.

(** What a preset load assigns to a parameter, if anything: the group-0
    parameters and the release rates are not assigned. *)
Definition patch_value (p : Patch) (f : Field) : option Z :=
  match f with
  | F_algorithm => Some (p_alg p)
  | F_feedback => Some (p_fb p)
  | F_lfoFreq => Some (p_lfo p)
  | F_vibrato => Some (p_vib p)
  | F_tremolo => Some (p_trem p)
  | F_multiple o => arg_at (p_mult p) o
  | F_detune o => arg_at (p_det p) o
  | F_totalLvl o => arg_at (p_tl p) o
  | F_attack o => arg_at (p_atk p) o
  | F_decay o => arg_at (p_dcy p) o
  | F_susLvl o => arg_at (p_sl p) o
  | F_susRate o => arg_at (p_sr p) o
  | F_rateScl o => arg_at (p_rs p) o
  | F_ssgeg o => arg_at (p_eg p) o
  | F_amOn o => arg_at (p_am p) o
  | F_release _ => None
  | F_patchNum | F_velSens | F_minVel | F_polyphony => None
  end.

(** The six writes of a broadcast to register [r] and its two neighbours. *)
Definition burst_of (r d : Z) : list RegWrite :=
  map (fun a => (fst a, u8 (r + snd a), d)) broadcast.

(** The (group flag, register) pairs of a preset load, in the order in which
    [changeAllParams] writes them. *)
Definition preset_addresses : list (Z * Z) :=
  map fst (burst_of 0xB0 0) ++ [(0, 0x22)] ++ map fst (burst_of 0xB4 0)
  ++ flat_map (fun o =>
       flat_map (fun base => map fst (burst_of (base + opOffset o) 0))
         [0x30; 0x40; 0x50; 0x60; 0x80; 0x70; 0x90])
     (seq 0 4).

(** ** The encoder and the buttons: [PCINT2_vect] *)

(** The interface part of [struct GlobalVars]: the pin values stored at the
    previous interrupt ([RPGold[0]], [RPGold[1]], [RPGpinOld], [BTN_L_old],
    [BTN_R_old]) and [chgGrp]. *)
Record Interface : Type := mkInterface {
  RPGold0 : Z;
  RPGold1 : Z;
  RPGpinOld : Z;
  BTN_L_old : Z;
  BTN_R_old : Z;
  chgGrp : bool
}.

(** The pins of port D. *)
Definition BTN_L : Z := 1.
Definition BTN_R : Z := 2.
Definition ENC_A : Z := 3.
Definition ENC_B : Z := 4.

(** [(PIND & (1<<n)) >> n]. *)
Definition pin (PIND n : Z) : Z := Z.shiftr (Z.land PIND (Z.shiftl 1 n)) n.

(** [--ym.group; changeGroup()] and [++ym.group; changeGroup()]. *)
Definition step_group (d : Z) (m : Machine) : Machine :=
  changeGroup (with_ym (fun y => set_group (int (group y + d)) y) m).

(** [--ym.current; changeCurrent()] and [++ym.current; changeCurrent()]. *)
Definition step_current (d : Z) (m : Machine) : Machine :=
  changeCurrent (with_ym (fun y => set_current (int (current y + d)) y) m).

(** [--ym.op; changeCurrent()] and [++ym.op; changeCurrent()]. *)
Definition step_op (d : Z) (m : Machine) : Machine :=
  changeCurrent (with_ym (fun y => set_op (int (op y + d)) y) m).

(** The dispatch of one detent on the two button levels. *)
Definition turn (clockwise : bool) (BTN_L_status BTN_R_status : Z) (m : Machine) : Machine :=
  if negb (truthy BTN_L_status) then step_current (if clockwise then 1 else -1) m
  else if negb (truthy BTN_R_status) then step_op (if clockwise then 1 else -1) m
  else if truthy BTN_L_status && truthy BTN_R_status then edit_value clockwise m
  else m.

(** [ISR(PCINT2_vect)]; [PIND] is the value of the port when the handler
    reads it. *)
Definition PCINT2_vect (PIND : Z) (s : Interface * Machine) : Interface * Machine :=
  let g := fst s in
  let m := snd s in
  let PIND := u8 PIND in
  let RPG0 := pin PIND ENC_A in
  let RPG1 := pin PIND ENC_B in
  let RPGpin := Z.land PIND (Z.lor (Z.shiftl 1 ENC_A) (Z.shiftl 1 ENC_B)) in
  let BTN_L_status := pin PIND BTN_L in
  let BTN_R_status := pin PIND BTN_R in
  let chg := if negb (truthy BTN_L_status) || negb (truthy BTN_R_status)
             then true else chgGrp g in
  if RPGpinOld g =? RPGpin then
    let m :=
      if chg then
        let m := if truthy BTN_L_status && negb (truthy (BTN_L_old g))
                 then step_group (-1) m else m in
        if truthy BTN_R_status && negb (truthy (BTN_R_old g))
        then step_group 1 m else m
      else m in
    (mkInterface (RPGold0 g) (RPGold1 g) (RPGpinOld g) BTN_L_status BTN_R_status chg, m)
  else
    let m :=
      if truthy RPG1 && negb (truthy RPG0) then
        if (RPGold1 g =? RPG0) && negb (RPGold0 g =? RPG1) then
          turn false BTN_L_status BTN_R_status m
        else if (RPGold0 g =? RPG1) && negb (RPGold1 g =? RPG0) then
          turn true BTN_L_status BTN_R_status m
        else m
      else m in
    (mkInterface RPG0 RPG1 RPGpin BTN_L_status BTN_R_status false, m).

(** The stored pin values as [main] initialises them from the port. *)
Definition interface0 (PIND : Z) : Interface :=
  let PIND := u8 PIND in
  let RPGpinOld := Z.land PIND (Z.lor (Z.shiftl 1 ENC_A) (Z.shiftl 1 ENC_B)) in
  mkInterface (pin RPGpinOld ENC_A) (pin RPGpinOld ENC_B) RPGpinOld
    (pin PIND BTN_L) (pin PIND BTN_R) false.

(** A run of the pin-change handler over the port values it reads. *)
Definition pins_run (ports : list Z) (s : Interface * Machine) : Interface * Machine :=
  fold_left (fun s p => PCINT2_vect p s) ports s.

(** A port value with the given levels of the two buttons and the two encoder
    pins; [rest] supplies the pins the handler does not look at. *)
Definition port (l r a b : bool) (rest : Z) : Z :=
  Z.lor (Z.land (u8 rest) 0xE1)
    (Z.lor (Z.shiftl (Z.b2z l) BTN_L)
       (Z.lor (Z.shiftl (Z.b2z r) BTN_R)
          (Z.lor (Z.shiftl (Z.b2z a) ENC_A) (Z.shiftl (Z.b2z b) ENC_B)))).

(** The stored pin values after an interrupt that saw these encoder levels
    with both buttons up. *)
Definition at_rest (a b : bool) : Interface :=
  mkInterface (Z.b2z a) (Z.b2z b) (Z.lor (Z.shiftl (Z.b2z a) ENC_A) (Z.shiftl (Z.b2z b) ENC_B))
    1 1 false.

(** The four encoder states of one detent, in the order in which they follow
    the state with both pins high: clockwise pin A falls first,
    counterclockwise pin B falls first.  Each pair is (A, B). *)
Definition cw_cycle : list (bool * bool) :=
  [(false, true); (false, false); (true, false); (true, true)].

Definition ccw_cycle : list (bool * bool) :=
  [(true, false); (false, false); (false, true); (true, true)].

(** The cycle started [k] states later. *)
Definition rotate {A} (k : nat) (l : list A) : list A := drop k l ++ take k l.

(** The port values of a list of encoder states with fixed button levels. *)
Definition ports_of (l r : bool) (rest : Z) (states : list (bool * bool)) : list Z :=
  map (fun s => port l r (fst s) (snd s) rest) states.

(** The handler has stored the encoder state [s]. *)
Definition stored (g : Interface) (s : bool * bool) : Prop :=
  RPGold0 g = Z.b2z (fst s) /\ RPGold1 g = Z.b2z (snd s)
  /\ RPGpinOld g = Z.lor (Z.shiftl (Z.b2z (fst s)) ENC_A) (Z.shiftl (Z.b2z (snd s)) ENC_B).

(** The four states of a detent that starts [k] states into the cycle; the
    last of them is the state the turn starts from and ends in. *)
Definition detent (clockwise : bool) (k : nat) : list (bool * bool) :=
  rotate k (if clockwise then cw_cycle else ccw_cycle).

Definition detent_end (clockwise : bool) (k : nat) : bool * bool :=
  List.last (detent clockwise k) (true, true).

(** ** Vocabulary of the cursor *)

(** The highest parameter index of each group ([changeCurrent]). *)
Definition cur_max (g : Z) : Z :=
  match g with
  | 0 => 3
  | 1 => 4
  | 2 => 6
  | 3 => 3
  | _ => 0
  end.

(** The parameter at position [c] of group [g] for operator [o], as the
    [switch] statements of [changeGroup] and [changeCurrent] select it. *)
Definition field_at (g c o : Z) : Field :=
  match g, c with
  | 0, 0 => F_patchNum
  | 0, 1 => F_velSens
  | 0, 2 => F_minVel
  | 0, 3 => F_polyphony
  | 1, 0 => F_algorithm
  | 1, 1 => F_feedback
  | 1, 2 => F_multiple o
  | 1, 3 => F_detune o
  | 1, 4 => F_totalLvl o
  | 2, 0 => F_attack o
  | 2, 1 => F_decay o
  | 2, 2 => F_susLvl o
  | 2, 3 => F_susRate o
  | 2, 4 => F_release o
  | 2, 5 => F_rateScl o
  | 2, 6 => F_ssgeg o
  | 3, 0 => F_lfoFreq
  | 3, 1 => F_vibrato
  | 3, 2 => F_tremolo
  | 3, 3 => F_amOn o
  | _, _ => F_patchNum
  end.

(** The cursor is consistent: operator, group and parameter index are in
    range and [ym.value] points to the parameter they select. *)
Definition nav_ok (y : Parameters) : Prop :=
  0 <= op y <= 3 /\ 0 <= group y <= 3 /\ 0 <= current y <= cur_max (group y)
  /\ value y = field_at (group y) (current y) (op y).

(** The four members that make up the cursor. *)
Definition cursor (y : Parameters) : Z * Z * Z * Field :=
  (op y, group y, current y, value y).

(** ** The three interrupt sources together *)

(** The handlers save the status register and disable interrupts on entry, so
    each runs to its end before the next one starts; [note] re-enables
    interrupts only as its last statement, after which the MIDI handler does
    nothing more to the state. *)
Inductive Event : Type :=
| Tick
| MidiByte (UDR0 : Z)
| PinChange (PIND : Z).

Definition handle (e : Event) (s : Interface * Machine) : Interface * Machine :=
  match e with
  | Tick => (fst s, TIMER1_OVF_vect (snd s))
  | MidiByte b => (fst s, USART_RX_vect b (snd s))
  | PinChange p => PCINT2_vect p s
  end.

Definition run (events : list Event) (s : Interface * Machine) : Interface * Machine :=
  fold_left (fun s e => handle e s) events s.

(** The state in which [main] enables interrupts; [PIND] is the port value
    it read. *)
Definition start (PIND : Z) : Interface * Machine := (interface0 PIND, power_on).

(** The ring indices are inside the 128-byte buffer. *)
Definition ring_ok (g : GlobalVars) : Prop :=
  length (midiBuf g) = 128%nat /\ 0 <= midiIndex g <= 127 /\ 0 <= msgStart g <= 127.

(** ** Vocabulary of the patch library *)

Definition within (f : Field) (v : Z) : bool :=
  (fst (documented_bounds f) <=? v) && (v <=? snd (documented_bounds f)).

(** Every value that a load of [p] assigns is inside the bounds of its
    parameter. *)
Definition patch_within (p : Patch) : bool :=
  within F_algorithm (p_alg p) && within F_feedback (p_fb p)
  && within F_lfoFreq (p_lfo p) && within F_vibrato (p_vib p)
  && within F_tremolo (p_trem p)
  && forallb (fun o : nat =>
       within (F_multiple 0) (p_mult p !!! o) && within (F_detune 0) (p_det p !!! o)
       && within (F_totalLvl 0) (p_tl p !!! o) && within (F_attack 0) (p_atk p !!! o)
       && within (F_decay 0) (p_dcy p !!! o) && within (F_susLvl 0) (p_sl p !!! o)
       && within (F_susRate 0) (p_sr p !!! o) && within (F_rateScl 0) (p_rs p !!! o)
       && within (F_ssgeg 0) (p_eg p !!! o) && within (F_amOn 0) (p_am p !!! o))
       (seq 0 4).

(** [m'] has the cursor, the parameter store and the MIDI ring of [m]. *)
Definition same_settings (m m' : Machine) : Prop :=
  cursor (ym m') = cursor (ym m) /\ par (ym m') = par (ym m) /\ glb m' = glb m.

(** What holds whenever a handler is entered. *)
Definition consistent (m : Machine) : Prop :=
  nav_ok (ym m) /\ (forall f, in_bounds (ym m) f) /\ ring_ok (glb m).

(** ** Vocabulary of the MIDI ring *)

(** The ring index that follows [k]. *)
Definition ring_next (k : Z) : Z := if k <? 127 then k + 1 else 0.

(** The ring after a byte below 0xF8 has been stored. *)
Definition ring_store (data : Z) (g : GlobalVars) : GlobalVars :=
  mkGlobalVars (<[Z.to_nat (midiIndex g) := data]> (midiBuf g)) (ring_next (midiIndex g))
    (if Z.land data 0xF0 >=? 0x80 then midiIndex g else msgStart g).

(** * The slave controller: [ym2612c/main.c] *)

Module Slave.

(** The control pins of the chip on port C. *)
Definition CS : Z := 0.
Definition WR : Z := 1.
Definition RD : Z := 2.
Definition A0 : Z := 3.
Definition A1 : Z := 4.
Definition IC : Z := 0.

(** [struct Global] without the saved status register. *)
Record Global : Type := mkGlobal {
  YM_reg : Z;
  YM_data : Z;
  writeFlag : Z;
  inCnt : Z
}.

(** The program state: the globals, the control port, the data port, and
    what the chip has been shown: for each pulse of WR the values of the
    control port and of the data port while WR is low. *)
Record State : Type := mkState {
  glb : Global;
  YM_CTRL_PORT : Z;
  YM_DATA_PORT : Z;
  strobes : list (Z * Z)
}.

(** [YM_CTRL_PORT |= mask] and [YM_CTRL_PORT &= mask]. *)
Definition ctrl_or (mask : Z) (st : State) : State :=
  mkState (glb st) (u8 (Z.lor (YM_CTRL_PORT st) mask)) (YM_DATA_PORT st) (strobes st).

Definition ctrl_and (mask : Z) (st : State) : State :=
  mkState (glb st) (u8 (Z.land (YM_CTRL_PORT st) mask)) (YM_DATA_PORT st) (strobes st).

(** [void ymWrite(uint8_t data)]. *)
Definition ymWrite (data : Z) (st : State) : State :=
  let st := ctrl_and (Z.lnot (Z.shiftl 1 CS)) st in
  let st := mkState (glb st) (YM_CTRL_PORT st) (u8 data) (strobes st) in
  let st := ctrl_and (Z.lnot (Z.shiftl 1 WR)) st in
  let st := mkState (glb st) (YM_CTRL_PORT st) (YM_DATA_PORT st)
              (strobes st ++ [(YM_CTRL_PORT st, YM_DATA_PORT st)]) in
  let st := ctrl_or (Z.shiftl 1 WR) st in
  ctrl_or (Z.shiftl 1 CS) st.

(** [void setreg123(uint8_t reg, uint8_t data)]. *)
Definition setreg123 (reg data : Z) (st : State) : State :=
  let st := ctrl_and (Z.lnot (Z.shiftl 1 A0)) st in
  let st := ymWrite reg st in
  let st := ctrl_or (Z.shiftl 1 A0) st in
  let st := ymWrite data st in
  ctrl_and (Z.lnot (Z.shiftl 1 A0)) st.

(** [void setreg456(uint8_t reg, uint8_t data)]. *)
Definition setreg456 (reg data : Z) (st : State) : State :=
  let st := ctrl_or (Z.shiftl 1 A1) st in
  let st := ymWrite reg st in
  let st := ctrl_or (Z.shiftl 1 A0) st in
  let st := ymWrite data st in
  ctrl_and (Z.lnot (Z.lor (Z.shiftl 1 A0) (Z.shiftl 1 A1))) st.

(** [void setreg(uint8_t reg, uint8_t data, uint8_t chan)]. *)
Definition setreg (reg data chan : Z) (st : State) : State :=
  match u8 chan with
  | 0 => setreg123 reg data st
  | 1 => setreg456 reg data st
  | _ => setreg456 reg data (setreg123 reg data st)
  end.

Definition set_glb (g : Global) (st : State) : State :=
  mkState g (YM_CTRL_PORT st) (YM_DATA_PORT st) (strobes st).

(** [ISR(SPI_STC_vect)]; [SPDR] is the byte that arrived. *)
Definition SPI_STC_vect (SPDR : Z) (st : State) : State :=
  let SPDR := u8 SPDR in
  let st :=
    match inCnt (glb st) with
    | 0 => set_glb (mkGlobal (YM_reg (glb st)) (YM_data (glb st)) SPDR (inCnt (glb st))) st
    | 1 => set_glb (mkGlobal SPDR (YM_data (glb st)) (writeFlag (glb st)) (inCnt (glb st))) st
    | 2 =>
        let st := set_glb (mkGlobal (YM_reg (glb st)) SPDR (writeFlag (glb st))
                             (inCnt (glb st))) st in
        setreg (YM_reg (glb st)) (YM_data (glb st)) (writeFlag (glb st)) st
    | _ => st
    end in
  let st := set_glb (mkGlobal (YM_reg (glb st)) (YM_data (glb st)) (writeFlag (glb st))
                       (u8 (inCnt (glb st) + 1))) st in
  if inCnt (glb st) >? 2
  then set_glb (mkGlobal (YM_reg (glb st)) (YM_data (glb st)) (writeFlag (glb st)) 0) st
  else st.

(** The register writes of the test patch in [main], in order. *)
Definition init_regs : list (Z * Z) :=
  [(0x22, 0x00); (0x27, 0x00); (0x28, 0x01); (0x28, 0x02); (0x28, 0x04);
   (0x28, 0x05); (0x28, 0x06); (0x2B, 0x00); (0x30, 0x71); (0x34, 0x0D);
   (0x38, 0x33); (0x3C, 0x01); (0x40, 0x23); (0x44, 0x2D); (0x48, 0x26);
   (0x4C, 0x00); (0x50, 0x5F); (0x54, 0x99); (0x58, 0x5F); (0x5C, 0x94);
   (0x60, 0x05); (0x64, 0x05); (0x68, 0x05); (0x6C, 0x07); (0x70, 0x02);
   (0x74, 0x02); (0x78, 0x02); (0x7C, 0x02); (0x80, 0x11); (0x84, 0x11);
   (0x88, 0x11); (0x8C, 0xA6); (0x90, 0x00); (0x94, 0x00); (0x98, 0x00);
   (0x9C, 0x00); (0xB0, 0x32); (0xB4, 0xC0); (0x28, 0x00); (0xA4, 0x22);
   (0xA0, 0x69)].

(** The state in which [main] enables interrupts.  The ports and the globals
    start from zero; [IC] is pin 0 of port B, so the [(1<<IC)] in the
    initialisation of the control port is the bit of [CS]. *)
Definition main : State :=
  let st := mkState (mkGlobal 0 0 0 0) 0 0 [] in
  let st := ctrl_or (Z.lor (Z.lor (Z.lor (Z.lor (Z.lor (Z.shiftl 1 RD) (Z.shiftl 1 WR))
                      (Z.shiftl 1 CS)) (Z.shiftl 1 IC)) (Z.shiftl 0 A0)) (Z.shiftl 0 A1)) st in
  fold_left (fun st p => setreg123 (fst p) (snd p) st) init_regs st.

(** A run of the SPI handler over the bytes that arrive. *)
Definition spi_run (bytes : list Z) (st : State) : State :=
  fold_left (fun st b => SPI_STC_vect b st) bytes st.

(** What the chip makes of a strobe: whether it is selected for writing (CS
    and WR low), the bank line A1, the line A0 that tells a data byte from a
    register address, and the data port. *)
Definition seen (e : Z * Z) : bool * bool * bool * Z :=
  (negb (Z.testbit (fst e) CS) && negb (Z.testbit (fst e) WR),
   Z.testbit (fst e) A1, Z.testbit (fst e) A0, snd e).

(** A register write on one bank: the address strobe, then the data strobe. *)
Definition reg_write (bank : bool) (reg data : Z) : list (bool * bool * bool * Z) :=
  [(true, bank, false, reg); (true, bank, true, data)].

(** The register writes that a frame of flag, register and data stands for. *)
Definition frame_writes (f : Z * Z * Z) : list (bool * bool * bool * Z) :=
  match fst (fst f) with
  | 0 => reg_write false (snd (fst f)) (snd f)
  | 1 => reg_write true (snd (fst f)) (snd f)
  | _ => reg_write false (snd (fst f)) (snd f) ++ reg_write true (snd (fst f)) (snd f)
  end.

(** The byte stream cut into frames of three by count; an incomplete last
    frame is left out. *)
Fixpoint frames (bytes : list Z) : list (Z * Z * Z) :=
  match bytes with
  | a :: b :: c :: rest => (a, b, c) :: frames rest
  | _ => []
  end.

End Slave.

(** The three bytes that [sendreg] puts on the SPI line for a register write
    of the master, in the order of its three calls of [SPIsend]. *)
Definition wire (w : RegWrite) : list Z := [fst (fst w); snd (fst w); snd w].
(** A stream of frames read one byte late: the first frame starts with
    the stray byte [x], and each later one with the data byte of the
    write before it. *)
Fixpoint shifted (x : Z) (ws : list RegWrite) : list RegWrite :=
  match ws with
  | [] => []
  | w :: rest => (x, fst (fst w), snd (fst w)) :: shifted (snd w) rest
  end.

(** A register write as the slave expects it: three bytes, the first of
    them 0 or 1. *)
Definition wire_ok (w : RegWrite) : Prop :=
  (fst (fst w) = 0 \/ fst (fst w) = 1)
  /\ 0 <= snd (fst w) < 256 /\ 0 <= snd w < 256.

Definition is_byte (z : Z) : Prop := 0 <= z < 256.

Definition bytes_ok (w : RegWrite) : Prop :=
  is_byte (fst (fst w)) /\ is_byte (snd (fst w)) /\ is_byte (snd w).

(** [m'] is [m] after some more register writes, all of them well formed. *)
Definition sends_ok (m m' : Machine) : Prop :=
  exists new, sink m' = sink m ++ new /\ Forall wire_ok new.

(** The register write on the chip that a well-formed write of the master
    stands for. *)
Definition chip_write (w : RegWrite) : list (bool * bool * bool * Z) :=
  Slave.reg_write (fst (fst w) =? 1) (snd (fst w)) (snd w).

(** What the chip has seen when [main] of the slave is done. *)
Definition slave_init_writes : list (bool * bool * bool * Z) :=
  flat_map (fun p => Slave.reg_write false (fst p) (snd p)) Slave.init_regs.

(** After power-on the cursor has been moved to the sustain level of
    operator 0: two steps of the group, two steps of the parameter index. *)
Definition st_sustain_level : Machine :=
  step_current 1 (step_current 1 (step_group 1 (step_group 1 power_on))).

(** 127 mod-wheel messages after power-on.  These are 381 bytes, so the
    status byte of the next message is stored at ring index 125. *)
Definition st_127_messages : Machine :=
  feed (concat (repeat [0xB0; 1; 100] 127)) power_on.

(** * Properties *)

(** ** Machine integers *)

Lemma u8_small z : 0 <= z < 256 -> u8 z = z.
Proof. intros H. unfold u8. apply Z.mod_small. lia. Qed.

Lemma int_small z : -32768 <= z < 32768 -> int z = z.
Proof. intros H. unfold int. rewrite Z.mod_small; lia. Qed.

Lemma truthy_true z : truthy z = true <-> z <> 0.
Proof. unfold truthy. rewrite negb_true_iff, Z.eqb_neq. tauto. Qed.

Lemma truthy_false z : truthy z = false <-> z = 0.
Proof. unfold truthy. rewrite negb_false_iff, Z.eqb_eq. tauto. Qed.

Lemma minMaxValue_range v lo hi : lo <= hi -> lo <= minMaxValue v lo hi <= hi.
Proof.
  intros H. unfold minMaxValue.
  destruct (v <? lo) eqn:E1; [lia |].
  destruct (v >? hi) eqn:E2; [lia |].
  apply Z.ltb_ge in E1. rewrite Z.gtb_ltb in E2. apply Z.ltb_ge in E2. lia.
Qed.

Lemma minMaxValue_above v lo hi : lo <= hi -> hi < v -> minMaxValue v lo hi = lo.
Proof.
  intros H1 H2. unfold minMaxValue.
  destruct (v <? lo) eqn:E1; [apply Z.ltb_lt in E1; lia |].
  destruct (v >? hi) eqn:E2; [reflexivity |].
  rewrite Z.gtb_ltb in E2. apply Z.ltb_ge in E2. lia.
Qed.

Lemma minMaxValue_below v lo hi : v < lo -> minMaxValue v lo hi = hi.
Proof.
  intros H. unfold minMaxValue.
  destruct (v <? lo) eqn:E1; [reflexivity | apply Z.ltb_ge in E1; lia].
Qed.

Lemma minMaxValue_inside v lo hi : lo <= v <= hi -> minMaxValue v lo hi = v.
Proof.
  intros H. unfold minMaxValue.
  destruct (v <? lo) eqn:E1; [apply Z.ltb_lt in E1; lia |].
  destruct (v >? hi) eqn:E2; [| reflexivity].
  rewrite Z.gtb_ltb in E2. apply Z.ltb_lt in E2. lia.
Qed.

Lemma max_spec val1 val2 : max val1 val2 = Z.max val1 val2.
Proof.
  unfold max. rewrite Z.gtb_ltb.
  destruct (val2 <? val1) eqn:E; [apply Z.ltb_lt in E | apply Z.ltb_ge in E]; lia.
Qed.

(** ** The parameter store *)

Lemma par_store_same f v y : par (store f v y) f = v.
Proof. unfold store. simpl. destruct (decide (f = f)); congruence. Qed.

Lemma par_store_other f g v y : g <> f -> par (store f v y) g = par y g.
Proof. intros H. unfold store. simpl. destruct (decide (g = f)); congruence. Qed.

(** ** Channel rows *)

Section Rows.
Context (rows : list NoteRow).

Lemma row_insert_same i r : (i < length rows)%nat -> <[i := r]> rows !!! i = r.
Proof. intros H. apply list_lookup_total_insert_eq. exact H. Qed.

Lemma row_insert_other i j r : i <> j -> <[i := r]> rows !!! j = rows !!! j.
Proof. intros H. apply list_lookup_total_insert_ne. exact H. Qed.

(** A row outside the array reads as the all-zero row. *)
Lemma row_outside i : (length rows <= i)%nat -> rows !!! i = mkRow 0 0 0.
Proof. intros H. rewrite list_lookup_total_alt, lookup_ge_None_2; [reflexivity | exact H]. Qed.

Lemma row_sched_inside i : truthy (nr_sched (rows !!! i)) = true -> (i < length rows)%nat.
Proof.
  intros H. destruct (Nat.lt_ge_cases i (length rows)) as [Hlt | Hge]; [exact Hlt |].
  rewrite row_outside in H by exact Hge. discriminate H.
Qed.

Lemma row_on_inside i : truthy (nr_on (rows !!! i)) = true -> (i < length rows)%nat.
Proof.
  intros H. destruct (Nat.lt_ge_cases i (length rows)) as [Hlt | Hge]; [exact Hlt |].
  rewrite row_outside in H by exact Hge. discriminate H.
Qed.
End Rows.

(** ** Tick scheduler *)

Lemma chan_range i : 0 <= chan i <= 6.
Proof. do 6 (destruct i as [| i]; [vm_compute; split; discriminate |]). destruct i; vm_compute; split; discriminate. Qed.

Lemma chan_inj i j : (i < 6)%nat -> (j < 6)%nat -> chan i = chan j -> i = j.
Proof.
  intros Hi Hj.
  do 6 (destruct i as [| i]; [do 6 (destruct j as [| j]; [vm_compute; congruence |]); lia |]).
  lia.
Qed.

Lemma opOffset_range o : 0 <= opOffset o <= 12.
Proof. do 4 (destruct o as [| o]; [vm_compute; split; discriminate |]). destruct o; vm_compute; split; discriminate. Qed.

Lemma chanGrp_range i : 0 <= chanGrp i <= 1.
Proof. unfold chanGrp. destruct (Z.of_nat i >? 2); lia. Qed.

(** What one iteration does when the channel is due to be switched on. *)
Lemma tick_chan_on m i :
  due_on (ym m) i = true ->
  tick_chan m i =
    mkMachine
      (set_notesOn (<[i := mkRow (nr_note (row m i)) (nr_sched (row m i)) 1]> (notesOn (ym m))) (ym m))
      (glb m)
      (sink m ++ [level_write (ym m) i 0 (opLvl (ym m) i 0);
                  level_write (ym m) i 1 (opLvl (ym m) i 1);
                  level_write (ym m) i 2 (opLvl (ym m) i 2);
                  level_write (ym m) i 3 (opLvl (ym m) i 3);
                  pitch_high (ym m) i; pitch_low (ym m) i; key_on i]).
Proof.
  intros H. unfold tick_chan. unfold due_on in H. rewrite H.
  unfold tick_levels, sendreg, with_ym, level_write, pitch_high, pitch_low, key_on, row.
  cbn [fold_left seq ym glb sink].
  rewrite <- !app_assoc. cbn [app].
  pose proof (chan_range i) as Hc. pose proof (chanGrp_range i) as Hg.
  pose proof (opOffset_range 0). pose proof (opOffset_range 1).
  pose proof (opOffset_range 2). pose proof (opOffset_range 3).
  assert (0 <= Z.of_nat i mod 3 < 3) as Hm by (apply Z.mod_pos_bound; lia).
  rewrite !(u8_small (chanGrp i)) by lia.
  rewrite (u8_small 0), (u8_small 0x28) by lia.
  rewrite (u8_small (0xF0 + chan i)) by lia.
  rewrite (u8_small (0xA4 + Z.of_nat i mod 3)) by lia.
  rewrite (u8_small (0xA0 + Z.of_nat i mod 3)) by lia.
  rewrite !(u8_small (0x40 + Z.of_nat i mod 3 + opOffset _)) by lia.
  reflexivity.
Qed.

Lemma due_on_off y i : due_on y i = true -> due_off y i = false.
Proof.
  unfold due_on, due_off. destruct (truthy (nr_sched (notesOn y !!! i))); [reflexivity | discriminate].
Qed.

(** The channel is due to be switched off and the pedal is up. *)
Lemma tick_chan_off m i :
  due_off (ym m) i = true -> sustain (ym m) = false ->
  tick_chan m i =
    mkMachine (set_notesOn (<[i := mkRow 0 0 0]> (notesOn (ym m))) (ym m))
      (glb m) (sink m ++ [key_off i]).
Proof.
  intros H Hs. unfold tick_chan.
  assert (due_on (ym m) i = false) as Hon.
  { destruct (due_on (ym m) i) eqn:E; [| reflexivity].
    apply due_on_off in E. congruence. }
  unfold due_on in Hon. unfold due_off in H. rewrite Hon, H, Hs.
  unfold sendreg, with_ym, key_off. cbn [negb ym glb sink].
  pose proof (chan_range i). rewrite (u8_small 0), (u8_small 0x28), (u8_small (0x00 + chan i)) by lia.
  reflexivity.
Qed.

(** The channel is due to be switched off but the pedal is down. *)
Lemma tick_chan_held m i :
  due_on (ym m) i = false -> sustain (ym m) = true -> tick_chan m i = m.
Proof.
  intros Hon Hs. unfold tick_chan. unfold due_on in Hon. rewrite Hon, Hs.
  cbn [negb].
  match goal with |- (if ?c then _ else _) = _ => destruct c; reflexivity end.
Qed.

(** The channel is in neither of the two pending states. *)
Lemma tick_chan_rest m i :
  due_on (ym m) i = false -> due_off (ym m) i = false -> tick_chan m i = m.
Proof.
  intros Hon Hoff. unfold tick_chan. unfold due_on in Hon. unfold due_off in Hoff.
  rewrite Hon, Hoff. reflexivity.
Qed.

Lemma tick_chan_settled_id m i : settled m i -> tick_chan m i = m.
Proof.
  intros [Hon [Hoff | Hs]].
  - apply tick_chan_rest; assumption.
  - apply tick_chan_held; assumption.
Qed.

(** Everything but [notesOn] and the sink is left alone by an iteration. *)
Lemma tick_chan_frame m i :
  vel (ym (tick_chan m i)) = vel (ym m)
  /\ freq (ym (tick_chan m i)) = freq (ym m)
  /\ par (ym (tick_chan m i)) = par (ym m)
  /\ sustain (ym (tick_chan m i)) = sustain (ym m)
  /\ glb (tick_chan m i) = glb m
  /\ length (notesOn (ym (tick_chan m i))) = length (notesOn (ym m)).
Proof.
  destruct (due_on (ym m) i) eqn:Hon.
  - rewrite (tick_chan_on _ _ Hon). cbn. rewrite length_insert. repeat split; first [reflexivity | assumption].
  - destruct (due_off (ym m) i) eqn:Hoff; [destruct (sustain (ym m)) eqn:Hs |].
    + rewrite (tick_chan_held _ _ Hon Hs). repeat split; first [reflexivity | assumption].
    + rewrite (tick_chan_off _ _ Hoff Hs). cbn. rewrite length_insert. repeat split; first [reflexivity | assumption].
    + rewrite (tick_chan_rest _ _ Hon Hoff). repeat split; first [reflexivity | assumption].
Qed.

Lemma tick_chan_row_other m i j : i <> j -> row (tick_chan m i) j = row m j.
Proof.
  intros Hne. unfold row.
  destruct (due_on (ym m) i) eqn:Hon.
  - rewrite (tick_chan_on _ _ Hon). cbn. apply row_insert_other. exact Hne.
  - destruct (due_off (ym m) i) eqn:Hoff; [destruct (sustain (ym m)) eqn:Hs |].
    + rewrite (tick_chan_held _ _ Hon Hs). reflexivity.
    + rewrite (tick_chan_off _ _ Hoff Hs). cbn. apply row_insert_other. exact Hne.
    + rewrite (tick_chan_rest _ _ Hon Hoff). reflexivity.
Qed.

(** After its iteration a channel is settled. *)
Lemma tick_chan_settles m i : settled (tick_chan m i) i.
Proof.
  unfold settled.
  destruct (due_on (ym m) i) eqn:Hon.
  - pose proof Hon as Hin. unfold due_on in Hin. apply andb_true_iff in Hin as [Hs _].
    pose proof (row_sched_inside _ _ Hs) as Hlt.
    rewrite (tick_chan_on _ _ Hon). unfold due_on, due_off. cbn [ym notesOn set_notesOn].
    rewrite row_insert_same by exact Hlt. cbn. unfold row. rewrite Hs. split; [| left]; reflexivity.
  - destruct (due_off (ym m) i) eqn:Hoff; [destruct (sustain (ym m)) eqn:Hs |].
    + rewrite (tick_chan_held _ _ Hon Hs). split; [exact Hon | right; exact Hs].
    + pose proof Hoff as Hin. unfold due_off in Hin. apply andb_true_iff in Hin as [_ Ho].
      pose proof (row_on_inside _ _ Ho) as Hlt.
      rewrite (tick_chan_off _ _ Hoff Hs). unfold due_on, due_off. cbn [ym notesOn set_notesOn].
      rewrite row_insert_same by exact Hlt. cbn. split; [| left]; reflexivity.
    + rewrite (tick_chan_rest _ _ Hon Hoff). split; [exact Hon | left; exact Hoff].
Qed.

Lemma settled_ext m m' i :
  row m' i = row m i -> sustain (ym m') = sustain (ym m) -> settled m i -> settled m' i.
Proof.
  unfold settled, due_on, due_off, row. intros Hr Hs H. rewrite Hr, Hs. exact H.
Qed.

Lemma tick_chan_keeps_settled m i j : settled m j -> settled (tick_chan m i) j.
Proof.
  intros H. destruct (Nat.eq_dec i j) as [-> | Hne].
  - apply tick_chan_settles.
  - apply (settled_ext m); [apply tick_chan_row_other; exact Hne | apply tick_chan_frame | exact H].
Qed.

Lemma tick_loop_keeps_settled idx m j :
  settled m j -> settled (fold_left tick_chan idx m) j.
Proof.
  revert m. induction idx as [| i idx IH]; intros m H; cbn [fold_left]; [exact H |].
  apply IH, tick_chan_keeps_settled, H.
Qed.

Lemma tick_loop_settles idx m j :
  In j idx -> settled (fold_left tick_chan idx m) j.
Proof.
  revert m. induction idx as [| i idx IH]; intros m Hin; [destruct Hin |].
  cbn [fold_left]. destruct Hin as [-> | Hin].
  - apply tick_loop_keeps_settled, tick_chan_settles.
  - apply IH, Hin.
Qed.

Lemma tick_loop_settled_id idx m :
  (forall j, In j idx -> settled m j) -> fold_left tick_chan idx m = m.
Proof.
  induction idx as [| i idx IH]; intros H; cbn [fold_left]; [reflexivity |].
  rewrite tick_chan_settled_id by (apply H; left; reflexivity).
  apply IH. intros j Hj. apply H. right. exact Hj.
Qed.

(** C5: a tick that directly follows a tick changes nothing; in particular it
    adds no write to the register sink.  This holds from every state, with or
    without channels that the sustain flag keeps on. *)
Theorem tick_idempotent (m : Machine) :
  TIMER1_OVF_vect (TIMER1_OVF_vect m) = TIMER1_OVF_vect m
  /\ sink (TIMER1_OVF_vect (TIMER1_OVF_vect m)) = sink (TIMER1_OVF_vect m)
  /\ emitted TIMER1_OVF_vect (TIMER1_OVF_vect m) = [].
Proof.
  assert (TIMER1_OVF_vect (TIMER1_OVF_vect m) = TIMER1_OVF_vect m) as H.
  { unfold TIMER1_OVF_vect at 1. apply tick_loop_settled_id.
    intros j Hj. apply tick_loop_settles, Hj. }
  split; [exact H |]. split; [rewrite H; reflexivity |].
  unfold emitted. rewrite H. apply drop_all.
Qed.

(** *** The writes of the other channels *)

Lemma level_write_not_key y j o lvl i :
  (o < 4)%nat -> level_write y j o lvl <> key_off i /\ level_write y j o lvl <> key_on i.
Proof.
  intros Ho. unfold level_write, key_off, key_on.
  assert (0 <= Z.of_nat j mod 3 < 3) as Hm by (apply Z.mod_pos_bound; lia).
  pose proof (opOffset_range o).
  split; intros E; injection E as _ E _; lia.
Qed.

Lemma pitch_not_key y j i :
  pitch_high y j <> key_off i /\ pitch_high y j <> key_on i
  /\ pitch_low y j <> key_off i /\ pitch_low y j <> key_on i.
Proof.
  unfold pitch_high, pitch_low, key_off, key_on.
  assert (0 <= Z.of_nat j mod 3 < 3) as Hm by (apply Z.mod_pos_bound; lia).
  repeat split; intros E; injection E as _ E _; lia.
Qed.

Lemma key_on_not_off i j : key_on j <> key_off i.
Proof.
  unfold key_on, key_off. pose proof (chan_range i). pose proof (chan_range j).
  intros E. injection E as E. lia.
Qed.

Lemma key_off_inj i j : (i < 6)%nat -> (j < 6)%nat -> key_off j = key_off i -> j = i.
Proof. unfold key_off. intros Hi Hj E. injection E as E. apply chan_inj; assumption. Qed.

Lemma key_on_inj i j : (i < 6)%nat -> (j < 6)%nat -> key_on j = key_on i -> j = i.
Proof.
  unfold key_on. intros Hi Hj E. injection E as E. apply chan_inj; [assumption .. | lia].
Qed.

(** An iteration for channel [j] emits no key event of another channel. *)
Lemma tick_chan_sink_other m i j :
  (i < 6)%nat -> (j < 6)%nat -> i <> j ->
  exists out, sink (tick_chan m j) = sink m ++ out
              /\ ~ In (key_off i) out /\ ~ In (key_on i) out.
Proof.
  intros Hi Hj Hne.
  destruct (due_on (ym m) j) eqn:Hon.
  - rewrite (tick_chan_on _ _ Hon). eexists. split; [reflexivity |].
    pose proof (level_write_not_key (ym m) j 0 (opLvl (ym m) j 0) i ltac:(lia)) as [? ?].
    pose proof (level_write_not_key (ym m) j 1 (opLvl (ym m) j 1) i ltac:(lia)) as [? ?].
    pose proof (level_write_not_key (ym m) j 2 (opLvl (ym m) j 2) i ltac:(lia)) as [? ?].
    pose proof (level_write_not_key (ym m) j 3 (opLvl (ym m) j 3) i ltac:(lia)) as [? ?].
    pose proof (pitch_not_key (ym m) j i) as (? & ? & ? & ?).
    pose proof (key_on_not_off i j).
    assert (key_on j <> key_on i) by (intros E; apply key_on_inj in E; congruence).
    split; cbn [In]; intuition congruence.
  - destruct (due_off (ym m) j) eqn:Hoff; [destruct (sustain (ym m)) eqn:Hs |].
    + rewrite (tick_chan_held _ _ Hon Hs). exists []. rewrite app_nil_r. cbn [In]. tauto.
    + rewrite (tick_chan_off _ _ Hoff Hs). eexists. split; [reflexivity |].
      assert (key_off j <> key_off i) by (intros E; apply key_off_inj in E; congruence).
      pose proof (key_on_not_off j i).
      split; cbn [In]; intuition congruence.
    + rewrite (tick_chan_rest _ _ Hon Hoff). exists []. rewrite app_nil_r. cbn [In]. tauto.
Qed.

Lemma tick_loop_sink_other idx m i :
  (i < 6)%nat -> (forall j, In j idx -> (j < 6)%nat) -> ~ In i idx ->
  exists out, sink (fold_left tick_chan idx m) = sink m ++ out
              /\ ~ In (key_off i) out /\ ~ In (key_on i) out.
Proof.
  intros Hi. revert m. induction idx as [| j idx IH]; intros m Hlt Hni; cbn [fold_left].
  - exists []. rewrite app_nil_r. cbn [In]. tauto.
  - destruct (tick_chan_sink_other m i j) as (o1 & E1 & A1 & B1);
      [exact Hi | apply Hlt; left; reflexivity | intros ->; apply Hni; left; reflexivity |].
    destruct (IH (tick_chan m j)) as (o2 & E2 & A2 & B2);
      [intros k Hk; apply Hlt; right; exact Hk | intros Hk; apply Hni; right; exact Hk |].
    exists (o1 ++ o2). rewrite E2, E1, <- app_assoc. split; [reflexivity |].
    split; intros Hin; apply in_app_or in Hin; tauto.
Qed.

Lemma tick_loop_frame idx m :
  vel (ym (fold_left tick_chan idx m)) = vel (ym m)
  /\ freq (ym (fold_left tick_chan idx m)) = freq (ym m)
  /\ par (ym (fold_left tick_chan idx m)) = par (ym m)
  /\ sustain (ym (fold_left tick_chan idx m)) = sustain (ym m)
  /\ glb (fold_left tick_chan idx m) = glb m
  /\ length (notesOn (ym (fold_left tick_chan idx m))) = length (notesOn (ym m)).
Proof.
  revert m. induction idx as [| j idx IH]; intros m; cbn [fold_left].
  - repeat split; reflexivity.
  - destruct (IH (tick_chan m j)) as (A & B & C & D & E & F).
    destruct (tick_chan_frame m j) as (A' & B' & C' & D' & E' & F').
    repeat split; congruence.
Qed.

Lemma tick_loop_row_other idx m i :
  ~ In i idx -> row (fold_left tick_chan idx m) i = row m i.
Proof.
  revert m. induction idx as [| j idx IH]; intros m Hni; cbn [fold_left]; [reflexivity |].
  rewrite IH by (intros Hk; apply Hni; right; exact Hk).
  apply tick_chan_row_other. intros ->. apply Hni. left. reflexivity.
Qed.

(** The loop of the tick, split at channel [i]. *)
Lemma tick_split m i :
  (i < 6)%nat ->
  TIMER1_OVF_vect m =
    fold_left tick_chan (seq (S i) (5 - i))
      (tick_chan (fold_left tick_chan (seq 0 i) m) i).
Proof.
  intros Hi. unfold TIMER1_OVF_vect.
  replace 6%nat with (i + S (5 - i))%nat at 1 by lia.
  rewrite seq_app, fold_left_app. reflexivity.
Qed.

Lemma seq_lt a n j : In j (seq a n) -> (a <= j < a + n)%nat.
Proof. intros H. apply in_seq in H. exact H. Qed.

(** The writes for a channel depend on the state only through this data. *)
Lemma on_burst_ext y y' i :
  vel y' = vel y -> freq y' = freq y -> par y' = par y ->
  [level_write y' i 0 (opLvl y' i 0); level_write y' i 1 (opLvl y' i 1);
   level_write y' i 2 (opLvl y' i 2); level_write y' i 3 (opLvl y' i 3);
   pitch_high y' i; pitch_low y' i; key_on i]
  = [level_write y i 0 (opLvl y i 0); level_write y i 1 (opLvl y i 1);
     level_write y i 2 (opLvl y i 2); level_write y i 3 (opLvl y i 3);
     pitch_high y i; pitch_low y i; key_on i].
Proof.
  intros Hv Hf Hp.
  unfold level_write, pitch_high, pitch_low, opLvl, velSens, totalLvl.
  rewrite Hv, Hf, Hp. reflexivity.
Qed.

(** Below the documented bounds no intermediate result of [opLvl] wraps, and
    the byte that is sent is 127 minus the blend. *)
Lemma opLvl_blend y i o :
  0 <= velSens y <= 10 -> 0 <= vel y !!! i <= 127 -> 0 <= totalLvl y (Z.of_nat o) <= 127 ->
  opLvl y i o = blend y i o /\ 0 <= blend y i o <= 127
  /\ u8 (127 - opLvl y i o) = 127 - blend y i o.
Proof.
  intros Hs Hv Ht. unfold opLvl, blend.
  set (s := velSens y) in *. set (v := vel y !!! i) in *. set (t := totalLvl y (Z.of_nat o)) in *.
  assert (0 <= s * v <= 1270) by nia.
  assert (0 <= (10 - s) * t <= 1270) by nia.
  assert (0 <= s * v + (10 - s) * t <= 1270) by nia.
  rewrite (int_small (10 - s)) by lia.
  rewrite (int_small (s * v)), (int_small ((10 - s) * t)) by lia.
  rewrite (int_small (s * v + (10 - s) * t)) by lia.
  rewrite Z.quot_div_nonneg by lia.
  assert (0 <= (s * v + (10 - s) * t) / 10 <= 127) as Hb.
  { split; [apply Z.div_pos; lia |].
    apply Z.div_le_upper_bound; nia. }
  rewrite int_small by lia.
  split; [reflexivity |]. split; [exact Hb |]. apply u8_small. lia.
Qed.

(** C4: on a tick, a channel that is requested on and not yet sounding gets,
    in this order, the four operator level writes (127 minus [opLvl], to the
    level register of each operator), the pitch-high and pitch-low writes and
    the key-on write; its sounding flag is then set.  [before] and [after] are
    the writes of the channels visited earlier and later in the same tick.
    With the parameters inside their documented bounds, [opLvl] is the blend
    [(velSens * vel + (10 - velSens) * totalLvl) / 10] with no wrap-around. *)
Theorem tick_switches_on (m : Machine) (i : nat) :
  (i < 6)%nat -> due_on (ym m) i = true ->
  exists before after,
    sink (fold_left tick_chan (seq 0 i) m) = sink m ++ before
    /\ sink (TIMER1_OVF_vect m) =
         sink m ++ before
         ++ [level_write (ym m) i 0 (opLvl (ym m) i 0);
             level_write (ym m) i 1 (opLvl (ym m) i 1);
             level_write (ym m) i 2 (opLvl (ym m) i 2);
             level_write (ym m) i 3 (opLvl (ym m) i 3);
             pitch_high (ym m) i; pitch_low (ym m) i; key_on i]
         ++ after
    /\ ~ In (key_on i) before /\ ~ In (key_on i) after
    /\ row (TIMER1_OVF_vect m) i = mkRow (nr_note (row m i)) (nr_sched (row m i)) 1
    /\ forall o, (o < 4)%nat ->
         0 <= velSens (ym m) <= 10 -> 0 <= vel (ym m) !!! i <= 127 ->
         0 <= totalLvl (ym m) (Z.of_nat o) <= 127 ->
         opLvl (ym m) i o = blend (ym m) i o
         /\ level_write (ym m) i o (opLvl (ym m) i o)
            = (chanGrp i, 0x40 + Z.of_nat i mod 3 + opOffset o, 127 - blend (ym m) i o).
Proof.
  intros Hi Hon.
  pose proof Hon as Hin. unfold due_on in Hin. apply andb_true_iff in Hin as [Hsched _].
  pose proof (row_sched_inside _ _ Hsched) as Hlen.
  set (m1 := fold_left tick_chan (seq 0 i) m).
  assert (~ In i (seq 0 i)) as Hni1 by (intros H; apply seq_lt in H; lia).
  assert (~ In i (seq (S i) (5 - i))) as Hni2 by (intros H; apply seq_lt in H; lia).
  destruct (tick_loop_sink_other (seq 0 i) m i Hi) as (before & Eb & _ & Hb);
    [intros j Hj; apply seq_lt in Hj; lia | exact Hni1 |].
  destruct (tick_loop_frame (seq 0 i) m) as (Fv & Ff & Fp & _ & _ & Fl).
  fold m1 in Eb, Fv, Ff, Fp, Fl.
  assert (row m1 i = row m i) as Hrow by (apply tick_loop_row_other; exact Hni1).
  assert (due_on (ym m1) i = true) as Hon1.
  { unfold due_on. unfold row in Hrow. rewrite Hrow. exact Hon. }
  set (m2 := tick_chan m1 i).
  destruct (tick_loop_sink_other (seq (S i) (5 - i)) m2 i Hi) as (after & Ea & _ & Ha);
    [intros j Hj; apply seq_lt in Hj; lia | exact Hni2 |].
  exists before, after.
  split; [exact Eb |].
  split.
  { rewrite (tick_split m i Hi). fold m1. fold m2. rewrite Ea. unfold m2.
    rewrite (tick_chan_on _ _ Hon1). cbn [sink].
    rewrite (on_burst_ext (ym m) (ym m1) i Fv Ff Fp), Eb, <- !app_assoc. reflexivity. }
  split; [exact Hb |]. split; [exact Ha |].
  split.
  { rewrite (tick_split m i Hi). fold m1. fold m2.
    rewrite tick_loop_row_other by exact Hni2. unfold m2.
    rewrite (tick_chan_on _ _ Hon1). unfold row at 1. cbn [ym notesOn set_notesOn].
    rewrite row_insert_same by (rewrite Fl; exact Hlen). rewrite Hrow. reflexivity. }
  intros o Ho Hs Hv Ht.
  destruct (opLvl_blend (ym m) i o Hs Hv Ht) as (E1 & _ & E2).
  split; [exact E1 |]. unfold level_write. rewrite E2. reflexivity.
Qed.

Lemma tick_switches_on_witness :
  due_on (ym st_requested) 0 = true
  /\ row (TIMER1_OVF_vect st_requested) 0 = mkRow 60 1 1
  /\ level_write (ym st_requested) 0 3 (opLvl (ym st_requested) 0 3) = (0, 0x4C, 6).
Proof.
  destruct (tick_switches_on st_requested 0 ltac:(lia) eq_refl)
    as (before & after & _ & _ & _ & _ & Hrow & Hlvl).
  split; [reflexivity |]. split; [exact Hrow |].
  destruct (Hlvl 3%nat ltac:(lia)) as [_ E]; [vm_compute; split; discriminate .. |].
  rewrite E. reflexivity.
Defined.

(** ** Note off and the sustain pedal *)

(** The note-off loop stops at the first channel that plays the note. *)
Lemma note_off_loop_first n k N m i :
  (k <= i < k + n)%nat ->
  chan_plays (ym m) i N = true ->
  (forall j, (k <= j < i)%nat -> chan_plays (ym m) j N = false) ->
  note_off_loop (seq k n) N m =
    with_ym (fun y =>
      set_notesOn (<[i := mkRow (nr_note (notesOn y !!! i)) 0 (nr_on (notesOn y !!! i))]>
                     (notesOn y)) y) m.
Proof.
  revert k. induction n as [| n IH]; intros k Hr Hp Hb; [lia |].
  cbn [seq note_off_loop].
  destruct (Nat.eq_dec k i) as [-> | Hne].
  - rewrite Hp. reflexivity.
  - rewrite (Hb k) by lia. apply IH; [lia | exact Hp |].
    intros j Hj. apply Hb. lia.
Qed.

(** No channel plays the note: the note-off is ignored. *)
Lemma note_off_loop_none idx N m :
  (forall j, In j idx -> chan_plays (ym m) j N = false) -> note_off_loop idx N m = m.
Proof.
  induction idx as [| i idx IH]; intros H; cbn [note_off_loop]; [reflexivity |].
  rewrite (H i) by (left; reflexivity). apply IH. intros j Hj. apply H. right. exact Hj.
Qed.

Lemma chan_plays_true y i N :
  chan_plays y i N = true ->
  truthy (nr_sched (notesOn y !!! i)) = true
  /\ truthy (nr_on (notesOn y !!! i)) = true
  /\ nr_note (notesOn y !!! i) = N.
Proof.
  unfold chan_plays. rewrite !andb_true_iff, Z.eqb_eq. tauto.
Qed.

(** A tick while the pedal is down leaves a released channel as it is. *)
Lemma tick_held m i :
  (i < 6)%nat -> due_off (ym m) i = true -> sustain (ym m) = true ->
  row (TIMER1_OVF_vect m) i = row m i
  /\ sustain (ym (TIMER1_OVF_vect m)) = true
  /\ exists out, sink (TIMER1_OVF_vect m) = sink m ++ out /\ ~ In (key_off i) out.
Proof.
  intros Hi Hoff Hs.
  assert (~ In i (seq 0 i)) as Hni1 by (intros H; apply seq_lt in H; lia).
  assert (~ In i (seq (S i) (5 - i))) as Hni2 by (intros H; apply seq_lt in H; lia).
  set (m1 := fold_left tick_chan (seq 0 i) m).
  destruct (tick_loop_sink_other (seq 0 i) m i Hi) as (before & Eb & Hb & _);
    [intros j Hj; apply seq_lt in Hj; lia | exact Hni1 |].
  destruct (tick_loop_frame (seq 0 i) m) as (_ & _ & _ & Fs & _ & _).
  fold m1 in Eb, Fs.
  assert (row m1 i = row m i) as Hrow by (apply tick_loop_row_other; exact Hni1).
  assert (tick_chan m1 i = m1) as Hid.
  { apply tick_chan_held; [| congruence].
    destruct (due_on (ym m1) i) eqn:E; [| reflexivity].
    apply due_on_off in E. unfold due_off in E, Hoff. unfold row in Hrow.
    rewrite Hrow in E. congruence. }
  destruct (tick_loop_sink_other (seq (S i) (5 - i)) m1 i Hi) as (after & Ea & Ha & _);
    [intros j Hj; apply seq_lt in Hj; lia | exact Hni2 |].
  rewrite (tick_split m i Hi). fold m1. rewrite Hid.
  split; [rewrite tick_loop_row_other by exact Hni2; exact Hrow |].
  split.
  { destruct (tick_loop_frame (seq (S i) (5 - i)) m1) as (_ & _ & _ & Fs' & _ & _). congruence. }
  exists (before ++ after). rewrite Ea, Eb, <- app_assoc. split; [reflexivity |].
  intros Hin. apply in_app_or in Hin. tauto.
Qed.

(** A tick while the pedal is up switches a released channel off, once. *)
Lemma tick_releases m i :
  (i < 6)%nat -> due_off (ym m) i = true -> sustain (ym m) = false ->
  row (TIMER1_OVF_vect m) i = mkRow 0 0 0
  /\ exists before after,
       sink (TIMER1_OVF_vect m) = sink m ++ before ++ [key_off i] ++ after
       /\ ~ In (key_off i) before /\ ~ In (key_off i) after.
Proof.
  intros Hi Hoff Hs.
  pose proof Hoff as Hin. unfold due_off in Hin. apply andb_true_iff in Hin as [_ Hon].
  pose proof (row_on_inside _ _ Hon) as Hlen.
  assert (~ In i (seq 0 i)) as Hni1 by (intros H; apply seq_lt in H; lia).
  assert (~ In i (seq (S i) (5 - i))) as Hni2 by (intros H; apply seq_lt in H; lia).
  set (m1 := fold_left tick_chan (seq 0 i) m).
  destruct (tick_loop_sink_other (seq 0 i) m i Hi) as (before & Eb & Hb & _);
    [intros j Hj; apply seq_lt in Hj; lia | exact Hni1 |].
  destruct (tick_loop_frame (seq 0 i) m) as (_ & _ & _ & Fs & _ & Fl).
  fold m1 in Eb, Fs, Fl.
  assert (row m1 i = row m i) as Hrow by (apply tick_loop_row_other; exact Hni1).
  assert (due_off (ym m1) i = true) as Hoff1.
  { unfold due_off. unfold row in Hrow. rewrite Hrow. exact Hoff. }
  assert (sustain (ym m1) = false) as Hs1 by congruence.
  set (m2 := tick_chan m1 i).
  destruct (tick_loop_sink_other (seq (S i) (5 - i)) m2 i Hi) as (after & Ea & Ha & _);
    [intros j Hj; apply seq_lt in Hj; lia | exact Hni2 |].
  rewrite (tick_split m i Hi). fold m1. fold m2.
  split.
  - rewrite tick_loop_row_other by exact Hni2. unfold m2.
    rewrite (tick_chan_off _ _ Hoff1 Hs1). unfold row. cbn [ym notesOn set_notesOn].
    apply row_insert_same. rewrite Fl. exact Hlen.
  - exists before, after. split; [| split; assumption].
    rewrite Ea. unfold m2. rewrite (tick_chan_off _ _ Hoff1 Hs1). cbn [sink].
    rewrite Eb, <- !app_assoc. reflexivity.
Qed.

(** Any number of ticks while the pedal stays down. *)
Lemma ticks_held n m i :
  (i < 6)%nat -> due_off (ym m) i = true -> sustain (ym m) = true ->
  row (Nat.iter n TIMER1_OVF_vect m) i = row m i
  /\ sustain (ym (Nat.iter n TIMER1_OVF_vect m)) = true
  /\ exists out, sink (Nat.iter n TIMER1_OVF_vect m) = sink m ++ out /\ ~ In (key_off i) out.
Proof.
  intros Hi Hoff Hs. induction n as [| n (Hr & Hsn & out & Eo & Ho)].
  - split; [reflexivity |]. split; [exact Hs |]. exists []. rewrite app_nil_r. cbn [In]. tauto.
  - rewrite Nat.iter_succ. set (mn := Nat.iter n TIMER1_OVF_vect m) in *.
    assert (due_off (ym mn) i = true) as Hoffn.
    { unfold due_off. unfold row in Hr. rewrite Hr. exact Hoff. }
    destruct (tick_held mn i Hi Hoffn Hsn) as (Hr' & Hs' & out' & Eo' & Ho').
    split; [congruence |]. split; [exact Hs' |].
    exists (out ++ out'). rewrite Eo', Eo, <- app_assoc. split; [reflexivity |].
    intros Hin. apply in_app_or in Hin. tauto.
Qed.

(** C6: with the sustain flag set, a note-off for the note of a sounding
    channel only clears that channel's requested flag and writes nothing.
    However many ticks follow while the flag stays set, the channel keeps its
    note and its sounding flag and no key-off for it reaches the sink.  Once the
    flag is cleared, the next tick emits exactly one key-off for the channel and
    zeroes its note number and both flags.  [i] is the channel the note-off
    finds: the first one that plays the note. *)
Theorem sustain_defers_key_off (m : Machine) (i : nat) (N v : Z) :
  (i < 6)%nat ->
  sustain (ym m) = true ->
  chan_plays (ym m) i (u8 N) = true ->
  (forall j, (j < i)%nat -> chan_plays (ym m) j (u8 N) = false) ->
  let m1 := note N v false m in
  m1 = with_ym (fun y =>
         set_notesOn (<[i := mkRow (u8 N) 0 (nr_on (row m i))]> (notesOn y)) y) m
  /\ truthy (nr_on (row m i)) = true
  /\ (forall n,
        row (Nat.iter n TIMER1_OVF_vect m1) i = mkRow (u8 N) 0 (nr_on (row m i))
        /\ sustain (ym (Nat.iter n TIMER1_OVF_vect m1)) = true
        /\ exists out, sink (Nat.iter n TIMER1_OVF_vect m1) = sink m ++ out
                       /\ ~ In (key_off i) out)
  /\ (forall n,
        let m2 := with_ym (set_sustain false) (Nat.iter n TIMER1_OVF_vect m1) in
        row (TIMER1_OVF_vect m2) i = mkRow 0 0 0
        /\ exists before after,
             sink (TIMER1_OVF_vect m2) = sink m2 ++ before ++ [key_off i] ++ after
             /\ ~ In (key_off i) before /\ ~ In (key_off i) after).
Proof.
  intros Hi Hs Hp Hfirst m1.
  destruct (chan_plays_true _ _ _ Hp) as (Hsched & Hon & Hnote).
  pose proof (row_sched_inside _ _ Hsched) as Hlen.
  assert (m1 = with_ym (fun y =>
            set_notesOn (<[i := mkRow (u8 N) 0 (nr_on (row m i))]> (notesOn y)) y) m) as E1.
  { unfold m1, note.
    rewrite (note_off_loop_first 6 0 (u8 N) m i); [| lia | exact Hp | intros j Hj; apply Hfirst; lia].
    unfold with_ym, row. rewrite Hnote. reflexivity. }
  assert (row m1 i = mkRow (u8 N) 0 (nr_on (row m i))) as Hrow1.
  { rewrite E1. unfold row at 1. cbn [with_ym ym notesOn set_notesOn].
    apply row_insert_same. exact Hlen. }
  assert (due_off (ym m1) i = true) as Hoff1.
  { unfold due_off. unfold row in Hrow1. rewrite Hrow1. cbn [nr_sched nr_on].
    unfold row. rewrite Hon. reflexivity. }
  assert (sustain (ym m1) = true) as Hs1 by (rewrite E1; exact Hs).
  assert (sink m1 = sink m) as Hk1 by (rewrite E1; reflexivity).
  split; [exact E1 |]. split; [exact Hon |].
  split.
  - intros n. destruct (ticks_held n m1 i Hi Hoff1 Hs1) as (Hr & Hsn & out & Eo & Ho).
    split; [congruence |]. split; [exact Hsn |].
    exists out. rewrite Eo, Hk1. split; [reflexivity | exact Ho].
  - intros n m2. destruct (ticks_held n m1 i Hi Hoff1 Hs1) as (Hr & _ & _).
    apply tick_releases; [exact Hi | | reflexivity].
    unfold due_off, m2. cbn [with_ym ym set_sustain notesOn].
    unfold row in Hr, Hrow1. rewrite Hr, Hrow1. cbn [nr_sched nr_on].
    unfold row. rewrite Hon. reflexivity.
Qed.

Lemma sustain_defers_key_off_witness :
  sustain (ym st_pedal) = true
  /\ chan_plays (ym st_pedal) 0 (u8 60) = true
  /\ row (note 60 0 false st_pedal) 0 = mkRow 60 0 1
  /\ row (TIMER1_OVF_vect
            (with_ym (set_sustain false)
               (Nat.iter 3 TIMER1_OVF_vect (note 60 0 false st_pedal)))) 0 = mkRow 0 0 0.
Proof.
  assert (forall j, (j < 0)%nat -> chan_plays (ym st_pedal) j (u8 60) = false) as H0 by (intros j Hj; lia).
  destruct (sustain_defers_key_off st_pedal 0 60 0 ltac:(lia) eq_refl eq_refl H0)
    as (E1 & _ & _ & Hrel).
  split; [reflexivity |]. split; [reflexivity |].
  split; [rewrite E1; reflexivity |].
  exact (proj1 (Hrel 3%nat)).
Defined.

(** ** Note on *)

Lemma freq_insert_twice (l : list (Z * Z)) i hi lo :
  <[i := (fst (<[i := (hi, snd (l !!! i))]> l !!! i), lo)]> (<[i := (hi, snd (l !!! i))]> l)
  = <[i := (hi, lo)]> l.
Proof.
  destruct (Nat.lt_ge_cases i (length l)) as [Hlt | Hge].
  - rewrite list_lookup_total_insert_eq by exact Hlt. cbn [fst].
    apply list_insert_insert_eq.
  - rewrite !list_insert_ge by (rewrite ?length_insert; exact Hge). reflexivity.
Qed.

Lemma rows_insert_twice (l : list NoteRow) i N :
  <[i := mkRow (nr_note (<[i := mkRow N (nr_sched (l !!! i)) (nr_on (l !!! i))]> l !!! i)) 1
             (nr_on (<[i := mkRow N (nr_sched (l !!! i)) (nr_on (l !!! i))]> l !!! i))]>
    (<[i := mkRow N (nr_sched (l !!! i)) (nr_on (l !!! i))]> l)
  = <[i := mkRow N 1 (nr_on (l !!! i))]> l.
Proof.
  destruct (Nat.lt_ge_cases i (length l)) as [Hlt | Hge].
  - rewrite list_lookup_total_insert_eq by exact Hlt. cbn [nr_note nr_on].
    apply list_insert_insert_eq.
  - rewrite !list_insert_ge by (rewrite ?length_insert; exact Hge). reflexivity.
Qed.

(** The first branch of the note-on loop, as one update of each array. *)
Lemma note_schedule_eq i N v m :
  note_schedule i N v m =
    with_ym (fun y =>
      set_notesOn (<[i := mkRow N 1 (nr_on (notesOn y !!! i))]> (notesOn y))
        (set_freq (<[i := pitch_bytes N]> (freq y))
           (set_vel (<[i := max v (minVel y)]> (vel y)) y))) m.
Proof.
  unfold note_schedule, with_ym, pitch_bytes. cbn [ym glb sink set_vel set_freq set_notesOn
    op group current value freq notesOn vel sustain par].
  rewrite freq_insert_twice, rows_insert_twice. reflexivity.
Qed.

Lemma chan_free_not_plays y i N : chan_free y i = true -> chan_plays y i N = false.
Proof.
  unfold chan_free, chan_plays. intros H. apply andb_true_iff in H as [H _].
  apply negb_true_iff in H. rewrite H. reflexivity.
Qed.

Lemma chan_free_true y i :
  chan_free y i = true ->
  nr_sched (notesOn y !!! i) = 0 /\ nr_on (notesOn y !!! i) = 0.
Proof.
  unfold chan_free. rewrite andb_true_iff, !negb_true_iff, !truthy_false. tauto.
Qed.

(** The note-on loop stops at the first channel that is free or plays the
    note. *)
Lemma note_on_loop_free n k N v m i :
  (k <= i < k + n)%nat ->
  chan_free (ym m) i = true ->
  (forall j, (k <= j < i)%nat -> chan_free (ym m) j = false /\ chan_plays (ym m) j N = false) ->
  note_on_loop (seq k n) N v m = note_schedule i N v m.
Proof.
  revert k. induction n as [| n IH]; intros k Hr Hf Hb; [lia |].
  cbn [seq note_on_loop].
  destruct (Nat.eq_dec k i) as [-> | Hne].
  - rewrite Hf. reflexivity.
  - destruct (Hb k ltac:(lia)) as [E1 E2]. rewrite E1, E2.
    apply IH; [lia | exact Hf |]. intros j Hj. apply Hb. lia.
Qed.

Lemma note_on_loop_plays n k N v m i :
  (k <= i < k + n)%nat ->
  chan_plays (ym m) i N = true ->
  (forall j, (k <= j < i)%nat -> chan_free (ym m) j = false /\ chan_plays (ym m) j N = false) ->
  note_on_loop (seq k n) N v m = note_retrigger i m.
Proof.
  revert k. induction n as [| n IH]; intros k Hr Hp Hb; [lia |].
  cbn [seq note_on_loop].
  destruct (Nat.eq_dec k i) as [-> | Hne].
  - destruct (chan_free (ym m) i) eqn:Hf.
    + apply (chan_free_not_plays _ _ N) in Hf. congruence.
    + rewrite Hp. reflexivity.
  - destruct (Hb k ltac:(lia)) as [E1 E2]. rewrite E1, E2.
    apply IH; [lia | exact Hp |]. intros j Hj. apply Hb. lia.
Qed.

(** Every channel is busy with another note: the note-on is dropped. *)
Lemma note_on_loop_none idx N v m :
  (forall j, In j idx -> chan_free (ym m) j = false /\ chan_plays (ym m) j N = false) ->
  note_on_loop idx N v m = m.
Proof.
  induction idx as [| i idx IH]; intros H; cbn [note_on_loop]; [reflexivity |].
  destruct (H i ltac:(left; reflexivity)) as [E1 E2]. rewrite E1, E2.
  apply IH. intros j Hj. apply H. right. exact Hj.
Qed.

Lemma note_retrigger_eq i m :
  note_retrigger i m =
    mkMachine (ym m) (glb m)
      (sink m ++ [key_off i; pitch_high (ym m) i; pitch_low (ym m) i; key_on i]).
Proof.
  unfold note_retrigger, sendreg, key_off, key_on, pitch_high, pitch_low.
  cbn [ym glb sink]. rewrite <- !app_assoc. cbn [app].
  pose proof (chan_range i). pose proof (chanGrp_range i).
  assert (0 <= Z.of_nat i mod 3 < 3) as Hm by (apply Z.mod_pos_bound; lia).
  rewrite !(u8_small (chanGrp i)) by lia.
  rewrite !(u8_small 0), !(u8_small 0x28) by lia.
  rewrite (u8_small (0x00 + chan i)), (u8_small (0xF0 + chan i)) by lia.
  rewrite (u8_small (0xA4 + Z.of_nat i mod 3)), (u8_small (0xA0 + Z.of_nat i mod 3)) by lia.
  reflexivity.
Qed.

(** C1 (as amended): when the first channel in scan order that is either free
    or fully sounding with note [N] is a fully sounding one, a note-on for [N]
    allocates nothing.  It sends key-off, pitch-high, pitch-low and key-on for
    that channel at once and leaves every channel row, and so both flags of that
    channel, as they were. *)
Theorem note_on_retriggers (m : Machine) (i : nat) (N v2 : Z) :
  (i < 6)%nat ->
  chan_plays (ym m) i (u8 N) = true ->
  (forall j, (j < i)%nat ->
     chan_free (ym m) j = false /\ chan_plays (ym m) j (u8 N) = false) ->
  ym (note N v2 true m) = ym m
  /\ glb (note N v2 true m) = glb m
  /\ sink (note N v2 true m) =
       sink m ++ [key_off i; pitch_high (ym m) i; pitch_low (ym m) i; key_on i]
  /\ truthy (nr_sched (row (note N v2 true m) i)) = true
  /\ truthy (nr_on (row (note N v2 true m) i)) = true.
Proof.
  intros Hi Hp Hb. unfold note.
  rewrite (note_on_loop_plays 6 0 (u8 N) (u8 v2) m i);
    [| lia | exact Hp | intros j Hj; apply Hb; lia].
  rewrite note_retrigger_eq. unfold row. cbn [ym glb sink].
  destruct (chan_plays_true _ _ _ Hp) as (Hs & Ho & _).
  repeat split; assumption.
Qed.

Lemma note_on_retriggers_witness :
  chan_plays (ym st_sounding) 0 (u8 60) = true
  /\ ym (note 60 90 true st_sounding) = ym st_sounding
  /\ emitted (note 60 90 true) st_sounding = [(0, 0x28, 0); (0, 0xA4, 33); (0, 0xA0, 55); (0, 0x28, 0xF0)].
Proof.
  assert (forall j, (j < 0)%nat ->
            chan_free (ym st_sounding) j = false /\ chan_plays (ym st_sounding) j (u8 60) = false)
    as H0 by (intros j Hj; lia).
  destruct (note_on_retriggers st_sounding 0 60 90 ltac:(lia) eq_refl H0) as (Hy & _ & Hk & _).
  split; [reflexivity |]. split; [exact Hy |].
  unfold emitted. rewrite Hk. rewrite drop_app_length. reflexivity.
Defined.

(** C1 as stated fails: in [st_gap] channel 1 is fully sounding with note 62
    and channel 0 is free.  A note-on for 62 takes channel 0 as a new channel
    and sends no off/on burst. *)
Lemma note_on_retriggers_counterexample :
  chan_plays (ym st_gap) 1 (u8 62) = true
  /\ chan_free (ym st_gap) 0 = true
  /\ row (note 62 90 true st_gap) 0 = mkRow 62 1 0
  /\ notesOn (ym (note 62 90 true st_gap)) <> notesOn (ym st_gap)
  /\ emitted (note 62 90 true) st_gap = [].
Proof.
  split; [reflexivity |]. split; [reflexivity |]. split; [reflexivity |].
  split; [| vm_compute; reflexivity].
  intros E. apply (f_equal (fun l => nr_sched (l !!! 0%nat))) in E. vm_compute in E. discriminate E.
Qed.

(** C3 (as amended): in a state whose lowest-indexed free channel [i] is not
    preceded by a channel that is fully sounding with note [N], a note-on
    [N, v] turns exactly that channel to requested-on: its row becomes
    [(N, 1, 0)], so sounding stays false; its held velocity becomes
    [max(v, minVel)]; its pitch bytes are those of [N]; every other row,
    velocity and pitch entry is unchanged and nothing is written to the sink. *)
Theorem note_on_allocates (m : Machine) (i : nat) (N v : Z) :
  wf (ym m) ->
  (i < 6)%nat ->
  chan_free (ym m) i = true ->
  (forall j, (j < i)%nat -> chan_free (ym m) j = false) ->
  (forall j, (j < i)%nat -> chan_plays (ym m) j (u8 N) = false) ->
  notesOn (ym (note N v true m)) = <[i := mkRow (u8 N) 1 0]> (notesOn (ym m))
  /\ row (note N v true m) i = mkRow (u8 N) 1 0
  /\ (forall j, j <> i -> row (note N v true m) j = row m j)
  /\ vel (ym (note N v true m)) = <[i := Z.max (u8 v) (minVel (ym m))]> (vel (ym m))
  /\ vel (ym (note N v true m)) !!! i = Z.max (u8 v) (minVel (ym m))
  /\ freq (ym (note N v true m)) = <[i := pitch_bytes (u8 N)]> (freq (ym m))
  /\ par (ym (note N v true m)) = par (ym m)
  /\ sustain (ym (note N v true m)) = sustain (ym m)
  /\ sink (note N v true m) = sink m.
Proof.
  intros (Hlf & Hln & Hlv) Hi Hf Hlow Hnp. unfold note.
  rewrite (note_on_loop_free 6 0 (u8 N) (u8 v) m i);
    [| lia | exact Hf | intros j Hj; split; [apply Hlow | apply Hnp]; lia].
  rewrite note_schedule_eq. unfold row.
  cbn [with_ym ym glb sink set_vel set_freq set_notesOn freq notesOn vel sustain par].
  destruct (chan_free_true _ _ Hf) as [_ Hon]. rewrite Hon, max_spec.
  split; [reflexivity |].
  split; [apply row_insert_same; lia |].
  split; [intros j Hj; apply row_insert_other; congruence |].
  split; [reflexivity |].
  split; [apply list_lookup_total_insert_eq; lia |].
  repeat split; reflexivity.
Qed.

Lemma note_on_allocates_witness :
  wf (ym st_sounding)
  /\ chan_free (ym st_sounding) 1 = true
  /\ row (note 64 20 true st_sounding) 1 = mkRow 64 1 0
  /\ vel (ym (note 64 20 true st_sounding)) !!! 1%nat = 50.
Proof.
  assert (wf (ym st_sounding)) as Hwf by (repeat split; reflexivity).
  assert (forall j, (j < 1)%nat -> chan_free (ym st_sounding) j = false) as H1
    by (intros j Hj; replace j with 0%nat by lia; reflexivity).
  assert (forall j, (j < 1)%nat -> chan_plays (ym st_sounding) j (u8 64) = false) as H2
    by (intros j Hj; replace j with 0%nat by lia; reflexivity).
  destruct (note_on_allocates st_sounding 1 64 20 Hwf ltac:(lia) eq_refl H1 H2)
    as (_ & Hrow & _ & _ & Hvel & _).
  split; [exact Hwf |]. split; [reflexivity |]. split; [exact Hrow |].
  rewrite Hvel. reflexivity.
Defined.

(** C3 as stated fails: [st_sounding] has free channels, the lowest being
    channel 1, but channel 0 already sounds note 60.  A note-on for 60
    retriggers channel 0; channel 1 is not requested and no row changes. *)
Lemma note_on_allocates_counterexample :
  chan_free (ym st_sounding) 0 = false
  /\ chan_free (ym st_sounding) 1 = true
  /\ row (note 60 100 true st_sounding) 1 = mkRow 0 0 0
  /\ notesOn (ym (note 60 100 true st_sounding)) = notesOn (ym st_sounding).
Proof. repeat split; reflexivity. Qed.

(** *** Pitch translation *)

Lemma u8_range z : 0 <= u8 z < 256.
Proof. unfold u8. apply Z.mod_pos_bound. lia. Qed.

Lemma note_oct_wraps n :
  0 <= n < 256 ->
  note_oct n = (if n <? 12 then 7 else if n >=? 108 then 0 else n / 12 - 1).
Proof.
  intros Hn. unfold note_oct.
  rewrite Z.quot_div_nonneg by lia.
  assert (0 <= n / 12 <= 22) as Hq.
  { split; [apply Z.div_pos; lia | apply Z.div_le_upper_bound; lia]. }
  rewrite int_small by lia.
  destruct (n <? 12) eqn:E1.
  - apply Z.ltb_lt in E1. rewrite Z.div_small by lia. reflexivity.
  - apply Z.ltb_ge in E1.
    assert (1 <= n / 12) by (apply Z.div_le_lower_bound; lia).
    destruct (n >=? 108) eqn:E2.
    + rewrite Z.geb_leb in E2. apply Z.leb_le in E2.
      assert (9 <= n / 12) by (apply Z.div_le_lower_bound; lia).
      apply minMaxValue_above; lia.
    + rewrite Z.geb_leb in E2. apply Z.leb_gt in E2.
      assert (n / 12 < 9) by (apply Z.div_lt_upper_bound; lia).
      apply minMaxValue_inside. lia.
Qed.

Lemma note_noteOut_entry n :
  0 <= n -> notes !! Z.to_nat (n mod 12) = Some (note_noteOut n).
Proof.
  intros Hn. unfold note_noteOut. rewrite Z.rem_mod_nonneg by lia.
  assert (0 <= n mod 12 < 12) as Hm by (apply Z.mod_pos_bound; lia).
  assert (Z.to_nat (n mod 12) < length notes)%nat as Hlt by (cbn; lia).
  apply lookup_lt_is_Some_2 in Hlt as [x Hx].
  rewrite (list_lookup_total_correct _ _ _ Hx). exact Hx.
Qed.

(** C2 (as amended): for a note number [n] (the [uint8_t] argument), the
    octave block is [n/12 - 1] passed through the wrap-around of
    [minMaxValue] with bounds 0 and 7: notes 0 to 11 get block 7, notes from 108
    up get block 0, the notes in between get [n/12 - 1].  The frequency number
    is entry [n mod 12] of the 12-entry table, and these two values make the
    pitch bytes that the allocator stores for the channel. *)
Theorem note_block_wraps (N v : Z) (i : nat) (m : Machine) :
  note_oct (u8 N) =
    (if u8 N <? 12 then 7 else if u8 N >=? 108 then 0 else u8 N / 12 - 1)
  /\ 0 <= note_oct (u8 N) <= 7
  /\ length notes = 12%nat
  /\ notes !! Z.to_nat (u8 N mod 12) = Some (note_noteOut (u8 N))
  /\ freq (ym (note_schedule i (u8 N) v m)) =
       <[i := (u8 (Z.lor (Z.shiftl (note_oct (u8 N)) 3)
                         (Z.shiftr (Z.land (note_noteOut (u8 N)) 0x0700) 8)),
               u8 (Z.land (note_noteOut (u8 N)) 0x00FF))]> (freq (ym m)).
Proof.
  pose proof (u8_range N) as Hn.
  split; [apply note_oct_wraps; exact Hn |].
  split; [unfold note_oct; apply minMaxValue_range; lia |].
  split; [reflexivity |].
  split; [apply note_noteOut_entry; lia |].
  rewrite note_schedule_eq. reflexivity.
Qed.

(** C2 as stated fails: note 5 lies below octave 0 and gets block 7, not the
    clamped block 0; note 120 lies above octave 7 and gets block 0, not 7.  The
    stored pitch-high byte of note 5 carries block 7. *)
Lemma note_block_wraps_counterexample :
  note_oct (u8 5) = 7 /\ block_clamped (u8 5) = 0
  /\ note_oct (u8 120) = 0 /\ block_clamped (u8 120) = 7
  /\ note_oct (u8 5) <> block_clamped (u8 5)
  /\ fst (freq (ym (note 5 100 true power_on)) !!! 0%nat) = Z.lor (Z.shiftl 7 3) 1.
Proof.
  repeat split; try reflexivity. vm_compute. discriminate.
Qed.

(** ** Register encoder and preset loader: frame *)

Lemma sendreg_ym flag reg data m : ym (sendreg flag reg data m) = ym m.
Proof. reflexivity. Qed.

Lemma writeToYM_ym op val1 val2 baseReg s1 s2 multiOp multiChannel options sub1 sub2 m :
  ym (writeToYM op val1 val2 baseReg s1 s2 multiOp multiChannel options sub1 sub2 m) = ym m.
Proof. unfold writeToYM. destruct multiChannel; reflexivity. Qed.

Lemma writeToYM_glb op val1 val2 baseReg s1 s2 multiOp multiChannel options sub1 sub2 m :
  glb (writeToYM op val1 val2 baseReg s1 s2 multiOp multiChannel options sub1 sub2 m) = glb m.
Proof. unfold writeToYM. destruct multiChannel; reflexivity. Qed.

Lemma write_lfo_ym op lfo m : ym (write_lfo op lfo m) = ym m.
Proof. unfold write_lfo. destruct (lfo =? 0); apply writeToYM_ym. Qed.

Lemma write_ssgeg_ym op eg m : ym (write_ssgeg op eg m) = ym m.
Proof. unfold write_ssgeg. destruct (eg =? 0); apply writeToYM_ym. Qed.

(** The stores of one iteration of the operator loop. *)
Lemma changeAllParams_op_ym mult det tl atk dcy sl sr rel rs eg am m i :
  ym (changeAllParams_op mult det tl atk dcy sl sr rel rs eg am m i) =
    store (F_amOn (Z.of_nat i)) (am !!! i)
      (store (F_ssgeg (Z.of_nat i)) (eg !!! i)
        (store (F_rateScl (Z.of_nat i)) (rs !!! i)
          (store (F_susRate (Z.of_nat i)) (sr !!! i)
            (store (F_susLvl (Z.of_nat i)) (sl !!! i)
              (store (F_decay (Z.of_nat i)) (dcy !!! i)
                (store (F_attack (Z.of_nat i)) (atk !!! i)
                  (store (F_totalLvl (Z.of_nat i)) (tl !!! i)
                    (store (F_detune (Z.of_nat i)) (det !!! i)
                      (store (F_multiple (Z.of_nat i)) (mult !!! i) (ym m)))))))))).
Proof.
  unfold changeAllParams_op. rewrite write_ssgeg_ym, !writeToYM_ym. reflexivity.
Qed.

(** No iteration of the operator loop writes a release rate, the preset index
    or a group-0 parameter. *)
Lemma changeAllParams_op_keeps mult det tl atk dcy sl sr rel rs eg am m i f :
  (match f with
   | F_release _ | F_patchNum | F_velSens | F_minVel | F_polyphony => True
   | _ => False
   end) ->
  par (ym (changeAllParams_op mult det tl atk dcy sl sr rel rs eg am m i)) f = par (ym m) f.
Proof.
  intros Hf. rewrite changeAllParams_op_ym.
  destruct f; try destruct Hf; rewrite !par_store_other by discriminate; reflexivity.
Qed.

Lemma changeAllParams_keeps alg fb lfo vib trem mult det tl atk dcy sl sr rel rs eg am m f :
  (match f with
   | F_release _ | F_patchNum | F_velSens | F_minVel | F_polyphony => True
   | _ => False
   end) ->
  par (ym (changeAllParams alg fb lfo vib trem mult det tl atk dcy sl sr rel rs eg am m)) f
  = par (ym m) f.
Proof.
  intros Hf. unfold changeAllParams. cbn [fold_left seq].
  rewrite !(changeAllParams_op_keeps _ _ _ _ _ _ _ _ _ _ _ _ _ f Hf).
  rewrite writeToYM_ym, write_lfo_ym, writeToYM_ym.
  cbn [with_ym ym].
  destruct f; try destruct Hf; rewrite !par_store_other by discriminate; reflexivity.
Qed.

Lemma preset_keeps m f :
  (match f with
   | F_release _ | F_patchNum | F_velSens | F_minVel | F_polyphony => True
   | _ => False
   end) ->
  par (ym (preset m)) f = par (ym m) f.
Proof.
  intros Hf. unfold preset.
  destruct (_ && _); [| reflexivity].
  destruct (patches !! _); [| reflexivity].
  apply changeAllParams_keeps, Hf.
Qed.

(** ** Value editing *)

(** Decide the comparisons of [changeValue] one after the other. *)
Ltac resolve_chain :=
  repeat match goal with
  | |- context [decide (?a = ?b)] =>
      destruct (decide (a = b)) as [E | E];
      [first [discriminate E | clear E] | first [exfalso; apply E; reflexivity | clear E]];
      cbv iota
  end.

Lemma restrict_par f lo hi m :
  par (ym (restrict f lo hi m)) f = minMaxValue (par (ym m) f) lo hi.
Proof. unfold restrict. cbn [with_ym ym]. apply par_store_same. Qed.

(** [changeValue] applies to the parameter under the cursor the wrap-around
    with exactly the documented bounds. *)
Lemma changeValue_restricts m f :
  editing (ym m) f ->
  par (ym (changeValue m)) f =
    minMaxValue (par (ym m) f) (fst (documented_bounds f)) (snd (documented_bounds f)).
Proof.
  intros [Hv Hop].
  destruct f; try (specialize (Hop o eq_refl); subst o);
    unfold changeValue; rewrite Hv; cbv zeta; resolve_chain;
    rewrite ?writeToYM_ym, ?write_lfo_ym, ?write_ssgeg_ym, ?(preset_keeps _ F_patchNum I);
    apply restrict_par.
Qed.

Lemma documented_bounds_ordered f :
  fst (documented_bounds f) <= snd (documented_bounds f).
Proof. destruct f; cbn; lia. Qed.

Lemma documented_bounds_small f :
  -3 <= fst (documented_bounds f) /\ snd (documented_bounds f) <= 127.
Proof. destruct f; cbn; lia. Qed.

(** The detent itself: the parameter under the cursor moves by one. *)
Lemma edit_value_eq clockwise m f :
  editing (ym m) f ->
  par (ym (edit_value clockwise m)) f =
    minMaxValue (int (par (ym m) f + (if clockwise then 1 else -1)))
      (fst (documented_bounds f)) (snd (documented_bounds f)).
Proof.
  intros [Hv Hop]. unfold edit_value.
  rewrite changeValue_restricts.
  - cbn [with_ym ym]. rewrite Hv. rewrite par_store_same. reflexivity.
  - split; [exact Hv | exact Hop].
Qed.

(** C7: for every bounded parameter [f] under the cursor, with the bounds the
    data model documents, a clockwise detent on the maximum gives the minimum, a
    counterclockwise detent on the minimum gives the maximum, and after a detent
    in either direction, from whatever value, the parameter lies within its
    bounds. *)
Theorem edit_value_wraps (m : Machine) (f : Field) (clockwise : bool) :
  editing (ym m) f ->
  (par (ym m) f = snd (documented_bounds f) ->
     par (ym (edit_value true m)) f = fst (documented_bounds f))
  /\ (par (ym m) f = fst (documented_bounds f) ->
        par (ym (edit_value false m)) f = snd (documented_bounds f))
  /\ fst (documented_bounds f) <= par (ym (edit_value clockwise m)) f
     <= snd (documented_bounds f).
Proof.
  intros He.
  pose proof (documented_bounds_ordered f) as Hord.
  pose proof (documented_bounds_small f) as [Hlo Hhi].
  split; [| split].
  - intros Hmax. rewrite (edit_value_eq true m f He), Hmax.
    rewrite int_small by lia. apply minMaxValue_above; lia.
  - intros Hmin. rewrite (edit_value_eq false m f He), Hmin.
    rewrite int_small by lia. apply minMaxValue_below. lia.
  - rewrite (edit_value_eq clockwise m f He). apply minMaxValue_range. exact Hord.
Qed.

Lemma edit_value_wraps_witness :
  editing (ym st_last_preset) F_patchNum
  /\ par (ym st_last_preset) F_patchNum = 20
  /\ par (ym (edit_value true st_last_preset)) F_patchNum = 0.
Proof.
  assert (editing (ym st_last_preset) F_patchNum) as He.
  { split; [reflexivity | intros o H; discriminate H]. }
  split; [exact He |]. split; [reflexivity |].
  exact (proj1 (edit_value_wraps st_last_preset F_patchNum true He) eq_refl).
Defined.

(** C8: evaluation at the failing input.  Five detents after power-on the
    preset index is 20; one more detent makes it 21, which [changeValue] wraps
    to 0 before it calls [preset].  Patch 0 is then loaded: the algorithm, the
    multiples and the sustain levels of the store are those of the patch, and
    register 0x80 receives the release rate of the patch (15 - 1 in the low
    nibble).  The release rates of the store are not overwritten: they are still
    0 while the patch has 1 for every operator. *)
Theorem preset_wrap_skips_release :
  patchNum (ym st_last_preset) = 20
  /\ value (ym st_last_preset) = F_patchNum
  /\ patchNum (ym (edit_value true st_last_preset)) = 0
  /\ algorithm (ym (edit_value true st_last_preset)) = 7
  /\ map (multiple (ym (edit_value true st_last_preset))) [0; 1; 2; 3] = [10; 8; 4; 2]
  /\ map (susLvl (ym (edit_value true st_last_preset))) [0; 1; 2; 3] = [0; 0; 0; 0]
  /\ p_rel <$> patches !! 0%nat = Some [1; 1; 1; 1]
  /\ map (release (ym (edit_value true st_last_preset))) [0; 1; 2; 3] = [0; 0; 0; 0]
  /\ In (0, 0x80, 0xFE) (emitted (edit_value true) st_last_preset).
Proof.
  split; [vm_compute; reflexivity |]. split; [vm_compute; reflexivity |].
  split; [vm_compute; reflexivity |]. split; [vm_compute; reflexivity |].
  split; [vm_compute; reflexivity |]. split; [vm_compute; reflexivity |].
  split; [vm_compute; reflexivity |]. split; [vm_compute; reflexivity |].
  vm_compute. tauto.
Qed.

(** The defect behind it, in general: no preset load writes [ym.release]. *)
Lemma preset_keeps_release m o : release (ym (preset m)) o = release (ym m) o.
Proof. unfold release. apply preset_keeps. exact I. Qed.

(** ** MIDI router *)

Lemma dispatch3_controller m :
  midi_status m = 0xB0 -> dispatch3 m = controller (midi_data1 m) (midi_data2 m) m.
Proof. intros H. unfold dispatch3. rewrite H. reflexivity. Qed.

Lemma USART_RX_vect_controller byte m :
  midi_three (midi_store (u8 byte) m) = true ->
  midi_status (midi_store (u8 byte) m) = 0xB0 ->
  USART_RX_vect byte m =
    controller (midi_data1 (midi_store (u8 byte) m)) (midi_data2 (midi_store (u8 byte) m))
      (midi_store (u8 byte) m).
Proof.
  intros H3 Hst. unfold USART_RX_vect. cbv zeta. rewrite H3. apply dispatch3_controller, Hst.
Qed.

Lemma midi_store_frame data m :
  ym (midi_store data m) = ym m /\ sink (midi_store data m) = sink m.
Proof.
  unfold midi_store. destruct (data <? 0xF8); [| split; reflexivity].
  destruct (Z.land data 0xF0 >=? 0x80); split; reflexivity.
Qed.

(** The two controllers that the handler knows. *)
Lemma controller_mod_wheel d m :
  ym (controller 1 d m) = ym m
  /\ glb (controller 1 d m) = glb m
  /\ sink (controller 1 d m)
     = sink m ++ [(0, 0x22, if d =? 0
                            then if lfoFreq (ym m) =? 0 then 0
                                 else u8 (0x08 + lfoFreq (ym m) - 1)
                            else u8 (0x08 + d ÷ 18))].
Proof.
  unfold controller. cbn [Z.eqb Pos.eqb].
  destruct (d =? 0); [destruct (lfoFreq (ym m) =? 0) |];
    unfold sendreg; cbn [ym glb sink]; repeat split; reflexivity.
Qed.

Lemma controller_sustain d m :
  controller 64 d m = mkMachine (set_sustain (d =? 0) (ym m)) (glb m) (sink m).
Proof. unfold controller. cbn [Z.eqb Pos.eqb]. destruct (d =? 0); reflexivity. Qed.

Lemma mod_wheel_value d : 0 < d < 128 -> u8 (0x08 + d ÷ 18) = 8 + d / 18 /\ 8 <= 8 + d / 18 <= 15.
Proof.
  intros Hd. rewrite Z.quot_div_nonneg by lia.
  assert (0 <= d / 18 < 8) as Hq
    by (split; [apply Z.div_pos; lia | apply Z.div_lt_upper_bound; lia]).
  split; [apply u8_small; lia | lia].
Qed.

(** ** Reassembly of a controller message *)

(** A property of bytes that holds for each of the 256 values. *)
Lemma byte_forall (P : Z -> bool) :
  forallb P (map Z.of_nat (seq 0 256)) = true ->
  forall b, 0 <= b < 256 -> P b = true.
Proof.
  intros H b Hb. rewrite forallb_forall in H. apply H.
  apply in_map_iff. exists (Z.to_nat b). split; [lia |].
  apply in_seq. lia.
Qed.

Lemma controller_status ch : 0 <= ch < 16 -> Z.land (0xB0 + ch) 0xF0 = 0xB0.
Proof.
  intros H.
  pose proof (byte_forall (fun b => implb (b <? 16) (Z.land (0xB0 + b) 0xF0 =? 0xB0))
                ltac:(vm_compute; reflexivity) ch ltac:(lia)) as E.
  cbv beta in E. replace (ch <? 16) with true in E by (symmetry; apply Z.ltb_lt; lia).
  apply Z.eqb_eq in E. exact E.
Qed.

Lemma data_byte_no_status c : 0 <= c < 0x80 -> (Z.land c 0xF0 >=? 0x80) = false.
Proof.
  intros H.
  pose proof (byte_forall (fun b => implb (b <? 0x80) (negb (Z.land b 0xF0 >=? 0x80)))
                ltac:(vm_compute; reflexivity) c ltac:(lia)) as E.
  cbv beta in E. replace (c <? 0x80) with true in E by (symmetry; apply Z.ltb_lt; lia).
  apply negb_true_iff in E. exact E.
Qed.

(** The first part of the handler, for a byte below 0xF8. *)
Lemma midi_store_eq data m :
  0 <= data < 0xF8 -> 0 <= midiIndex (glb m) <= 127 ->
  midi_store data m =
    mkMachine (ym m)
      (mkGlobalVars
         (<[Z.to_nat (midiIndex (glb m)) := data]> (midiBuf (glb m)))
         (if midiIndex (glb m) <? 127 then midiIndex (glb m) + 1 else 0)
         (if Z.land data 0xF0 >=? 0x80 then midiIndex (glb m) else msgStart (glb m)))
      (sink m).
Proof.
  intros Hd Hk. unfold midi_store.
  replace (data <? 0xF8) with true by (symmetry; apply Z.ltb_lt; lia).
  assert (minMaxValue (int (midiIndex (glb m) + 1)) 0 127
          = if midiIndex (glb m) <? 127 then midiIndex (glb m) + 1 else 0) as Hi.
  { rewrite int_small by lia. destruct (midiIndex (glb m) <? 127) eqn:E.
    - apply Z.ltb_lt in E. apply minMaxValue_inside. lia.
    - apply Z.ltb_ge in E. apply minMaxValue_above; lia. }
  destruct (Z.land data 0xF0 >=? 0x80); unfold with_glb;
    cbn [ym glb sink set_midiBuf set_msgStart set_midiIndex midiBuf midiIndex msgStart];
    rewrite Hi, ?u8_small by lia; reflexivity.
Qed.

(** Decide the integer tests of the ring arithmetic. *)
Ltac decide_tests :=
  rewrite ?int_small by lia;
  repeat match goal with
  | |- context [?a =? ?b] =>
      first [ replace (a =? b) with false by (symmetry; apply Z.eqb_neq; lia)
            | replace (a =? b) with true by (symmetry; apply Z.eqb_eq; lia) ]
  | |- context [?a <? ?b] =>
      first [ replace (a <? b) with false by (symmetry; apply Z.ltb_ge; lia)
            | replace (a <? b) with true by (symmetry; apply Z.ltb_lt; lia) ]
  end;
  cbn [andb orb negb];
  rewrite ?andb_false_r, ?orb_false_r.

(** A controller message that starts at ring index 0 to 124: the status byte
    and the controller number change nothing but the buffer, and the data byte
    completes a three-byte message with these three bytes. *)
Lemma controller_message_framed (m : Machine) (ch c d : Z) :
  length (midiBuf (glb m)) = 128%nat ->
  0 <= midiIndex (glb m) <= 124 ->
  0 <= ch < 16 -> 0 <= c < 0x80 -> 0 <= d < 0x80 ->
  ym (feed [0xB0 + ch; c] m) = ym m
  /\ sink (feed [0xB0 + ch; c] m) = sink m
  /\ midi_three (midi_store (u8 d) (feed [0xB0 + ch; c] m)) = true
  /\ midi_status (midi_store (u8 d) (feed [0xB0 + ch; c] m)) = 0xB0
  /\ midi_data1 (midi_store (u8 d) (feed [0xB0 + ch; c] m)) = c
  /\ midi_data2 (midi_store (u8 d) (feed [0xB0 + ch; c] m)) = d.
Proof.
  intros Hlen Hk Hch Hc Hd.
  set (k := midiIndex (glb m)) in *.
  pose proof (controller_status ch Hch) as Hst.
  assert ((Z.land (0xB0 + ch) 0xF0 >=? 0x80) = true) as Hst' by (rewrite Hst; reflexivity).
  pose proof (data_byte_no_status c Hc) as Hc'.
  pose proof (data_byte_no_status d Hd) as Hd'.
  (* the status byte *)
  set (m1 := mkMachine (ym m)
               (mkGlobalVars (<[Z.to_nat k := 0xB0 + ch]> (midiBuf (glb m))) (k + 1) k) (sink m)).
  assert (USART_RX_vect (0xB0 + ch) m = m1) as E1.
  { unfold USART_RX_vect. cbv zeta. rewrite (u8_small (0xB0 + ch)) by lia.
    rewrite midi_store_eq by (fold k; lia). fold k. rewrite Hst'.
    replace (k <? 127) with true by (symmetry; apply Z.ltb_lt; lia). fold m1.
    assert (midi_three m1 = false) as H3.
    { unfold midi_three, midi_case1, midi_case2, m1. cbn [glb midiIndex msgStart].
      replace (k + 1 - k) with 1 by lia. decide_tests. reflexivity. }
    assert (midi_two m1 = false) as H2.
    { unfold midi_two, midi_case1, midi_case2, m1. cbn [glb midiIndex msgStart].
      replace (k + 1 - k) with 1 by lia. decide_tests. reflexivity. }
    rewrite H3, H2. reflexivity. }
  (* the controller number *)
  set (buf2 := <[Z.to_nat (k + 1) := c]> (<[Z.to_nat k := 0xB0 + ch]> (midiBuf (glb m)))).
  set (m2 := mkMachine (ym m) (mkGlobalVars buf2 (k + 2) k) (sink m)).
  assert (USART_RX_vect c m1 = m2) as E2.
  { unfold USART_RX_vect. cbv zeta. rewrite (u8_small c) by lia.
    rewrite midi_store_eq by (unfold m1; cbn [glb midiIndex]; lia).
    unfold m1. cbn [ym glb sink midiBuf midiIndex msgStart]. rewrite Hc'.
    replace (k + 1 <? 127) with true by (symmetry; apply Z.ltb_lt; lia).
    replace (k + 1 + 1) with (k + 2) by lia. fold buf2. fold m2.
    assert (midi_three m2 = false) as H3.
    { unfold midi_three, midi_case1, midi_case2, m2. cbn [glb midiIndex msgStart].
      replace (k + 2 - k) with 2 by lia. decide_tests. reflexivity. }
    assert (midi_status m2 = 0xB0) as Hs2.
    { unfold midi_status, buf, m2, buf2. cbn [glb midiBuf msgStart].
      rewrite list_lookup_total_insert_ne by lia.
      rewrite list_lookup_total_insert_eq by lia. exact Hst. }
    rewrite H3. unfold dispatch2. rewrite Hs2. cbv iota.
    destruct (midi_two m2); reflexivity. }
  (* the data byte *)
  assert (feed [0xB0 + ch; c] m = m2) as E by (unfold feed; cbn [fold_left]; rewrite E1; exact E2).
  rewrite E. rewrite (u8_small d) by lia.
  rewrite midi_store_eq by (unfold m2; cbn [glb midiIndex]; lia).
  unfold m2. cbn [ym glb sink midiBuf midiIndex msgStart]. rewrite Hd'.
  replace (k + 2 <? 127) with true by (symmetry; apply Z.ltb_lt; lia).
  split; [reflexivity |]. split; [reflexivity |].
  unfold midi_three, midi_status, midi_data1, midi_data2, midi_case1, midi_case2, buf, buf2.
  cbn [glb midiBuf midiIndex msgStart].
  replace (k + 2 + 1 - k) with 3 by lia. decide_tests.
  split; [reflexivity |].
  split.
  { rewrite !list_lookup_total_insert_ne by lia.
    rewrite list_lookup_total_insert_eq by lia. exact Hst. }
  split.
  { rewrite list_lookup_total_insert_ne by lia.
    rewrite list_lookup_total_insert_eq by (rewrite length_insert; lia). reflexivity. }
  rewrite list_lookup_total_insert_eq by (rewrite !length_insert; lia). reflexivity.
Qed.

Lemma feed_three a b c m : feed [a; b; c] m = USART_RX_vect c (feed [a; b] m).
Proof. reflexivity. Qed.

(** A whole mod-wheel message on any MIDI channel, from the wire to the sink. *)
Lemma mod_wheel_message (m : Machine) (ch d : Z) :
  length (midiBuf (glb m)) = 128%nat ->
  0 <= midiIndex (glb m) <= 124 ->
  0 <= ch < 16 -> 0 < d < 0x80 ->
  ym (feed [0xB0 + ch; 1; d] m) = ym m
  /\ sink (feed [0xB0 + ch; 1; d] m) = sink m ++ [(0, 0x22, 8 + d / 18)].
Proof.
  intros Hlen Hk Hch Hd.
  destruct (controller_message_framed m ch 1 d Hlen Hk Hch ltac:(lia) ltac:(lia))
    as (Hy & Hs & H3 & Hst & Hd1 & Hd2).
  rewrite feed_three, (USART_RX_vect_controller _ _ H3 Hst), Hd1, Hd2.
  destruct (midi_store_frame (u8 d) (feed [0xB0 + ch; 1] m)) as [Hy' Hs'].
  unfold controller. cbn [Z.eqb Pos.eqb].
  replace (d =? 0) with false by (symmetry; apply Z.eqb_neq; lia).
  unfold sendreg. cbn [ym sink]. rewrite Hy', Hs', Hy, Hs.
  split; [reflexivity |].
  rewrite Z.quot_div_nonneg by lia.
  assert (0 <= d / 18 < 8) by (split; [apply Z.div_pos; lia | apply Z.div_lt_upper_bound; lia]).
  rewrite (u8_small (0x08 + d / 18)) by lia. reflexivity.
Qed.

(** A whole sustain-pedal message on any MIDI channel. *)
Lemma sustain_message (m : Machine) (ch d : Z) :
  length (midiBuf (glb m)) = 128%nat ->
  0 <= midiIndex (glb m) <= 124 ->
  0 <= ch < 16 -> 0 <= d < 0x80 ->
  ym (feed [0xB0 + ch; 64; d] m) = set_sustain (d =? 0) (ym m)
  /\ sink (feed [0xB0 + ch; 64; d] m) = sink m.
Proof.
  intros Hlen Hk Hch Hd.
  destruct (controller_message_framed m ch 64 d Hlen Hk Hch ltac:(lia) Hd)
    as (Hy & Hs & H3 & Hst & Hd1 & Hd2).
  rewrite feed_three, (USART_RX_vect_controller _ _ H3 Hst), Hd1, Hd2.
  destruct (midi_store_frame (u8 d) (feed [0xB0 + ch; 64] m)) as [Hy' Hs'].
  unfold controller. cbn [Z.eqb Pos.eqb].
  destruct (d =? 0); unfold with_ym; cbn [ym sink]; rewrite Hy', Hs', Hy, Hs;
    split; reflexivity.
Qed.

(** The limit of the reassembly: a three-byte message whose status byte goes
    to ring index 125 ends at index 127, [midiIndex] wraps to 0 and none of the
    tests for a complete message holds.  The message has no effect. *)
Lemma controller_message_at_ring_125 :
  midiIndex (glb st_ring_125) = 125
  /\ sink (feed [0xB0; 1; 100] st_ring_125) = sink st_ring_125
  /\ sustain (ym (feed [0xB0; 64; 0] st_ring_125)) = false.
Proof.
  split; [vm_compute; reflexivity |]. split; vm_compute; reflexivity.
Qed.

(** ** The cursor *)

(** After a change of group the cursor is on a parameter of the current
    operator. *)
Lemma changeGroup_editing m :
  editing (ym (changeGroup m)) (value (ym (changeGroup m))).
Proof.
  pose proof (minMaxValue_range (group (ym m)) 0 3 ltac:(lia)) as Hg.
  unfold changeGroup, with_ym. cbn [ym group current value op set_group set_current].
  assert (minMaxValue (group (ym m)) 0 3 = 0 \/ minMaxValue (group (ym m)) 0 3 = 1
          \/ minMaxValue (group (ym m)) 0 3 = 2 \/ minMaxValue (group (ym m)) 0 3 = 3)
    as [E | [E | [E | E]]] by lia;
    rewrite E; cbn; (split; [reflexivity |]); intros o Ho; inversion Ho; reflexivity.
Qed.

(** After a move of the cursor within the group, or a change of operator, the
    cursor is on a parameter of the current operator. *)
Lemma changeCurrent_editing m :
  0 <= group (ym m) <= 3 ->
  editing (ym (changeCurrent m)) (value (ym (changeCurrent m))).
Proof.
  intros Hg.
  pose proof (minMaxValue_range (op (ym m)) 0 3 ltac:(lia)) as Ho.
  unfold changeCurrent, with_ym. cbv zeta.
  cbn [ym group current value op set_op set_current].
  rewrite (u8_small (minMaxValue (op (ym m)) 0 3)) by lia.
  set (o := minMaxValue (op (ym m)) 0 3) in *.
  assert (group (ym m) = 0 \/ group (ym m) = 1 \/ group (ym m) = 2 \/ group (ym m) = 3)
    as [E | [E | [E | E]]] by lia; rewrite E; cbn [Z.eqb Pos.eqb].
  - pose proof (minMaxValue_range (current (ym m)) 0 3 ltac:(lia)) as Hc.
    set (c := minMaxValue (current (ym m)) 0 3) in *.
    assert (c = 0 \/ c = 1 \/ c = 2 \/ c = 3) as [Ec | [Ec | [Ec | Ec]]] by lia;
      rewrite Ec; (split; [reflexivity |]); intros o' Ho'; inversion Ho'; reflexivity.
  - pose proof (minMaxValue_range (current (ym m)) 0 4 ltac:(lia)) as Hc.
    set (c := minMaxValue (current (ym m)) 0 4) in *.
    assert (c = 0 \/ c = 1 \/ c = 2 \/ c = 3 \/ c = 4) as [Ec | [Ec | [Ec | [Ec | Ec]]]] by lia;
      rewrite Ec; (split; [reflexivity |]); intros o' Ho'; inversion Ho'; reflexivity.
  - pose proof (minMaxValue_range (current (ym m)) 0 6 ltac:(lia)) as Hc.
    set (c := minMaxValue (current (ym m)) 0 6) in *.
    assert (c = 0 \/ c = 1 \/ c = 2 \/ c = 3 \/ c = 4 \/ c = 5 \/ c = 6)
      as [Ec | [Ec | [Ec | [Ec | [Ec | [Ec | Ec]]]]]] by lia;
      rewrite Ec; (split; [reflexivity |]); intros o' Ho'; inversion Ho'; reflexivity.
  - pose proof (minMaxValue_range (current (ym m)) 0 3 ltac:(lia)) as Hc.
    set (c := minMaxValue (current (ym m)) 0 3) in *.
    assert (c = 0 \/ c = 1 \/ c = 2 \/ c = 3) as [Ec | [Ec | [Ec | Ec]]] by lia;
      rewrite Ec; (split; [reflexivity |]); intros o' Ho'; inversion Ho'; reflexivity.
Qed.

Lemma changeAllParams_nav alg fb lfo vib trem mult det tl atk dcy sl sr rel rs eg am m :
  op (ym (changeAllParams alg fb lfo vib trem mult det tl atk dcy sl sr rel rs eg am m))
  = op (ym m)
  /\ value (ym (changeAllParams alg fb lfo vib trem mult det tl atk dcy sl sr rel rs eg am m))
     = value (ym m).
Proof.
  unfold changeAllParams. cbn [fold_left seq].
  rewrite !changeAllParams_op_ym, writeToYM_ym, write_lfo_ym, writeToYM_ym.
  split; reflexivity.
Qed.

Lemma preset_nav m :
  op (ym (preset m)) = op (ym m) /\ value (ym (preset m)) = value (ym m).
Proof.
  unfold preset. destruct (_ && _); [| split; reflexivity].
  destruct (patches !! _); [| split; reflexivity].
  apply changeAllParams_nav.
Qed.

(** [changeValue] moves neither the cursor nor the current operator. *)
Lemma changeValue_nav m :
  op (ym (changeValue m)) = op (ym m) /\ value (ym (changeValue m)) = value (ym m).
Proof.
  unfold changeValue. cbv zeta.
  repeat match goal with
  | |- context [decide (?a = ?b)] => destruct (decide (a = b)) as [? | ?]; cbv iota
  end;
  try (destruct (preset_nav (restrict F_patchNum 0 MAX_PRESET m)) as [-> ->]);
  rewrite ?writeToYM_ym, ?write_lfo_ym, ?write_ssgeg_ym; split; reflexivity.
Qed.

(** A detent keeps the cursor where it is. *)
Lemma edit_value_editing clockwise m f :
  editing (ym m) f -> editing (ym (edit_value clockwise m)) f.
Proof.
  intros [Hv Hop]. unfold edit_value, editing.
  destruct (changeValue_nav
              (with_ym (fun y => store (value y)
                 (int (par y (value y) + (if clockwise then 1 else -1))) y) m)) as [-> ->].
  split; [exact Hv | exact Hop].
Qed.

(** * Further properties of the voice allocator and the tick *)

(** X1: a note-on that finds every channel busy with another note is dropped:
    the machine, sink included, is what it was (no voice is stolen). *)
Theorem note_on_dropped_when_full (m : Machine) (N v : Z) :
  (forall j, (j < 6)%nat ->
     chan_free (ym m) j = false /\ chan_plays (ym m) j (u8 N) = false) ->
  note N v true m = m.
Proof.
  intros H. unfold note. apply note_on_loop_none.
  intros j Hj. apply H. apply seq_lt in Hj. lia.
Qed.

Lemma note_on_dropped_when_full_witness :
  note 71 100 true st_full = st_full.
Proof.
  apply note_on_dropped_when_full.
  intros j Hj.
  do 6 (destruct j as [| j]; [split; vm_compute; reflexivity |]). lia.
Defined.

(** A tick in which only channel [i] can be pending is the iteration for
    channel [i]. *)
Lemma tick_only m i :
  (i < 6)%nat ->
  (forall j, (j < 6)%nat -> j <> i -> settled m j) ->
  TIMER1_OVF_vect m = tick_chan m i.
Proof.
  intros Hi Hs. rewrite (tick_split m i Hi).
  rewrite (tick_loop_settled_id (seq 0 i) m)
    by (intros j Hj; apply seq_lt in Hj; apply Hs; lia).
  apply tick_loop_settled_id. intros j Hj. apply seq_lt in Hj.
  apply (settled_ext m); [apply tick_chan_row_other; lia | apply tick_chan_frame |].
  apply Hs; lia.
Qed.

(** A machine on which the tick has nothing to do is a fixed point of any
    number of ticks. *)
Lemma ticks_settled_id n m :
  (forall j, (j < 6)%nat -> settled m j) -> Nat.iter n TIMER1_OVF_vect m = m.
Proof.
  intros H. induction n as [| n IH]; [reflexivity |].
  rewrite Nat.iter_succ, IH. unfold TIMER1_OVF_vect. apply tick_loop_settled_id.
  intros j Hj. apply seq_lt in Hj. apply H. lia.
Qed.

Lemma tick_settles_all m j : (j < 6)%nat -> settled (TIMER1_OVF_vect m) j.
Proof.
  intros Hj. unfold TIMER1_OVF_vect. apply tick_loop_settles. apply in_seq. lia.
Qed.

(** X2: a note-off is ignored unless some channel is requested on and
    sounding with that note.  So a note-off that arrives after its note-on but
    before the next tick is lost: the note-on stands, the channel starts to
    sound at the tick and no later tick switches it off. *)
Theorem note_off_before_tick_lost (m : Machine) (i : nat) (N v v' : Z) (n : nat) :
  wf (ym m) ->
  (i < 6)%nat ->
  chan_free (ym m) i = true ->
  (forall j, (j < i)%nat -> chan_free (ym m) j = false) ->
  (forall j, (j < 6)%nat -> chan_plays (ym m) j (u8 N) = false) ->
  note N v' false (note N v true m) = note N v true m
  /\ row (Nat.iter (S n) TIMER1_OVF_vect (note N v' false (note N v true m))) i
     = mkRow (u8 N) 1 1.
Proof.
  intros (Hlf & Hln & Hlv) Hi Hf Hlow Hnp.
  assert (note N v true m = note_schedule i (u8 N) (u8 v) m) as Eon.
  { unfold note. apply note_on_loop_free; [lia | exact Hf |].
    intros j Hj. split; [apply Hlow | apply Hnp]; lia. }
  destruct (chan_free_true _ _ Hf) as [_ Hon0].
  assert (notesOn (ym (note N v true m)) = <[i := mkRow (u8 N) 1 0]> (notesOn (ym m))) as Erows.
  { rewrite Eon, note_schedule_eq. cbn [with_ym ym notesOn set_notesOn]. rewrite Hon0. reflexivity. }
  assert (note N v' false (note N v true m) = note N v true m) as Eoff.
  { unfold note at 1. apply note_off_loop_none. intros j Hj. apply seq_lt in Hj.
    unfold chan_plays. rewrite Erows.
    destruct (Nat.eq_dec j i) as [-> | Hne].
    - rewrite row_insert_same by lia. reflexivity.
    - rewrite row_insert_other by congruence. apply Hnp. lia. }
  split; [exact Eoff |].
  rewrite Eoff, Nat.iter_succ_r.
  set (m1 := note N v true m) in *.
  rewrite ticks_settled_id by (intros j Hj; apply tick_settles_all; exact Hj).
  assert (due_on (ym m1) i = true) as Hdue.
  { unfold due_on. rewrite Erows, row_insert_same by lia. reflexivity. }
  assert (~ In i (seq 0 i)) as Hni1 by (intros H; apply seq_lt in H; lia).
  assert (~ In i (seq (S i) (5 - i))) as Hni2 by (intros H; apply seq_lt in H; lia).
  rewrite (tick_split m1 i Hi), tick_loop_row_other by exact Hni2.
  set (m0 := fold_left tick_chan (seq 0 i) m1).
  assert (row m0 i = row m1 i) as Hrow by (apply tick_loop_row_other; exact Hni1).
  destruct (tick_loop_frame (seq 0 i) m1) as (_ & _ & _ & _ & _ & Fl). fold m0 in Fl.
  assert (due_on (ym m0) i = true) as Hdue0.
  { unfold due_on. unfold row in Hrow. rewrite Hrow. exact Hdue. }
  rewrite (tick_chan_on _ _ Hdue0). unfold row at 1. cbn [ym notesOn set_notesOn].
  rewrite row_insert_same by (rewrite Fl, Erows, length_insert; lia).
  rewrite Hrow. unfold row. rewrite Erows, row_insert_same by lia. reflexivity.
Qed.

Lemma note_off_before_tick_lost_witness :
  note 60 0 false (note 60 100 true power_on) = note 60 100 true power_on
  /\ row (Nat.iter 3 TIMER1_OVF_vect (note 60 0 false (note 60 100 true power_on))) 0
     = mkRow 60 1 1.
Proof.
  assert (wf (ym power_on)) as Hwf by (split; [| split]; vm_compute; reflexivity).
  assert (forall j, (j < 0)%nat -> chan_free (ym power_on) j = false) as H0 by (intros j Hj; lia).
  assert (forall j, (j < 6)%nat -> chan_plays (ym power_on) j (u8 60) = false) as H1.
  { intros j Hj. do 6 (destruct j as [| j]; [vm_compute; reflexivity |]). lia. }
  exact (note_off_before_tick_lost power_on 0 60 100 0 2 Hwf ltac:(lia)
           ltac:(vm_compute; reflexivity) H0 H1).
Defined.

Lemma tick_frame m :
  vel (ym (TIMER1_OVF_vect m)) = vel (ym m)
  /\ freq (ym (TIMER1_OVF_vect m)) = freq (ym m)
  /\ par (ym (TIMER1_OVF_vect m)) = par (ym m)
  /\ sustain (ym (TIMER1_OVF_vect m)) = sustain (ym m)
  /\ glb (TIMER1_OVF_vect m) = glb m
  /\ length (notesOn (ym (TIMER1_OVF_vect m))) = length (notesOn (ym m)).
Proof. exact (tick_loop_frame (seq 0 6) m). Qed.

(** X3: with the pedal up, after a tick the two flags of every channel agree:
    what is requested on sounds and what is not requested is off. *)
Theorem tick_reconciles_flags (m : Machine) (i : nat) :
  (i < 6)%nat -> sustain (ym m) = false ->
  truthy (nr_sched (row (TIMER1_OVF_vect m) i))
  = truthy (nr_on (row (TIMER1_OVF_vect m) i)).
Proof.
  intros Hi Hs.
  destruct (tick_settles_all m i Hi) as [Hon Hoff].
  destruct (tick_frame m) as (_ & _ & _ & Fs & _ & _).
  destruct Hoff as [Hoff | Hs']; [| congruence].
  revert Hon Hoff. unfold due_on, due_off, row.
  generalize (notesOn (ym (TIMER1_OVF_vect m)) !!! i). intros r.
  destruct (truthy (nr_sched r)), (truthy (nr_on r)); intros; try reflexivity; discriminate.
Qed.

Lemma tick_reconciles_flags_witness :
  sustain (ym st_requested) = false
  /\ truthy (nr_sched (row st_requested 0)) = true
  /\ truthy (nr_on (row st_requested 0)) = false
  /\ truthy (nr_sched (row (TIMER1_OVF_vect st_requested) 0))
     = truthy (nr_on (row (TIMER1_OVF_vect st_requested) 0)).
Proof.
  split; [reflexivity |]. split; [reflexivity |]. split; [reflexivity |].
  exact (tick_reconciles_flags st_requested 0 ltac:(lia) eq_refl).
Defined.

Lemma settled_free m j : chan_free (ym m) j = true -> settled m j.
Proof.
  intros H. destruct (chan_free_true _ _ H) as [Hs Ho].
  unfold settled, due_on, due_off. rewrite Hs, Ho. split; [| left]; reflexivity.
Qed.

(** X4: a note cycle is a round trip on the channel rows.  From a state in
    which the other channels are settled and channel [i], the lowest free one,
    has an all-zero row, the sequence note-on, tick, note-off, tick (pedal up)
    gives back the rows it started from.  The sink receives the seven writes of
    the switch-on followed by one key-off, and nothing else. *)
Theorem note_cycle_round_trip (m : Machine) (i : nat) (N v v' : Z) :
  wf (ym m) ->
  (i < 6)%nat ->
  sustain (ym m) = false ->
  row m i = mkRow 0 0 0 ->
  (forall j, (j < i)%nat -> chan_free (ym m) j = false) ->
  (forall j, (j < 6)%nat -> chan_plays (ym m) j (u8 N) = false) ->
  (forall j, (j < 6)%nat -> j <> i -> settled m j) ->
  notesOn (ym (TIMER1_OVF_vect (note N v' false (TIMER1_OVF_vect (note N v true m)))))
  = notesOn (ym m)
  /\ sink (TIMER1_OVF_vect (note N v' false (TIMER1_OVF_vect (note N v true m))))
     = sink m
       ++ [level_write (ym (note N v true m)) i 0 (opLvl (ym (note N v true m)) i 0);
           level_write (ym (note N v true m)) i 1 (opLvl (ym (note N v true m)) i 1);
           level_write (ym (note N v true m)) i 2 (opLvl (ym (note N v true m)) i 2);
           level_write (ym (note N v true m)) i 3 (opLvl (ym (note N v true m)) i 3);
           pitch_high (ym (note N v true m)) i; pitch_low (ym (note N v true m)) i;
           key_on i; key_off i].
Proof.
  intros (Hlf & Hln & Hlv) Hi Hsus Hrow Hlow Hnp Hset.
  assert (chan_free (ym m) i = true) as Hf.
  { unfold chan_free. unfold row in Hrow. rewrite Hrow. reflexivity. }
  (* note on *)
  assert (note N v true m = note_schedule i (u8 N) (u8 v) m) as Eon.
  { unfold note. apply note_on_loop_free; [lia | exact Hf |].
    intros j Hj. split; [apply Hlow | apply Hnp]; lia. }
  set (m1 := note N v true m) in *.
  assert (notesOn (ym m1) = <[i := mkRow (u8 N) 1 0]> (notesOn (ym m))) as R1.
  { rewrite Eon, note_schedule_eq. cbn [with_ym ym notesOn set_notesOn].
    unfold row in Hrow. rewrite Hrow. reflexivity. }
  assert (sustain (ym m1) = false /\ sink m1 = sink m) as [S1 K1].
  { rewrite Eon, note_schedule_eq. split; [exact Hsus | reflexivity]. }
  assert (forall j, (j < 6)%nat -> j <> i -> row m1 j = row m j) as O1.
  { intros j Hj Hne. unfold row. rewrite R1. apply row_insert_other. congruence. }
  (* first tick *)
  set (burst := [level_write (ym m1) i 0 (opLvl (ym m1) i 0);
                 level_write (ym m1) i 1 (opLvl (ym m1) i 1);
                 level_write (ym m1) i 2 (opLvl (ym m1) i 2);
                 level_write (ym m1) i 3 (opLvl (ym m1) i 3);
                 pitch_high (ym m1) i; pitch_low (ym m1) i; key_on i]).
  set (m2 := mkMachine (set_notesOn (<[i := mkRow (u8 N) 1 1]> (notesOn (ym m))) (ym m1))
               (glb m1) (sink m ++ burst)).
  assert (TIMER1_OVF_vect m1 = m2) as T1.
  { assert (due_on (ym m1) i = true) as D1.
    { unfold due_on. rewrite R1, row_insert_same by lia. reflexivity. }
    rewrite (tick_only m1 i Hi).
    - rewrite (tick_chan_on _ _ D1). unfold row. rewrite R1, row_insert_same by lia.
      cbn [nr_note nr_sched]. rewrite list_insert_insert_eq, K1. reflexivity.
    - intros j Hj Hne.
      apply (settled_ext m); [apply O1; assumption | congruence | apply Hset; assumption]. }
  (* note off *)
  set (m3 := mkMachine (set_notesOn (<[i := mkRow (u8 N) 0 1]> (notesOn (ym m))) (ym m1))
               (glb m1) (sink m ++ burst)).
  assert (forall j, (j < 6)%nat -> j <> i -> row m2 j = row m j) as O2.
  { intros j Hj Hne. unfold row, m2. cbn [ym notesOn set_notesOn].
    apply row_insert_other. congruence. }
  assert (note N v' false m2 = m3) as Eoff.
  { assert (chan_plays (ym m2) i (u8 N) = true) as P2.
    { unfold chan_plays, m2. cbn [ym notesOn set_notesOn].
      rewrite row_insert_same by lia. cbn [nr_note nr_sched nr_on].
      rewrite Z.eqb_refl. reflexivity. }
    unfold note. rewrite (note_off_loop_first 6 0 (u8 N) m2 i); [| lia | exact P2 |].
    - unfold with_ym, m2, m3. cbn [ym glb sink notesOn set_notesOn].
      rewrite row_insert_same by lia. cbn [nr_note nr_on].
      rewrite list_insert_insert_eq. reflexivity.
    - intros j Hj. unfold chan_plays. fold (row m2 j). rewrite O2 by lia. apply Hnp. lia. }
  (* second tick *)
  set (m4 := mkMachine (set_notesOn (<[i := mkRow 0 0 0]> (notesOn (ym m))) (ym m1))
               (glb m1) ((sink m ++ burst) ++ [key_off i])).
  assert (TIMER1_OVF_vect m3 = m4) as T3.
  { assert (forall j, (j < 6)%nat -> j <> i -> row m3 j = row m j) as O3.
    { intros j Hj Hne. unfold row, m3. cbn [ym notesOn set_notesOn].
      apply row_insert_other. congruence. }
    assert (sustain (ym m3) = false) as S3 by exact S1.
    assert (due_off (ym m3) i = true) as D3.
    { unfold due_off, m3. cbn [ym notesOn set_notesOn].
      rewrite row_insert_same by lia. reflexivity. }
    rewrite (tick_only m3 i Hi).
    - rewrite (tick_chan_off _ _ D3 S3). unfold m3, m4. cbn [ym glb sink notesOn set_notesOn].
      rewrite list_insert_insert_eq. reflexivity.
    - intros j Hj Hne.
      apply (settled_ext m); [apply O3; assumption | congruence | apply Hset; assumption]. }
  rewrite T1, Eoff, T3. unfold m4. cbn [ym sink notesOn set_notesOn]. split.
  - apply list_insert_id. unfold row in Hrow.
    rewrite <- Hrow. apply list_lookup_lookup_total_lt. lia.
  - unfold burst. rewrite <- app_assoc. reflexivity.
Qed.

Lemma note_cycle_round_trip_witness :
  notesOn (ym (TIMER1_OVF_vect (note 60 0 false (TIMER1_OVF_vect (note 60 100 true power_on)))))
  = notesOn (ym power_on).
Proof.
  assert (wf (ym power_on)) as Hwf by (split; [| split]; vm_compute; reflexivity).
  assert (forall j, (j < 0)%nat -> chan_free (ym power_on) j = false) as H0 by (intros j Hj; lia).
  assert (forall j, (j < 6)%nat -> chan_plays (ym power_on) j (u8 60) = false) as H1.
  { intros j Hj. do 6 (destruct j as [| j]; [vm_compute; reflexivity |]). lia. }
  assert (forall j, (j < 6)%nat -> j <> 0%nat -> settled power_on j) as H2.
  { intros j Hj _. apply settled_free.
    do 6 (destruct j as [| j]; [vm_compute; reflexivity |]). lia. }
  exact (proj1 (note_cycle_round_trip power_on 0 60 100 0 Hwf ltac:(lia)
                  ltac:(vm_compute; reflexivity) ltac:(vm_compute; reflexivity) H0 H1 H2)).
Defined.

(** * The panic and the aftertouch overlay *)

Lemma list_six {A} (l : list A) :
  length l = 6%nat -> exists a b c d e f, l = [a; b; c; d; e; f].
Proof.
  intros H. do 6 (destruct l as [| ? l]; [discriminate H |]).
  destruct l; [| discriminate H]. eauto 10.
Qed.

Lemma all_off_loop (f : Machine -> nat -> Machine) :
  (forall m i,
     f m i = mkMachine (set_notesOn (<[i := mkRow 0 0 0]> (notesOn (ym m))) (ym m))
               (glb m) (sink m ++ [key_off i])) ->
  forall idx m,
    sink (fold_left f idx m) = sink m ++ map key_off idx
    /\ notesOn (ym (fold_left f idx m))
       = fold_left (fun rows i => <[i := mkRow 0 0 0]> rows) idx (notesOn (ym m))
    /\ vel (ym (fold_left f idx m)) = vel (ym m)
    /\ freq (ym (fold_left f idx m)) = freq (ym m)
    /\ par (ym (fold_left f idx m)) = par (ym m)
    /\ sustain (ym (fold_left f idx m)) = sustain (ym m).
Proof.
  intros Hf idx. induction idx as [| i idx IH]; intros m.
  - cbn [fold_left map]. rewrite app_nil_r. repeat split; reflexivity.
  - cbn [fold_left map]. destruct (IH (f m i)) as (A & B & C & D & E & F).
    rewrite A, B, C, D, E, F, Hf. cbn [ym glb sink notesOn vel freq par sustain set_notesOn].
    rewrite <- app_assoc. repeat split; reflexivity.
Qed.

Lemma all_off_step m i :
  (let m := sendreg 0 0x28 (0x00 + chan i) m in
   with_ym (fun y => set_notesOn (<[i := mkRow 0 0 0]> (notesOn y)) y) m)
  = mkMachine (set_notesOn (<[i := mkRow 0 0 0]> (notesOn (ym m))) (ym m))
      (glb m) (sink m ++ [key_off i]).
Proof.
  cbv zeta. unfold with_ym, sendreg, key_off. cbn [ym glb sink].
  pose proof (chan_range i).
  rewrite (u8_small 0), (u8_small 0x28), (u8_small (0x00 + chan i)) by lia.
  reflexivity.
Qed.

(** X5: the all-notes-off that the pitch-bend status triggers sends the six
    key-offs in channel order and zeroes every channel row, whatever the
    sustain flag; velocities, pitch bytes and parameters stay.  The tick that
    follows finds nothing to do. *)
Theorem all_off_silences (m : Machine) :
  wf (ym m) ->
  notesOn (ym (all_off m)) = replicate 6 (mkRow 0 0 0)
  /\ sink (all_off m)
     = sink m ++ [key_off 0; key_off 1; key_off 2; key_off 3; key_off 4; key_off 5]
  /\ vel (ym (all_off m)) = vel (ym m)
  /\ freq (ym (all_off m)) = freq (ym m)
  /\ par (ym (all_off m)) = par (ym m)
  /\ sustain (ym (all_off m)) = sustain (ym m)
  /\ TIMER1_OVF_vect (all_off m) = all_off m.
Proof.
  intros (_ & Hln & _).
  assert (sink (all_off m) = sink m ++ map key_off (seq 0 6)
          /\ notesOn (ym (all_off m))
             = fold_left (fun rows i => <[i := mkRow 0 0 0]> rows) (seq 0 6) (notesOn (ym m))
          /\ vel (ym (all_off m)) = vel (ym m)
          /\ freq (ym (all_off m)) = freq (ym m)
          /\ par (ym (all_off m)) = par (ym m)
          /\ sustain (ym (all_off m)) = sustain (ym m)) as (A & B & C & D & E & F)
    by exact (all_off_loop _ all_off_step (seq 0 6) m).
  assert (notesOn (ym (all_off m)) = replicate 6 (mkRow 0 0 0)) as Hrows.
  { rewrite B. destruct (list_six _ Hln) as (a & b & c & d & e & f & ->). reflexivity. }
  split; [exact Hrows |]. split; [exact A |].
  split; [exact C |]. split; [exact D |]. split; [exact E |]. split; [exact F |].
  unfold TIMER1_OVF_vect. apply tick_loop_settled_id.
  intros j Hj. apply seq_lt in Hj. apply settled_free.
  unfold chan_free. rewrite Hrows.
  do 6 (destruct j as [| j]; [reflexivity |]). lia.
Qed.

Lemma all_off_silences_witness :
  sustain (ym st_pedal) = true
  /\ notesOn (ym (all_off st_pedal)) = replicate 6 (mkRow 0 0 0)
  /\ TIMER1_OVF_vect (all_off st_pedal) = all_off st_pedal.
Proof.
  assert (wf (ym st_pedal)) as Hwf by (split; [| split]; vm_compute; reflexivity).
  destruct (all_off_silences st_pedal Hwf) as (Hr & _ & _ & _ & _ & _ & Ht).
  split; [vm_compute; reflexivity |]. split; [exact Hr | exact Ht].
Defined.

Lemma aftertouch_burst_eq depth m :
  aftertouch_burst depth m =
    mkMachine (ym m) (glb m)
      (sink m ++
       [(0, 0xB4, u8 (0xC0 + Z.shiftl (tremolo (ym m)) 4 + depth));
        (1, 0xB4, u8 (0xC0 + Z.shiftl (tremolo (ym m)) 4 + depth));
        (0, 0xB5, u8 (0xC0 + Z.shiftl (tremolo (ym m)) 4 + depth));
        (1, 0xB5, u8 (0xC0 + Z.shiftl (tremolo (ym m)) 4 + depth));
        (0, 0xB6, u8 (0xC0 + Z.shiftl (tremolo (ym m)) 4 + depth));
        (1, 0xB6, u8 (0xC0 + Z.shiftl (tremolo (ym m)) 4 + depth))]).
Proof.
  unfold aftertouch_burst. cbn [fold_left seq]. unfold sendreg.
  cbn [ym glb sink]. rewrite <- !app_assoc. reflexivity.
Qed.

(** X6: channel aftertouch writes the vibrato/tremolo/pan register of all six
    channels and leaves the parameter store alone.  With the stored tremolo
    within its bounds, a pressure [d] from 1 to 127 sends the byte
    [0xC0 + 16 * tremolo + d/18]: the pan bits and the tremolo field are kept
    and the vibrato field is [d/18], at most 7.  Pressure 0 sends the byte of
    the stored vibrato. *)
Theorem aftertouch_overlays_vibrato (m : Machine) (d : Z) :
  0 <= tremolo (ym m) <= 3 -> 0 <= vibrato (ym m) <= 7 -> 0 <= d < 128 ->
  ym (aftertouch d m) = ym m
  /\ 0 <= d / 18 <= 7
  /\ sink (aftertouch d m) =
       sink m ++
       map (fun a => (fst a, snd a,
                      0xC0 + 16 * tremolo (ym m) + (if d =? 0 then vibrato (ym m) else d / 18)))
         [(0, 0xB4); (1, 0xB4); (0, 0xB5); (1, 0xB5); (0, 0xB6); (1, 0xB6)].
Proof.
  intros Ht Hv Hd.
  assert (0 <= d / 18 <= 7) as Hq.
  { split; [apply Z.div_pos; lia |].
    assert (d / 18 < 8) by (apply Z.div_lt_upper_bound; lia). lia. }
  unfold aftertouch.
  destruct (d =? 0) eqn:E; rewrite aftertouch_burst_eq; cbn [ym sink map fst snd].
  - rewrite Z.shiftl_mul_pow2 by lia. change (2 ^ 4) with 16.
    rewrite (u8_small (0xC0 + tremolo (ym m) * 16 + vibrato (ym m))) by lia.
    replace (tremolo (ym m) * 16) with (16 * tremolo (ym m)) by lia.
    split; [reflexivity |]. split; [exact Hq |]. reflexivity.
  - rewrite Z.shiftl_mul_pow2 by lia. change (2 ^ 4) with 16.
    rewrite Z.quot_div_nonneg by lia.
    rewrite (u8_small (0xC0 + tremolo (ym m) * 16 + d / 18)) by lia.
    replace (tremolo (ym m) * 16) with (16 * tremolo (ym m)) by lia.
    split; [reflexivity |]. split; [exact Hq |]. reflexivity.
Qed.

Lemma aftertouch_overlays_vibrato_witness :
  ym (aftertouch 100 power_on) = ym power_on
  /\ emitted (aftertouch 100) power_on
     = [(0, 0xB4, 0xC5); (1, 0xB4, 0xC5); (0, 0xB5, 0xC5);
        (1, 0xB5, 0xC5); (0, 0xB6, 0xC5); (1, 0xB6, 0xC5)].
Proof.
  destruct (aftertouch_overlays_vibrato power_on 100
              ltac:(vm_compute; split; discriminate) ltac:(vm_compute; split; discriminate)
              ltac:(lia)) as (Hy & _ & Hs).
  split; [exact Hy |]. unfold emitted. rewrite Hs, drop_app_length. vm_compute. reflexivity.
Defined.

(** * Further properties of the register encoder *)

Lemma writeToYM_broadcast op val1 val2 baseReg s1 s2 multiOp options sub1 sub2 m :
  sink (writeToYM op val1 val2 baseReg s1 s2 multiOp true options sub1 sub2 m) =
    sink m ++
    map (fun a =>
           (fst a,
            u8 ((if multiOp then u8 (u8 baseReg + opOffset (Z.to_nat (u8 op))) else u8 baseReg)
                + snd a),
            dataToWrite (u8 val1) (u8 val2) (u8 s1) (u8 s2) (u8 options) (u8 sub1) (u8 sub2)))
        broadcast.
Proof.
  unfold writeToYM, broadcast. cbn [fold_left seq map fst snd]. unfold sendreg. cbn [ym glb sink].
  rewrite <- !app_assoc. cbn [app].
  assert (forall z, u8 (u8 z) = u8 z) as Hidem.
  { intros z. apply u8_small. apply u8_range. }
  unfold dataToWrite at 1 2 3 4 5 6. rewrite !Hidem. reflexivity.
Qed.

Lemma zrange_in lo n z : lo <= z < lo + Z.of_nat n -> In z (zrange lo n).
Proof.
  intros H. unfold zrange. apply in_map_iff. exists (Z.to_nat (z - lo)).
  split; [lia | apply in_seq; lia].
Qed.

(** A check over two finite ranges holds for each pair in the ranges. *)
Lemma range2_forall (P : Z -> Z -> bool) lo1 n1 lo2 n2 :
  forallb (fun a => forallb (P a) (zrange lo2 n2)) (zrange lo1 n1) = true ->
  forall a b, lo1 <= a < lo1 + Z.of_nat n1 -> lo2 <= b < lo2 + Z.of_nat n2 -> P a b = true.
Proof.
  intros H a b Ha Hb. rewrite forallb_forall in H.
  specialize (H a (zrange_in _ _ _ Ha)). rewrite forallb_forall in H.
  apply H, zrange_in, Hb.
Qed.

(** X7: the byte that [writeToYM] packs for each two-field register, with the
    arguments the program passes and both fields within their bounds, is the
    sum of the two fields at their bit positions, in the call that edits the
    first field (also used by the preset load) and in the call that edits the
    second.  Neither field borrows from or carries into the other, also for a
    negative detune that goes through a [uint8_t] argument: for each of the
    six registers both fields can be read back from the byte. *)
Theorem packed_bytes_decode (a b : Z) :
  (0 <= a <= 7 -> 0 <= b <= 7 ->
     dataToWrite (u8 a) (u8 b) 0 3 0 0 0 = a + 8 * b
     /\ dataToWrite (u8 b) (u8 a) 3 0 0 0 0 = a + 8 * b
     /\ (a + 8 * b) mod 8 = a
     /\ (a + 8 * b) / 8 = b)
  /\ (0 <= a <= 15 -> -3 <= b <= 3 ->
        dataToWrite (u8 a) (u8 b) 0 4 6 0 0 = a + 16 * (b + 3)
        /\ dataToWrite (u8 b) (u8 a) 4 0 5 0 0 = a + 16 * (b + 3)
        /\ (a + 16 * (b + 3)) mod 16 = a
        /\ (a + 16 * (b + 3)) / 16 - 3 = b)
  /\ (0 <= a <= 31 -> 0 <= b <= 3 ->
        dataToWrite (u8 a) (u8 b) 0 6 1 31 0 = (31 - a) + 64 * b
        /\ dataToWrite (u8 b) (u8 a) 6 0 2 0 31 = (31 - a) + 64 * b
        /\ 31 - ((31 - a) + 64 * b) mod 64 = a
        /\ ((31 - a) + 64 * b) / 64 = b)
  /\ (0 <= a <= 31 -> 0 <= b <= 1 ->
        dataToWrite (u8 a) (u8 b) 0 7 1 31 0 = (31 - a) + 128 * b
        /\ dataToWrite (u8 b) (u8 a) 7 0 2 0 31 = (31 - a) + 128 * b
        /\ 31 - ((31 - a) + 128 * b) mod 128 = a
        /\ ((31 - a) + 128 * b) / 128 = b)
  /\ (0 <= a <= 15 -> 0 <= b <= 15 ->
        dataToWrite (u8 a) (u8 b) 4 0 3 15 15 = 16 * (15 - a) + (15 - b)
        /\ dataToWrite (u8 b) (u8 a) 0 4 3 15 15 = 16 * (15 - a) + (15 - b)
        /\ 15 - (16 * (15 - a) + (15 - b)) / 16 = a
        /\ 15 - (16 * (15 - a) + (15 - b)) mod 16 = b)
  /\ (0 <= a <= 7 -> 0 <= b <= 3 ->
        dataToWrite (u8 a) (u8 b) 0 4 8 0 0 = 0xC0 + a + 16 * b
        /\ dataToWrite (u8 b) (u8 a) 4 0 8 0 0 = 0xC0 + a + 16 * b
        /\ (0xC0 + a + 16 * b) mod 16 = a
        /\ ((0xC0 + a + 16 * b) / 16) mod 4 = b
        /\ (0xC0 + a + 16 * b) / 64 = 3).
Proof.
  split; [| split; [| split; [| split; [| split]]]]; intros Ha Hb.
  - pose proof (range2_forall
      (fun a b => (dataToWrite (u8 a) (u8 b) 0 3 0 0 0 =? a + 8 * b)
                  && (dataToWrite (u8 b) (u8 a) 3 0 0 0 0 =? a + 8 * b)
                  && ((a + 8 * b) mod 8 =? a)
                  && ((a + 8 * b) / 8 =? b)) 0 8 0 8
      ltac:(vm_compute; reflexivity) a b ltac:(lia) ltac:(lia)) as E.
    cbv beta in E. rewrite !andb_true_iff, !Z.eqb_eq in E. tauto.
  - pose proof (range2_forall
      (fun a b => (dataToWrite (u8 a) (u8 b) 0 4 6 0 0 =? a + 16 * (b + 3))
                  && (dataToWrite (u8 b) (u8 a) 4 0 5 0 0 =? a + 16 * (b + 3))
                  && ((a + 16 * (b + 3)) mod 16 =? a)
                  && ((a + 16 * (b + 3)) / 16 - 3 =? b)) 0 16 (-3) 7
      ltac:(vm_compute; reflexivity) a b ltac:(lia) ltac:(lia)) as E.
    cbv beta in E. rewrite !andb_true_iff, !Z.eqb_eq in E. tauto.
  - pose proof (range2_forall
      (fun a b => (dataToWrite (u8 a) (u8 b) 0 6 1 31 0 =? (31 - a) + 64 * b)
                  && (dataToWrite (u8 b) (u8 a) 6 0 2 0 31 =? (31 - a) + 64 * b)
                  && (31 - ((31 - a) + 64 * b) mod 64 =? a)
                  && (((31 - a) + 64 * b) / 64 =? b)) 0 32 0 4
      ltac:(vm_compute; reflexivity) a b ltac:(lia) ltac:(lia)) as E.
    cbv beta in E. rewrite !andb_true_iff, !Z.eqb_eq in E. tauto.
  - pose proof (range2_forall
      (fun a b => (dataToWrite (u8 a) (u8 b) 0 7 1 31 0 =? (31 - a) + 128 * b)
                  && (dataToWrite (u8 b) (u8 a) 7 0 2 0 31 =? (31 - a) + 128 * b)
                  && (31 - ((31 - a) + 128 * b) mod 128 =? a)
                  && (((31 - a) + 128 * b) / 128 =? b)) 0 32 0 2
      ltac:(vm_compute; reflexivity) a b ltac:(lia) ltac:(lia)) as E.
    cbv beta in E. rewrite !andb_true_iff, !Z.eqb_eq in E. tauto.
  - pose proof (range2_forall
      (fun a b => (dataToWrite (u8 a) (u8 b) 4 0 3 15 15 =? 16 * (15 - a) + (15 - b))
                  && (dataToWrite (u8 b) (u8 a) 0 4 3 15 15 =? 16 * (15 - a) + (15 - b))
                  && (15 - (16 * (15 - a) + (15 - b)) / 16 =? a)
                  && (15 - (16 * (15 - a) + (15 - b)) mod 16 =? b)) 0 16 0 16
      ltac:(vm_compute; reflexivity) a b ltac:(lia) ltac:(lia)) as E.
    cbv beta in E. rewrite !andb_true_iff, !Z.eqb_eq in E. tauto.
  - pose proof (range2_forall
      (fun a b => (dataToWrite (u8 a) (u8 b) 0 4 8 0 0 =? 0xC0 + a + 16 * b)
                  && (dataToWrite (u8 b) (u8 a) 4 0 8 0 0 =? 0xC0 + a + 16 * b)
                  && ((0xC0 + a + 16 * b) mod 16 =? a)
                  && (((0xC0 + a + 16 * b) / 16) mod 4 =? b)
                  && ((0xC0 + a + 16 * b) / 64 =? 3)) 0 8 0 4
      ltac:(vm_compute; reflexivity) a b ltac:(lia) ltac:(lia)) as E.
    cbv beta in E. rewrite !andb_true_iff, !Z.eqb_eq in E. tauto.
Qed.

Lemma packed_bytes_decode_witness :
  dataToWrite (u8 10) (u8 (-3)) 0 4 6 0 0 = 10
  /\ dataToWrite (u8 12) (u8 9) 4 0 3 15 15 = 0x36.
Proof.
  destruct (packed_bytes_decode 10 (-3)) as (_ & H & _).
  destruct (packed_bytes_decode 12 9) as (_ & _ & _ & _ & H' & _).
  split; [exact (proj1 (H ltac:(lia) ltac:(lia)))
         | exact (proj1 (H' ltac:(lia) ltac:(lia)))].
Defined.

(** * Further properties of the preset loader *)

Lemma par_store f g v y : par (store f v y) g = if decide (g = f) then v else par y g.
Proof. reflexivity. Qed.

Lemma changeAllParams_ym alg fb lfo vib trem mult det tl atk dcy sl sr rel rs eg am m :
  ym (changeAllParams alg fb lfo vib trem mult det tl atk dcy sl sr rel rs eg am m) =
    op_stores mult det tl atk dcy sl sr rs eg am 3
      (op_stores mult det tl atk dcy sl sr rs eg am 2
        (op_stores mult det tl atk dcy sl sr rs eg am 1
          (op_stores mult det tl atk dcy sl sr rs eg am 0
            (store F_tremolo trem (store F_vibrato vib (store F_lfoFreq lfo
              (store F_feedback fb (store F_algorithm alg (ym m))))))))).
Proof.
  unfold changeAllParams. cbn [fold_left seq].
  rewrite !changeAllParams_op_ym, writeToYM_ym, write_lfo_ym, writeToYM_ym.
  reflexivity.
Qed.

(** The effect of the ten assignments on a parameter. *)
Lemma par_op_stores mult det tl atk dcy sl sr rs eg am i y f :
  par (op_stores mult det tl atk dcy sl sr rs eg am i y) f =
    match f with
    | F_multiple o => if decide (o = Z.of_nat i) then mult !!! i else par y f
    | F_detune o => if decide (o = Z.of_nat i) then det !!! i else par y f
    | F_totalLvl o => if decide (o = Z.of_nat i) then tl !!! i else par y f
    | F_attack o => if decide (o = Z.of_nat i) then atk !!! i else par y f
    | F_decay o => if decide (o = Z.of_nat i) then dcy !!! i else par y f
    | F_susLvl o => if decide (o = Z.of_nat i) then sl !!! i else par y f
    | F_susRate o => if decide (o = Z.of_nat i) then sr !!! i else par y f
    | F_rateScl o => if decide (o = Z.of_nat i) then rs !!! i else par y f
    | F_ssgeg o => if decide (o = Z.of_nat i) then eg !!! i else par y f
    | F_amOn o => if decide (o = Z.of_nat i) then am !!! i else par y f
    | _ => par y f
    end.
Proof.
  unfold op_stores. rewrite !par_store.
  destruct f;
    repeat match goal with
    | |- context [decide (?a = ?b)] =>
        destruct (decide (a = b)) as [? | ?]; cbv iota; try discriminate; try congruence
    end; reflexivity.
Qed.

Lemma arg_at_index a (i : nat) : (i < 4)%nat -> arg_at a (Z.of_nat i) = Some (a !!! i).
Proof.
  intros H. unfold arg_at.
  replace (0 <=? Z.of_nat i) with true by (symmetry; apply Z.leb_le; lia).
  replace (Z.of_nat i <? 4) with true by (symmetry; apply Z.ltb_lt; lia).
  rewrite Nat2Z.id. reflexivity.
Qed.

Lemma arg_at_outside a o : o <> 0 -> o <> 1 -> o <> 2 -> o <> 3 -> arg_at a o = None.
Proof.
  intros H0 H1 H2 H3. unfold arg_at.
  destruct (0 <=? o) eqn:E1; [| reflexivity].
  destruct (o <? 4) eqn:E2; [| reflexivity].
  apply Z.leb_le in E1. apply Z.ltb_lt in E2. lia.
Qed.

(** The operator loop on one per-operator parameter array. *)
Lemma op_loop_value (a : list Z) (o old : Z) :
  (if decide (o = Z.of_nat 3) then a !!! 3%nat
   else if decide (o = Z.of_nat 2) then a !!! 2%nat
   else if decide (o = Z.of_nat 1) then a !!! 1%nat
   else if decide (o = Z.of_nat 0) then a !!! 0%nat
   else old)
  = default old (arg_at a o).
Proof.
  destruct (decide (o = Z.of_nat 3)) as [-> | H3]; [rewrite arg_at_index by lia; reflexivity |].
  destruct (decide (o = Z.of_nat 2)) as [-> | H2]; [rewrite arg_at_index by lia; reflexivity |].
  destruct (decide (o = Z.of_nat 1)) as [-> | H1]; [rewrite arg_at_index by lia; reflexivity |].
  destruct (decide (o = Z.of_nat 0)) as [-> | H0]; [rewrite arg_at_index by lia; reflexivity |].
  rewrite arg_at_outside by (cbn in *; lia). reflexivity.
Qed.

Lemma write_lfo_glb op lfo m : glb (write_lfo op lfo m) = glb m.
Proof. unfold write_lfo. destruct (lfo =? 0); apply writeToYM_glb. Qed.

Lemma write_ssgeg_glb op eg m : glb (write_ssgeg op eg m) = glb m.
Proof. unfold write_ssgeg. destruct (eg =? 0); apply writeToYM_glb. Qed.

Lemma changeAllParams_op_glb mult det tl atk dcy sl sr rel rs eg am m i :
  glb (changeAllParams_op mult det tl atk dcy sl sr rel rs eg am m i) = glb m.
Proof.
  unfold changeAllParams_op. rewrite write_ssgeg_glb, !writeToYM_glb. reflexivity.
Qed.

Lemma changeAllParams_glb alg fb lfo vib trem mult det tl atk dcy sl sr rel rs eg am m :
  glb (changeAllParams alg fb lfo vib trem mult det tl atk dcy sl sr rel rs eg am m) = glb m.
Proof.
  unfold changeAllParams. cbn [fold_left seq].
  rewrite !changeAllParams_op_glb, writeToYM_glb, write_lfo_glb, writeToYM_glb.
  reflexivity.
Qed.

(** The store after a preset load. *)
Lemma load_patch_par (p : Patch) (m : Machine) (f : Field) :
  par (ym (load_patch p m)) f = default (par (ym m) f) (patch_value p f).
Proof.
  unfold load_patch. rewrite changeAllParams_ym.
    destruct f; rewrite !par_op_stores; cbv iota; rewrite ?par_store;
      repeat match goal with
      | |- context [decide (?a = ?b)] =>
          lazymatch a with
          | F_release _ => fail
          | _ => idtac
          end;
          lazymatch type of a with
          | Field => destruct (decide (a = b)) as [? | ?]; cbv iota;
                     try discriminate; try congruence
          end
      end;
      try reflexivity;
      cbn [patch_value]; rewrite ?par_store;
      try apply op_loop_value.
    all: repeat match goal with
      | |- context [decide (?a = ?b)] =>
          lazymatch type of a with
          | Field => destruct (decide (a = b)) as [? | ?]; cbv iota;
                     try discriminate; try congruence
          end
      end; try reflexivity.
Qed.

Lemma load_patch_frame (p : Patch) (m : Machine) :
  freq (ym (load_patch p m)) = freq (ym m)
  /\ notesOn (ym (load_patch p m)) = notesOn (ym m)
  /\ vel (ym (load_patch p m)) = vel (ym m)
  /\ sustain (ym (load_patch p m)) = sustain (ym m)
  /\ cursor (ym (load_patch p m)) = cursor (ym m)
  /\ glb (load_patch p m) = glb m.
Proof.
  unfold load_patch. rewrite changeAllParams_ym.
  split; [reflexivity |]. split; [reflexivity |]. split; [reflexivity |].
  split; [reflexivity |]. split; [reflexivity |].
  apply changeAllParams_glb.
Qed.

(** X8: what a preset load does to the store.  Every parameter that the
    loader assigns (the five global ones and, for operators 0 to 3, the ten
    per-operator ones) takes the value of the patch; every other parameter,
    which includes the four release rates and the group-0 settings, keeps its
    value.  The channel arrays, the sustain flag, the cursor and the MIDI
    buffer are not touched. *)
Theorem load_patch_overwrites (p : Patch) (m : Machine) (f : Field) :
  par (ym (load_patch p m)) f = default (par (ym m) f) (patch_value p f)
  /\ freq (ym (load_patch p m)) = freq (ym m)
  /\ notesOn (ym (load_patch p m)) = notesOn (ym m)
  /\ vel (ym (load_patch p m)) = vel (ym m)
  /\ sustain (ym (load_patch p m)) = sustain (ym m)
  /\ op (ym (load_patch p m)) = op (ym m)
  /\ group (ym (load_patch p m)) = group (ym m)
  /\ current (ym (load_patch p m)) = current (ym m)
  /\ value (ym (load_patch p m)) = value (ym m)
  /\ glb (load_patch p m) = glb m.
Proof.
  destruct (load_patch_frame p m) as (A & B & C & D & E & F).
  injection E as E1 E2 E3 E4.
  split; [apply load_patch_par |].
  split; [exact A |]. split; [exact B |]. split; [exact C |]. split; [exact D |].
  split; [exact E1 |]. split; [exact E2 |]. split; [exact E3 |]. split; [exact E4 |].
  exact F.
Qed.

Lemma writeToYM_burst op val1 val2 baseReg s1 s2 multiOp options sub1 sub2 m :
  exists d,
    sink (writeToYM op val1 val2 baseReg s1 s2 multiOp true options sub1 sub2 m) =
      sink m ++
      burst_of (if multiOp then u8 (u8 baseReg + opOffset (Z.to_nat (u8 op))) else u8 baseReg) d.
Proof. eexists. apply writeToYM_broadcast. Qed.

Lemma write_ssgeg_burst op eg m :
  exists d,
    sink (write_ssgeg op eg m) =
      sink m ++ burst_of (u8 (u8 0x90 + opOffset (Z.to_nat (u8 op)))) d.
Proof. unfold write_ssgeg. destruct (eg =? 0); apply writeToYM_burst. Qed.

Lemma write_lfo_sink op lfo m :
  exists d, sink (write_lfo op lfo m) = sink m ++ [(0, 0x22, d)].
Proof. unfold write_lfo. destruct (lfo =? 0); eexists; reflexivity. Qed.

Lemma map_fst_burst_of r d : map fst (burst_of r d) = map fst (burst_of r 0).
Proof. reflexivity. Qed.

(** The writes of one iteration of the operator loop. *)
Lemma changeAllParams_op_sink mult det tl atk dcy sl sr rel rs eg am m i :
  (i < 4)%nat ->
  exists out,
    sink (changeAllParams_op mult det tl atk dcy sl sr rel rs eg am m i) = sink m ++ out
    /\ map fst out =
       flat_map (fun base => map fst (burst_of (base + opOffset i) 0))
         [0x30; 0x40; 0x50; 0x60; 0x80; 0x70; 0x90].
Proof.
  intros Hi. unfold changeAllParams_op.
  match goal with |- context [write_ssgeg ?o ?e ?x] =>
    destruct (write_ssgeg_burst o e x) as [d7 ->] end.
  repeat match goal with |- context [sink (writeToYM ?o ?a ?b ?r ?s ?t ?mo true ?op ?u ?v ?x)] =>
    destruct (writeToYM_burst o a b r s t mo op u v x) as [? ->] end.
  cbn [with_ym sink]. rewrite <- !app_assoc. eexists. split; [reflexivity |].
  rewrite !map_app.
  do 4 (destruct i as [| i]; [reflexivity |]). lia.
Qed.

(** X9: every preset load sends the same 181 writes as far as group flags and
    registers go: algorithm/feedback, LFO, vibrato/tremolo, then for each
    operator multiple/detune, total level, attack/rate scale, decay/AM,
    sustain level/release, sustain rate and SSG-EG, each per-channel register
    to both groups of three channels.  Only the data bytes depend on the
    patch. *)
Theorem load_patch_burst_addresses (p : Patch) (m : Machine) :
  exists out,
    sink (load_patch p m) = sink m ++ out
    /\ map fst out = preset_addresses
    /\ length out = 181%nat.
Proof.
  unfold load_patch, changeAllParams. cbn [fold_left seq].
  repeat match goal with |- context [changeAllParams_op ?a ?b ?c ?d ?e ?f ?g ?h ?i ?j ?k ?x ?n] =>
    let H := fresh "H" in
    let o := fresh "o" in
    destruct (changeAllParams_op_sink a b c d e f g h i j k x n ltac:(lia)) as (o & -> & H)
  end.
  repeat match goal with
  | |- context [sink (writeToYM ?o ?a ?b ?r ?s ?t ?mo true ?op ?u ?v ?x)] =>
      destruct (writeToYM_burst o a b r s t mo op u v x) as [? ->]
  | |- context [sink (write_lfo ?o ?l ?x)] =>
      destruct (write_lfo_sink o l x) as [? ->]
  end.
  cbn [with_ym sink]. rewrite <- !app_assoc. eexists. split; [reflexivity |].
  assert (forall (A B : Type) (f : A -> B) (l : list A), length l = length (map f l)) as Hlen
    by (intros; symmetry; apply length_map).
  split.
  - unfold RegWrite in *. rewrite !map_app, H, H0, H1, H2. reflexivity.
  - unfold RegWrite in *. rewrite (Hlen _ _ fst), !map_app, H, H0, H1, H2. reflexivity.
Qed.

(** * The encoder and the buttons *)

Lemma truthy_b2z b : truthy (Z.b2z b) = b.
Proof. destruct b; reflexivity. Qed.

(** What the handler reads from a port value. *)
Lemma port_pins l r a b rest :
  pin (u8 (port l r a b rest)) BTN_L = Z.b2z l
  /\ pin (u8 (port l r a b rest)) BTN_R = Z.b2z r
  /\ pin (u8 (port l r a b rest)) ENC_A = Z.b2z a
  /\ pin (u8 (port l r a b rest)) ENC_B = Z.b2z b
  /\ Z.land (u8 (port l r a b rest)) (Z.lor (Z.shiftl 1 ENC_A) (Z.shiftl 1 ENC_B))
     = Z.lor (Z.shiftl (Z.b2z a) ENC_A) (Z.shiftl (Z.b2z b) ENC_B).
Proof.
  unfold port. generalize (u8_range rest). generalize (u8 rest). intros x Hx.
  pose proof (byte_forall
    (fun x => forallb (fun l => forallb (fun r => forallb (fun a => forallb (fun b =>
       let p := u8 (Z.lor (Z.land x 0xE1)
                  (Z.lor (Z.shiftl (Z.b2z l) BTN_L)
                     (Z.lor (Z.shiftl (Z.b2z r) BTN_R)
                        (Z.lor (Z.shiftl (Z.b2z a) ENC_A) (Z.shiftl (Z.b2z b) ENC_B))))) in
       (pin p BTN_L =? Z.b2z l) && (pin p BTN_R =? Z.b2z r)
       && (pin p ENC_A =? Z.b2z a) && (pin p ENC_B =? Z.b2z b)
       && (Z.land p (Z.lor (Z.shiftl 1 ENC_A) (Z.shiftl 1 ENC_B))
           =? Z.lor (Z.shiftl (Z.b2z a) ENC_A) (Z.shiftl (Z.b2z b) ENC_B)))
       [true; false]) [true; false]) [true; false]) [true; false])
    ltac:(vm_compute; reflexivity) x Hx) as H.
  cbv beta in H. rewrite !forallb_forall in H.
  assert (forall c : bool, In c [true; false]) as Hin by (intros []; cbn; tauto).
  specialize (H l (Hin l)). rewrite forallb_forall in H.
  specialize (H r (Hin r)). rewrite forallb_forall in H.
  specialize (H a (Hin a)). rewrite forallb_forall in H.
  specialize (H b (Hin b)). cbv zeta in H.
  rewrite !andb_true_iff, !Z.eqb_eq in H. tauto.
Qed.

(** The handler on a port value, in terms of the four levels. *)
Lemma PCINT2_vect_port l r a b rest g m :
  PCINT2_vect (port l r a b rest) (g, m) =
    if RPGpinOld g =? Z.lor (Z.shiftl (Z.b2z a) ENC_A) (Z.shiftl (Z.b2z b) ENC_B) then
      (mkInterface (RPGold0 g) (RPGold1 g) (RPGpinOld g) (Z.b2z l) (Z.b2z r)
         (if negb l || negb r then true else chgGrp g),
       if (if negb l || negb r then true else chgGrp g) then
         (if r && negb (truthy (BTN_R_old g)) then step_group 1 else fun m => m)
           ((if l && negb (truthy (BTN_L_old g)) then step_group (-1) else fun m => m) m)
       else m)
    else
      (mkInterface (Z.b2z a) (Z.b2z b)
         (Z.lor (Z.shiftl (Z.b2z a) ENC_A) (Z.shiftl (Z.b2z b) ENC_B)) (Z.b2z l) (Z.b2z r) false,
       if b && negb a then
         if (RPGold1 g =? Z.b2z a) && negb (RPGold0 g =? Z.b2z b) then
           turn false (Z.b2z l) (Z.b2z r) m
         else if (RPGold0 g =? Z.b2z b) && negb (RPGold1 g =? Z.b2z a) then
           turn true (Z.b2z l) (Z.b2z r) m
         else m
       else m).
Proof.
  unfold PCINT2_vect. cbv zeta. cbn [fst snd].
  destruct (port_pins l r a b rest) as (-> & -> & -> & -> & ->).
  rewrite !truthy_b2z.
  destruct (RPGpinOld g =? _); [| reflexivity].
  destruct (if negb l || negb r then true else chgGrp g); [| reflexivity].
  destruct (l && negb (truthy (BTN_L_old g))), (r && negb (truthy (BTN_R_old g))); reflexivity.
Qed.

(** One interrupt on a port value, with the tests on the stored state
    evaluated. *)
Ltac port_step :=
  rewrite PCINT2_vect_port;
  cbn [RPGold0 RPGold1 RPGpinOld BTN_L_old BTN_R_old chgGrp];
  repeat match goal with
  | H : RPGold0 _ = _ |- _ => rewrite H
  | H : RPGold1 _ = _ |- _ => rewrite H
  | H : RPGpinOld _ = _ |- _ => rewrite H
  | H : BTN_L_old _ = _ |- _ => rewrite H
  | H : BTN_R_old _ = _ |- _ => rewrite H
  end;
  repeat match goal with
  | |- context [?x =? ?y] =>
      let c := eval vm_compute in (x =? y) in
      first [constr_eq c true | constr_eq c false];
      change (x =? y) with c
  end;
  cbn [andb negb orb Z.b2z truthy]; cbv iota.

(** The four interrupts of one detent. *)
Lemma detent_run (g : Interface) (m : Machine) (l r clockwise : bool)
    (rest : Z) (k : nat) :
  (k < 4)%nat ->
  stored g (detent_end clockwise k) ->
  pins_run (ports_of l r rest (detent clockwise k)) (g, m)
  = (mkInterface (RPGold0 g) (RPGold1 g) (RPGpinOld g) (Z.b2z l) (Z.b2z r) false,
     turn clockwise (Z.b2z l) (Z.b2z r) m).
Proof.
  intros Hk (H0 & H1 & Hp).
  destruct clockwise;
    do 4 (destruct k as [| k];
          [ cbn in H0, H1, Hp; unfold pins_run, ports_of, detent;
            cbn [rotate drop take app map fold_left fst snd cw_cycle ccw_cycle];
            do 4 port_step; rewrite ?H0, ?H1, ?Hp; reflexivity |]);
    lia.
Qed.

(** X10: one detent is counted once.  Whatever of the four encoder states the
    turn starts from, and whatever the other pins of the port and the stored
    button levels are, the four pin changes of a full cycle call the action of
    the detent exactly once, in the direction of the turn: one step of the
    parameter index with the left button held, else one step of the operator
    with the right button held, else one step of the value under the cursor.
    The handler ends with the stored encoder state it started from and with
    [chgGrp] cleared. *)
Theorem detent_counts_once (g : Interface) (m : Machine) (l r clockwise : bool)
    (rest : Z) (k : nat) :
  (k < 4)%nat ->
  stored g (detent_end clockwise k) ->
  pins_run (ports_of l r rest (detent clockwise k)) (g, m)
  = (mkInterface (RPGold0 g) (RPGold1 g) (RPGpinOld g) (Z.b2z l) (Z.b2z r) false,
     turn clockwise (Z.b2z l) (Z.b2z r) m).
Proof. exact (detent_run g m l r clockwise rest k). Qed.

Lemma detent_counts_once_witness :
  stored (at_rest true true) (detent_end true 0)
  /\ pins_run (ports_of true true 0 (detent true 0)) (at_rest true true, power_on)
     = (mkInterface (RPGold0 (at_rest true true)) (RPGold1 (at_rest true true))
          (RPGpinOld (at_rest true true)) (Z.b2z true) (Z.b2z true) false,
        turn true (Z.b2z true) (Z.b2z true) power_on).
Proof.
  assert (stored (at_rest true true) (detent_end true 0)) as Hs
    by (split; [| split]; vm_compute; reflexivity).
  split; [exact Hs |].
  exact (detent_counts_once (at_rest true true) power_on true true true 0 0 ltac:(lia) Hs).
Defined.

Lemma pins_run_app a b s : pins_run (a ++ b) s = pins_run b (pins_run a s).
Proof. unfold pins_run. apply fold_left_app. Qed.

Lemma stored_eqb g s :
  stored g s ->
  (RPGpinOld g =? Z.lor (Z.shiftl (Z.b2z (fst s)) ENC_A) (Z.shiftl (Z.b2z (snd s)) ENC_B)) = true.
Proof. intros (_ & _ & ->). apply Z.eqb_refl. Qed.

(** A press and a release of one button with the encoder at rest. *)
Lemma click_run (g : Interface) (m : Machine) (left : bool) (a b : bool) (r1 r2 : Z) :
  stored g (a, b) -> BTN_L_old g = 1 -> BTN_R_old g = 1 ->
  pins_run [port (negb left) left a b r1; port true true a b r2] (g, m)
  = (mkInterface (RPGold0 g) (RPGold1 g) (RPGpinOld g) 1 1 true,
     step_group (if left then -1 else 1) m).
Proof.
  intros Hs HL HR. pose proof (stored_eqb g (a, b) Hs) as He. cbn [fst snd] in He.
  unfold pins_run. cbn [fold_left].
  rewrite PCINT2_vect_port, He, HL, HR.
  destruct left; cbn [negb andb orb truthy Z.eqb Z.b2z]; cbv iota;
    rewrite PCINT2_vect_port; cbn [RPGold0 RPGold1 RPGpinOld BTN_L_old BTN_R_old chgGrp];
    rewrite He; reflexivity.
Qed.

(** X11: a button that is pressed and released while the encoder does not
    move changes the group by one step: back for the left button, forward for
    the right one.  Nothing happens at the press; the step is taken at the
    release. *)
Theorem button_click_steps_group (g : Interface) (m : Machine) (left : bool)
    (a b : bool) (r1 r2 : Z) :
  stored g (a, b) -> BTN_L_old g = 1 -> BTN_R_old g = 1 ->
  snd (PCINT2_vect (port (negb left) left a b r1) (g, m)) = m
  /\ pins_run [port (negb left) left a b r1; port true true a b r2] (g, m)
     = (mkInterface (RPGold0 g) (RPGold1 g) (RPGpinOld g) 1 1 true,
        step_group (if left then -1 else 1) m).
Proof.
  intros Hs HL HR. split; [| apply click_run; assumption].
  pose proof (stored_eqb g (a, b) Hs) as He. cbn [fst snd] in He.
  rewrite PCINT2_vect_port, He, HL, HR. destruct left; reflexivity.
Qed.

Lemma button_click_steps_group_witness :
  stored (at_rest true true) (true, true)
  /\ pins_run [port true false true true 0; port true true true true 0]
       (at_rest true true, power_on)
     = (mkInterface (RPGold0 (at_rest true true)) (RPGold1 (at_rest true true))
          (RPGpinOld (at_rest true true)) 1 1 true,
        step_group (if false then -1 else 1) power_on).
Proof.
  assert (stored (at_rest true true) (true, true)) as Hs
    by (split; [| split]; vm_compute; reflexivity).
  split; [exact Hs |].
  exact (proj2 (button_click_steps_group (at_rest true true) power_on false true true 0 0
                  Hs eq_refl eq_refl)).
Defined.

(** X12: a button that is held while the encoder makes one detent does not
    change the group when it is released: the detent moves the parameter index
    (left button) or the operator (right button) by one step and that is
    all. *)
Theorem hold_and_turn_keeps_group (g : Interface) (m : Machine)
    (left clockwise : bool) (k : nat) (r1 r2 r3 : Z) :
  (k < 4)%nat ->
  stored g (detent_end clockwise k) -> BTN_L_old g = 1 -> BTN_R_old g = 1 ->
  pins_run
    ([port (negb left) left (fst (detent_end clockwise k)) (snd (detent_end clockwise k)) r1]
     ++ ports_of (negb left) left r2 (detent clockwise k)
     ++ [port true true (fst (detent_end clockwise k)) (snd (detent_end clockwise k)) r3])
    (g, m)
  = (mkInterface (RPGold0 g) (RPGold1 g) (RPGpinOld g) 1 1 false,
     if left then step_current (if clockwise then 1 else -1) m
     else step_op (if clockwise then 1 else -1) m).
Proof.
  intros Hk Hs HL HR.
  pose proof (stored_eqb g _ Hs) as He.
  rewrite !pins_run_app.
  (* the press *)
  assert (pins_run [port (negb left) left (fst (detent_end clockwise k))
                      (snd (detent_end clockwise k)) r1] (g, m)
          = (mkInterface (RPGold0 g) (RPGold1 g) (RPGpinOld g)
               (Z.b2z (negb left)) (Z.b2z left) true, m)) as E1.
  { unfold pins_run. cbn [fold_left]. rewrite PCINT2_vect_port, He, HL, HR.
    destruct left; reflexivity. }
  rewrite E1.
  (* the detent *)
  rewrite detent_run; [| exact Hk | exact Hs].
  cbn [RPGold0 RPGold1 RPGpinOld].
  (* the release *)
  unfold pins_run. cbn [fold_left]. rewrite PCINT2_vect_port.
  cbn [RPGold0 RPGold1 RPGpinOld BTN_L_old BTN_R_old chgGrp]. rewrite He.
  cbn [negb orb]. f_equal. unfold turn. rewrite !truthy_b2z. destruct left; reflexivity.
Qed.

Lemma hold_and_turn_keeps_group_witness :
  stored (at_rest true true) (detent_end true 0)
  /\ pins_run
       ([port (negb true) true (fst (detent_end true 0)) (snd (detent_end true 0)) 0]
        ++ ports_of (negb true) true 0 (detent true 0)
        ++ [port true true (fst (detent_end true 0)) (snd (detent_end true 0)) 0])
       (at_rest true true, power_on)
     = (mkInterface (RPGold0 (at_rest true true)) (RPGold1 (at_rest true true))
          (RPGpinOld (at_rest true true)) 1 1 false,
        if true then step_current (if true then 1 else -1) power_on
        else step_op (if true then 1 else -1) power_on).
Proof.
  assert (stored (at_rest true true) (detent_end true 0)) as Hs
    by (split; [| split]; vm_compute; reflexivity).
  split; [exact Hs |].
  exact (hold_and_turn_keeps_group (at_rest true true) power_on true true 0 0 0 0
           ltac:(lia) Hs eq_refl eq_refl).
Defined.

(** * The cursor, the bounds and the ring in every reachable state *)

Lemma within_spec f v :
  within f v = true -> fst (documented_bounds f) <= v <= snd (documented_bounds f).
Proof.
  unfold within. intros H. apply andb_prop in H as [H1 H2].
  apply Z.leb_le in H1. apply Z.leb_le in H2. lia.
Qed.

(** The test [patch_within] covers every value that [patch_value] gives. *)
Lemma patch_within_spec p f v :
  patch_within p = true -> patch_value p f = Some v ->
  fst (documented_bounds f) <= v <= snd (documented_bounds f).
Proof.
  unfold patch_within. intros H Hv.
  do 5 (apply andb_prop in H as [H ?]).
  match goal with
  | F : forallb _ _ = true |- _ => rewrite forallb_forall in F; rename F into Hop
  end.
  assert (forall a o, arg_at a o = Some v -> exists i : nat, In i (seq 0 4) /\ v = a !!! i)
    as Harg.
  { intros a o Ha. unfold arg_at in Ha.
    destruct (0 <=? o) eqn:E1; [| discriminate]. destruct (o <? 4) eqn:E2; [| discriminate].
    apply Z.leb_le in E1. apply Z.ltb_lt in E2. cbn [andb] in Ha.
    injection Ha as <-. exists (Z.to_nat o). split; [| reflexivity].
    apply in_seq. lia. }
  destruct f; cbn [patch_value] in Hv; try discriminate;
    try (injection Hv as <-; apply within_spec; assumption);
    apply Harg in Hv as (i & Hi & ->); specialize (Hop i Hi);
    do 9 (apply andb_prop in Hop as [Hop ?]);
    match goal with
    | W : within ?g (?a !!! i) = true |- _ <= ?a !!! i <= _ =>
        apply (within_spec g) in W; exact W
    end.
Qed.

Lemma patches_within : forallb patch_within patches = true.
Proof. vm_compute. reflexivity. Qed.

Lemma preset_frame m :
  freq (ym (preset m)) = freq (ym m)
  /\ notesOn (ym (preset m)) = notesOn (ym m)
  /\ vel (ym (preset m)) = vel (ym m)
  /\ sustain (ym (preset m)) = sustain (ym m)
  /\ cursor (ym (preset m)) = cursor (ym m)
  /\ glb (preset m) = glb m.
Proof.
  unfold preset. destruct (_ && _); [| repeat split; reflexivity].
  destruct (patches !! _); [| repeat split; reflexivity].
  apply load_patch_frame.
Qed.

Lemma preset_in_bounds m :
  (forall f, in_bounds (ym m) f) -> forall f, in_bounds (ym (preset m)) f.
Proof.
  intros H f. unfold preset. destruct (_ && _); [| apply H].
  destruct (patches !! _) as [p |] eqn:E; [| apply H].
  unfold in_bounds. rewrite load_patch_par.
  destruct (patch_value p f) as [v |] eqn:Ev; cbn [default]; [| apply H].
  apply (patch_within_spec p f v); [| exact Ev].
  pose proof patches_within as W. rewrite forallb_forall in W. apply W.
  apply list_elem_of_In. eapply list_elem_of_lookup_2. exact E.
Qed.

(** *** The cursor *)

Lemma changeGroup_frame m :
  par (ym (changeGroup m)) = par (ym m)
  /\ op (ym (changeGroup m)) = op (ym m)
  /\ freq (ym (changeGroup m)) = freq (ym m)
  /\ notesOn (ym (changeGroup m)) = notesOn (ym m)
  /\ vel (ym (changeGroup m)) = vel (ym m)
  /\ sustain (ym (changeGroup m)) = sustain (ym m)
  /\ glb (changeGroup m) = glb m /\ sink (changeGroup m) = sink m.
Proof.
  unfold changeGroup, with_ym. cbn [ym glb sink group set_group set_current].
  destruct (minMaxValue (group (ym m)) 0 3)
    as [| [[[?|?|]|[?|?|]|]|[[?|?|]|[?|?|]|]|] | ?];
    repeat split; reflexivity.
Qed.

Lemma changeCurrent_frame m :
  par (ym (changeCurrent m)) = par (ym m)
  /\ group (ym (changeCurrent m)) = group (ym m)
  /\ freq (ym (changeCurrent m)) = freq (ym m)
  /\ notesOn (ym (changeCurrent m)) = notesOn (ym m)
  /\ vel (ym (changeCurrent m)) = vel (ym m)
  /\ sustain (ym (changeCurrent m)) = sustain (ym m)
  /\ glb (changeCurrent m) = glb m /\ sink (changeCurrent m) = sink m.
Proof.
  unfold changeCurrent, with_ym. cbv zeta. cbn [ym glb sink group set_op set_current current].
  repeat match goal with
  | |- context [if ?c then _ else _] => destruct c
  end;
  try (repeat split; reflexivity);
  match goal with
  | |- context [minMaxValue (current (ym m)) ?a ?b] =>
      destruct (minMaxValue (current (ym m)) a b)
        as [| [[[?|?|]|[?|?|]|]|[[?|?|]|[?|?|]|]|] | ?];
        repeat split; reflexivity
  end.
Qed.

(** A change of group leaves a consistent cursor. *)
Lemma changeGroup_nav_ok m : 0 <= op (ym m) <= 3 -> nav_ok (ym (changeGroup m)).
Proof.
  intros Ho.
  pose proof (minMaxValue_range (group (ym m)) 0 3 ltac:(lia)) as Hg.
  unfold changeGroup, with_ym, nav_ok.
  cbn [ym group current value op set_group set_current].
  assert (minMaxValue (group (ym m)) 0 3 = 0 \/ minMaxValue (group (ym m)) 0 3 = 1
          \/ minMaxValue (group (ym m)) 0 3 = 2 \/ minMaxValue (group (ym m)) 0 3 = 3)
    as [E | [E | [E | E]]] by lia;
    rewrite E; cbn; (split; [exact Ho |]); (split; [lia |]); (split; [lia |]); reflexivity.
Qed.

(** A move inside the group, or a change of operator, leaves a consistent
    cursor. *)
Lemma changeCurrent_nav_ok m : 0 <= group (ym m) <= 3 -> nav_ok (ym (changeCurrent m)).
Proof.
  intros Hg.
  pose proof (minMaxValue_range (op (ym m)) 0 3 ltac:(lia)) as Ho.
  unfold changeCurrent, with_ym, nav_ok. cbv zeta.
  cbn [ym group current value op set_op set_current].
  rewrite (u8_small (minMaxValue (op (ym m)) 0 3)) by lia.
  set (o := minMaxValue (op (ym m)) 0 3) in *.
  assert (group (ym m) = 0 \/ group (ym m) = 1 \/ group (ym m) = 2 \/ group (ym m) = 3)
    as [E | [E | [E | E]]] by lia; rewrite E; cbn [Z.eqb Pos.eqb].
  - pose proof (minMaxValue_range (current (ym m)) 0 3 ltac:(lia)) as Hc.
    set (c := minMaxValue (current (ym m)) 0 3) in *.
    assert (c = 0 \/ c = 1 \/ c = 2 \/ c = 3) as [Ec | [Ec | [Ec | Ec]]] by lia;
      rewrite Ec; cbn; rewrite ?E; cbn; (split; [exact Ho |]); (split; [lia |]);
      (split; [lia |]); reflexivity.
  - pose proof (minMaxValue_range (current (ym m)) 0 4 ltac:(lia)) as Hc.
    set (c := minMaxValue (current (ym m)) 0 4) in *.
    assert (c = 0 \/ c = 1 \/ c = 2 \/ c = 3 \/ c = 4) as [Ec | [Ec | [Ec | [Ec | Ec]]]] by lia;
      rewrite Ec; cbn; rewrite ?E; cbn; (split; [exact Ho |]); (split; [lia |]);
      (split; [lia |]); reflexivity.
  - pose proof (minMaxValue_range (current (ym m)) 0 6 ltac:(lia)) as Hc.
    set (c := minMaxValue (current (ym m)) 0 6) in *.
    assert (c = 0 \/ c = 1 \/ c = 2 \/ c = 3 \/ c = 4 \/ c = 5 \/ c = 6)
      as [Ec | [Ec | [Ec | [Ec | [Ec | [Ec | Ec]]]]]] by lia;
      rewrite Ec; cbn; rewrite ?E; cbn; (split; [exact Ho |]); (split; [lia |]);
      (split; [lia |]); reflexivity.
  - pose proof (minMaxValue_range (current (ym m)) 0 3 ltac:(lia)) as Hc.
    set (c := minMaxValue (current (ym m)) 0 3) in *.
    assert (c = 0 \/ c = 1 \/ c = 2 \/ c = 3) as [Ec | [Ec | [Ec | Ec]]] by lia;
      rewrite Ec; cbn; rewrite ?E; cbn; (split; [exact Ho |]); (split; [lia |]);
      (split; [lia |]); reflexivity.
Qed.

Lemma nav_ok_editing y : nav_ok y -> editing y (value y).
Proof.
  intros (Ho & Hg & Hc & Hv). split; [reflexivity |]. rewrite Hv.
  assert (group y = 0 \/ group y = 1 \/ group y = 2 \/ group y = 3)
    as [E | [E | [E | E]]] by lia; rewrite E in *; cbn [cur_max] in Hc.
  - assert (current y = 0 \/ current y = 1 \/ current y = 2 \/ current y = 3)
      as [Ec | [Ec | [Ec | Ec]]] by lia;
      rewrite Ec; cbn; intros o' Ho'; inversion Ho'; reflexivity.
  - assert (current y = 0 \/ current y = 1 \/ current y = 2 \/ current y = 3
            \/ current y = 4) as [Ec | [Ec | [Ec | [Ec | Ec]]]] by lia;
      rewrite Ec; cbn; intros o' Ho'; inversion Ho'; reflexivity.
  - assert (current y = 0 \/ current y = 1 \/ current y = 2 \/ current y = 3
            \/ current y = 4 \/ current y = 5 \/ current y = 6)
      as [Ec | [Ec | [Ec | [Ec | [Ec | [Ec | Ec]]]]]] by lia;
      rewrite Ec; cbn; intros o' Ho'; inversion Ho'; reflexivity.
  - assert (current y = 0 \/ current y = 1 \/ current y = 2 \/ current y = 3)
      as [Ec | [Ec | [Ec | Ec]]] by lia;
      rewrite Ec; cbn; intros o' Ho'; inversion Ho'; reflexivity.
Qed.

Lemma cursor_eq y y' :
  cursor y' = cursor y ->
  op y' = op y /\ group y' = group y /\ current y' = current y /\ value y' = value y.
Proof. unfold cursor. intros H. injection H as -> -> -> ->. repeat split; reflexivity. Qed.

(** *** Handlers that leave the settings alone *)

Lemma same_settings_refl m : same_settings m m.
Proof. split; [| split]; reflexivity. Qed.

Lemma same_settings_trans m1 m2 m3 :
  same_settings m1 m2 -> same_settings m2 m3 -> same_settings m1 m3.
Proof. intros (A & B & C) (A' & B' & C'). split; [| split]; congruence. Qed.

Lemma same_settings_fold {A} (f : Machine -> A -> Machine) :
  (forall m i, same_settings m (f m i)) ->
  forall idx m, same_settings m (fold_left f idx m).
Proof.
  intros Hf idx. induction idx as [| i idx IH]; intros m; cbn [fold_left].
  - apply same_settings_refl.
  - eapply same_settings_trans; [apply Hf | apply IH].
Qed.

Lemma sendreg_settings flag reg data m : same_settings m (sendreg flag reg data m).
Proof. split; [| split]; reflexivity. Qed.

Lemma note_schedule_settings i N v m : same_settings m (note_schedule i N v m).
Proof. split; [| split]; reflexivity. Qed.

Lemma note_retrigger_settings i m : same_settings m (note_retrigger i m).
Proof. split; [| split]; reflexivity. Qed.

Lemma note_settings N v on m : same_settings m (note N v on m).
Proof.
  unfold note. destruct on.
  - generalize (seq 0 6). intros idx. induction idx as [| i idx IH]; cbn [note_on_loop].
    + apply same_settings_refl.
    + destruct (chan_free (ym m) i); [apply note_schedule_settings |].
      destruct (chan_plays (ym m) i (u8 N)); [apply note_retrigger_settings | exact IH].
  - generalize (seq 0 6). intros idx. induction idx as [| i idx IH]; cbn [note_off_loop].
    + apply same_settings_refl.
    + destruct (chan_plays (ym m) i (u8 N)); [| exact IH].
      split; [| split]; reflexivity.
Qed.

Lemma controller_settings d1 d2 m : same_settings m (controller d1 d2 m).
Proof.
  unfold controller.
  repeat match goal with
  | |- context [if ?c then _ else _] => destruct c
  end; first [apply sendreg_settings | apply same_settings_refl
             | split; [| split]; reflexivity].
Qed.

Lemma aftertouch_settings d1 m : same_settings m (aftertouch d1 m).
Proof.
  unfold aftertouch. destruct (d1 =? 0); rewrite aftertouch_burst_eq;
    (split; [| split]); reflexivity.
Qed.

Lemma all_off_settings m : same_settings m (all_off m).
Proof.
  unfold all_off. apply same_settings_fold. intros m' i.
  split; [| split]; reflexivity.
Qed.

Lemma dispatch3_settings m : same_settings m (dispatch3 m).
Proof.
  unfold dispatch3. cbv zeta.
  destruct (decide (midi_status m = 0x90)) as [-> | H9]; [apply note_settings |].
  destruct (decide (midi_status m = 0x80)) as [-> | H8]; [apply note_settings |].
  destruct (decide (midi_status m = 0xB0)) as [-> | HB]; [apply controller_settings |].
  replace (match midi_status m with
           | 0x90 => note (midi_data1 m) (midi_data2 m) true m
           | 0x80 => note (midi_data1 m) (midi_data2 m) false m
           | 0xB0 => controller (midi_data1 m) (midi_data2 m) m
           | _ => m
           end) with m; [apply same_settings_refl |].
  destruct (midi_status m) as [| p | p]; try reflexivity.
  do 8 (destruct p as [p | p |]; try reflexivity); exfalso; lia.
Qed.

Lemma dispatch2_settings m : same_settings m (dispatch2 m).
Proof.
  unfold dispatch2. cbv zeta.
  destruct (decide (midi_status m = 0xD0)) as [-> | HD]; [apply aftertouch_settings |].
  destruct (decide (midi_status m = 0xE0)) as [-> | HE]; [apply all_off_settings |].
  replace (match midi_status m with
           | 0xD0 => aftertouch (midi_data1 m) m
           | 0xE0 => all_off m
           | _ => m
           end) with m; [apply same_settings_refl |].
  destruct (midi_status m) as [| p | p]; try reflexivity.
  do 8 (destruct p as [p | p |]; try reflexivity); exfalso; lia.
Qed.

(** After the byte is stored the MIDI handler leaves the settings alone. *)
Lemma USART_RX_vect_settings b m :
  same_settings (midi_store (u8 b) m) (USART_RX_vect b m).
Proof.
  unfold USART_RX_vect. cbv zeta.
  destruct (midi_three _); [apply dispatch3_settings |].
  destruct (midi_two _); [apply dispatch2_settings | apply same_settings_refl].
Qed.

Lemma tick_chan_settings m i : same_settings m (tick_chan m i).
Proof.
  unfold tick_chan. cbv zeta.
  destruct (_ && _).
  - apply (same_settings_trans _ (tick_levels i m)).
    + unfold tick_levels. apply same_settings_fold. intros m' o. apply sendreg_settings.
    + split; [| split]; reflexivity.
  - destruct (_ && _); [| apply same_settings_refl].
    destruct (negb _); [| apply same_settings_refl].
    split; [| split]; reflexivity.
Qed.

Lemma TIMER1_OVF_vect_settings m : same_settings m (TIMER1_OVF_vect m).
Proof. unfold TIMER1_OVF_vect. apply same_settings_fold, tick_chan_settings. Qed.

Lemma consistent_same m m' : same_settings m m' -> consistent m -> consistent m'.
Proof.
  intros (A & B & C) (Hn & Hb & Hr). injection A as A1 A2 A3 A4.
  split; [| split].
  - unfold nav_ok. rewrite A1, A2, A3, A4. exact Hn.
  - intros f. unfold in_bounds. rewrite B. apply Hb.
  - rewrite C. exact Hr.
Qed.

(** *** The ring *)

Lemma midi_store_ring data m : ring_ok (glb m) -> ring_ok (glb (midi_store data m)).
Proof.
  intros (Hl & Hi & Hs). unfold midi_store.
  destruct (data <? 0xF8); [| split; [exact Hl | split; assumption]].
  pose proof (minMaxValue_range (int (midiIndex (glb m) + 1)) 0 127 ltac:(lia)) as Hr.
  destruct (Z.land data 0xF0 >=? 0x80); unfold with_glb, ring_ok;
    cbn [glb midiBuf midiIndex msgStart set_midiBuf set_midiIndex set_msgStart];
    rewrite length_insert, ?u8_small by lia;
    (split; [exact Hl | split; [exact Hr | lia]]).
Qed.

(** *** Value editing *)

Lemma restrict_in_bounds f0 m :
  (forall f, f <> f0 -> in_bounds (ym m) f) ->
  forall f,
    in_bounds (ym (restrict f0 (fst (documented_bounds f0)) (snd (documented_bounds f0)) m)) f.
Proof.
  intros H f. unfold in_bounds, restrict. cbn [with_ym ym]. rewrite par_store.
  destruct (decide (f = f0)) as [-> | Hne]; [| apply H, Hne].
  apply minMaxValue_range, documented_bounds_ordered.
Qed.

Lemma changeValue_in_bounds m :
  editing (ym m) (value (ym m)) ->
  (forall f, f <> value (ym m) -> in_bounds (ym m) f) ->
  forall f, in_bounds (ym (changeValue m)) f.
Proof.
  intros [_ Hop] Hb f.
  remember (value (ym m)) as f0 eqn:Hv. symmetry in Hv.
  destruct f0; try (specialize (Hop o eq_refl); subst o);
    unfold changeValue; rewrite Hv; cbv zeta; resolve_chain;
    unfold in_bounds;
    rewrite ?writeToYM_ym, ?write_lfo_ym, ?write_ssgeg_ym;
    try apply preset_in_bounds;
    match goal with
    | |- context [restrict ?g _ _ m] => apply (restrict_in_bounds g m Hb)
    end.
Qed.

Lemma changeValue_settings m :
  cursor (ym (changeValue m)) = cursor (ym m) /\ glb (changeValue m) = glb m.
Proof.
  unfold changeValue. cbv zeta.
  repeat match goal with
  | |- context [decide (?a = ?b)] => destruct (decide (a = b)) as [? | ?]; cbv iota
  end;
  try (destruct (preset_frame (restrict F_patchNum 0 MAX_PRESET m))
         as (_ & _ & _ & _ & -> & ->));
  rewrite ?writeToYM_ym, ?write_lfo_ym, ?write_ssgeg_ym,
    ?writeToYM_glb, ?write_lfo_glb, ?write_ssgeg_glb; split; reflexivity.
Qed.

Lemma edit_value_consistent clockwise m :
  consistent m -> consistent (edit_value clockwise m).
Proof.
  intros (Hn & Hb & Hr). unfold edit_value.
  set (m' := with_ym _ m).
  destruct (changeValue_settings m') as [Ec Eg].
  split; [| split].
  - injection Ec as E1 E2 E3 E4. unfold nav_ok. rewrite E1, E2, E3, E4. exact Hn.
  - apply changeValue_in_bounds.
    + exact (nav_ok_editing _ Hn).
    + intros f Hf. unfold in_bounds. subst m'. cbn [with_ym ym value] in *.
      rewrite par_store. destruct (decide _) as [-> | _]; [contradiction Hf; reflexivity |].
      apply Hb.
  - rewrite Eg. exact Hr.
Qed.

(** *** The cursor steps *)

Lemma step_group_consistent d m : consistent m -> consistent (step_group d m).
Proof.
  intros ((Ho & _) & Hb & Hr). unfold step_group.
  set (m' := with_ym _ m).
  destruct (changeGroup_frame m') as (Ep & _ & _ & _ & _ & _ & Eg & _).
  split; [| split].
  - apply changeGroup_nav_ok. exact Ho.
  - intros f. unfold in_bounds. rewrite Ep. apply Hb.
  - rewrite Eg. exact Hr.
Qed.

Lemma step_current_consistent d m : consistent m -> consistent (step_current d m).
Proof.
  intros ((_ & Hg & _) & Hb & Hr). unfold step_current.
  set (m' := with_ym _ m).
  destruct (changeCurrent_frame m') as (Ep & _ & _ & _ & _ & _ & Eg & _).
  split; [| split].
  - apply changeCurrent_nav_ok. exact Hg.
  - intros f. unfold in_bounds. rewrite Ep. apply Hb.
  - rewrite Eg. exact Hr.
Qed.

Lemma step_op_consistent d m : consistent m -> consistent (step_op d m).
Proof.
  intros ((_ & Hg & _) & Hb & Hr). unfold step_op.
  set (m' := with_ym _ m).
  destruct (changeCurrent_frame m') as (Ep & _ & _ & _ & _ & _ & Eg & _).
  split; [| split].
  - apply changeCurrent_nav_ok. exact Hg.
  - intros f. unfold in_bounds. rewrite Ep. apply Hb.
  - rewrite Eg. exact Hr.
Qed.

(** Whatever the pins, the pin-change handler does nothing to the machine
    but a sequence of cursor steps and detents. *)
Lemma PCINT2_vect_closed (P : Machine -> Prop) :
  (forall d m, P m -> P (step_group d m)) ->
  (forall d m, P m -> P (step_current d m)) ->
  (forall d m, P m -> P (step_op d m)) ->
  (forall clockwise m, P m -> P (edit_value clockwise m)) ->
  forall PIND g m, P m -> P (snd (PCINT2_vect PIND (g, m))).
Proof.
  intros Hg Hc Ho He PIND g m Hm.
  assert (forall cw l r, P (turn cw l r m)) as Ht.
  { intros cw l r. unfold turn.
    destruct (negb (truthy l)); [apply Hc, Hm |].
    destruct (negb (truthy r)); [apply Ho, Hm |].
    destruct (_ && _); [apply He, Hm | exact Hm]. }
  unfold PCINT2_vect. cbv zeta. cbn [fst snd].
  destruct (RPGpinOld g =? _); cbn [snd].
  - destruct (if _ : bool then true else chgGrp g); [| exact Hm].
    destruct (_ && _); destruct (_ && _); try exact Hm; auto.
  - destruct (_ && _); [| exact Hm].
    destruct (_ && _); [apply Ht |].
    destruct (_ && _); [apply Ht | exact Hm].
Qed.

(** *** The start-up state *)

Lemma power_on_consistent : consistent power_on.
Proof.
  unfold power_on.
  set (m0 := mkMachine ym0 glb0 []).
  destruct (changeGroup_frame (preset m0)) as (Ep & Eo & _ & _ & _ & _ & Eg & _).
  destruct (preset_frame m0) as (_ & _ & _ & _ & Ec & Eg').
  apply cursor_eq in Ec as (E1 & _).
  split; [| split].
  - apply changeGroup_nav_ok. rewrite E1. cbn. lia.
  - intros f. unfold in_bounds. rewrite Ep. apply preset_in_bounds.
    intros f'. unfold in_bounds. destruct f'; cbn; lia.
  - rewrite Eg, Eg'. cbn. unfold ring_ok. cbn. repeat split; lia.
Qed.

Lemma handle_consistent e s : consistent (snd s) -> consistent (snd (handle e s)).
Proof.
  intros H. destruct s as [g m]. destruct e as [| b | p]; cbn [handle fst snd] in *.
  - exact (consistent_same _ _ (TIMER1_OVF_vect_settings m) H).
  - apply (consistent_same _ _ (USART_RX_vect_settings b m)).
    destruct H as (Hn & Hb & Hr). destruct (midi_store_frame (u8 b) m) as [Ey _].
    split; [| split]; [rewrite Ey; exact Hn | rewrite Ey; exact Hb |].
    apply midi_store_ring, Hr.
  - apply (PCINT2_vect_closed consistent); auto using step_group_consistent,
      step_current_consistent, step_op_consistent, edit_value_consistent.
Qed.

Lemma run_consistent events s : consistent (snd s) -> consistent (snd (run events s)).
Proof.
  unfold run. revert s. induction events as [| e events IH]; intros s H; cbn [fold_left].
  - exact H.
  - apply IH, handle_consistent, H.
Qed.

(** X13: in every state that the three handlers can reach from power-on, the
    cursor is consistent: the operator is 0 to 3, the group is 0 to 3, the
    parameter index is inside its group and [ym.value] points to the
    parameter that group, index and operator select. *)
Theorem cursor_always_consistent (events : list Event) (PIND : Z) :
  nav_ok (ym (snd (run events (start PIND)))).
Proof. apply (run_consistent events (start PIND)), power_on_consistent. Qed.

(** X14: in every state that the three handlers can reach from power-on,
    every parameter of the store, the four release rates included, lies
    within its documented bounds. *)
Theorem parameters_always_in_bounds (events : list Event) (PIND : Z) (f : Field) :
  fst (documented_bounds f) <= par (ym (snd (run events (start PIND)))) f
  <= snd (documented_bounds f).
Proof.
  destruct (run_consistent events (start PIND) power_on_consistent) as (_ & H & _).
  apply H.
Qed.

(** X15: in every state that the three handlers can reach from power-on, the
    write index and the message start of the MIDI ring are inside the
    128-byte buffer; the handler never stores a byte outside it. *)
Theorem ring_always_in_range (events : list Event) (PIND : Z) :
  ring_ok (glb (snd (run events (start PIND)))).
Proof.
  destruct (run_consistent events (start PIND) power_on_consistent) as (_ & _ & H).
  exact H.
Qed.

(** * Framing of MIDI messages at every ring position *)

Lemma machine_eta m : m = mkMachine (ym m) (glb m) (sink m).
Proof. destruct m. reflexivity. Qed.

Lemma midi_store_ring_store data m :
  0 <= data < 0xF8 -> 0 <= midiIndex (glb m) <= 127 ->
  midi_store data m = mkMachine (ym m) (ring_store data (glb m)) (sink m).
Proof. exact (midi_store_eq data m). Qed.

Lemma midi_store_real_time data m : 0xF8 <= data -> midi_store data m = m.
Proof.
  intros H. unfold midi_store.
  replace (data <? 0xF8) with false by (symmetry; apply Z.ltb_ge; lia). reflexivity.
Qed.

Lemma status_nibble s :
  0 <= s < 256 -> Z.land s 0xF0 <= s < Z.land s 0xF0 + 16.
Proof.
  intros H.
  pose proof (byte_forall (fun b => (Z.land b 0xF0 <=? b) && (b <? Z.land b 0xF0 + 16))
                ltac:(vm_compute; reflexivity) s H) as E.
  cbv beta in E. apply andb_prop in E as [E1 E2].
  apply Z.leb_le in E1. apply Z.ltb_lt in E2. lia.
Qed.

Lemma status_byte s : 0x80 <= s < 256 -> (Z.land s 0xF0 >=? 0x80) = true.
Proof.
  intros H.
  pose proof (byte_forall (fun b => implb (0x80 <=? b) (Z.land b 0xF0 >=? 0x80))
                ltac:(vm_compute; reflexivity) s ltac:(lia)) as E.
  cbv beta in E. replace (0x80 <=? s) with true in E by (symmetry; apply Z.leb_le; lia).
  exact E.
Qed.

Lemma ring_next_range k : 0 <= k <= 127 -> 0 <= ring_next k <= 127.
Proof. intros H. unfold ring_next. destruct (k <? 127) eqn:E; [apply Z.ltb_lt in E |]; lia. Qed.

(** The two completeness tests look at the two indices only. *)
Lemma midi_tests_indices y g snk :
  midi_three (mkMachine y g snk)
  = midi_three (mkMachine ym0 (mkGlobalVars [] (midiIndex g) (msgStart g)) [])
  /\ midi_two (mkMachine y g snk)
     = midi_two (mkMachine ym0 (mkGlobalVars [] (midiIndex g) (msgStart g)) []).
Proof. split; reflexivity. Qed.

Lemma ring_forall (P : Z -> bool) :
  forallb P (map Z.of_nat (seq 0 128)) = true ->
  forall k, 0 <= k <= 127 -> P k = true.
Proof.
  intros H k Hk. rewrite forallb_forall in H. apply H.
  apply in_map_iff. exists (Z.to_nat k). split; [lia |].
  apply in_seq. lia.
Qed.

(** The tests one, two and three bytes after a status byte stored at [k]. *)
Lemma ring_tests_at k :
  0 <= k <= 127 ->
  let at_ (idx : Z) := mkMachine ym0 (mkGlobalVars [] idx k) [] in
  midi_three (at_ (ring_next k)) = false
  /\ midi_two (at_ (ring_next k)) = false
  /\ midi_three (at_ (ring_next (ring_next k))) = false
  /\ midi_two (at_ (ring_next (ring_next k))) = true
  /\ midi_three (at_ (ring_next (ring_next (ring_next k)))) = negb (k =? 125)
  /\ midi_two (at_ (ring_next (ring_next (ring_next k)))) = false.
Proof.
  intros Hk at_.
  pose proof (ring_forall
    (fun k =>
       let at_ (idx : Z) := mkMachine ym0 (mkGlobalVars [] idx k) [] in
       negb (midi_three (at_ (ring_next k)))
       && negb (midi_two (at_ (ring_next k)))
       && negb (midi_three (at_ (ring_next (ring_next k))))
       && midi_two (at_ (ring_next (ring_next k)))
       && Bool.eqb (midi_three (at_ (ring_next (ring_next (ring_next k))))) (negb (k =? 125))
       && negb (midi_two (at_ (ring_next (ring_next (ring_next k))))))
    ltac:(vm_compute; reflexivity) k Hk) as E.
  cbv beta zeta in E. fold at_ in E.
  do 5 (apply andb_prop in E as [E ?]).
  repeat match goal with
  | H : negb _ = true |- _ => apply negb_true_iff in H
  | H : Bool.eqb _ _ = true |- _ => apply Bool.eqb_prop in H
  end.
  repeat split; assumption.
Qed.

Lemma ring_next_distinct k :
  0 <= k <= 127 ->
  ring_next k <> k /\ ring_next (ring_next k) <> k
  /\ ring_next (ring_next k) <> ring_next k
  /\ 0 <= ring_next k <= 127 /\ 0 <= ring_next (ring_next k) <= 127.
Proof.
  intros H. unfold ring_next.
  destruct (k <? 127) eqn:E1; [apply Z.ltb_lt in E1 | apply Z.ltb_ge in E1].
  - destruct (k + 1 <? 127) eqn:E2; [apply Z.ltb_lt in E2 | apply Z.ltb_ge in E2]; lia.
  - cbn. lia.
Qed.

(** The two data bytes are read from the two ring positions that follow the
    status byte. *)
Lemma midi_data_next m :
  0 <= msgStart (glb m) <= 127 ->
  midi_data1 m = buf m (ring_next (msgStart (glb m)))
  /\ midi_data2 m = buf m (ring_next (ring_next (msgStart (glb m)))).
Proof.
  intros H. unfold midi_data1, midi_data2, ring_next.
  assert (msgStart (glb m) <= 125 \/ msgStart (glb m) = 126 \/ msgStart (glb m) = 127)
    as [E | [-> | ->]] by lia; [| split; reflexivity ..].
  decide_tests. cbv iota. replace (msgStart (glb m) + 1 + 1) with (msgStart (glb m) + 2) by lia.
  split; reflexivity.
Qed.

Ltac lookup_ring :=
  repeat first
    [ rewrite list_lookup_total_insert_eq by (rewrite ?length_insert; lia)
    | rewrite list_lookup_total_insert_ne by lia ].

(** After the status byte no message is complete. *)
Lemma ring_stage1 (g : GlobalVars) (s : Z) y snk :
  0 <= midiIndex g <= 127 -> 0x80 <= s < 0xF8 ->
  midi_three (mkMachine y (ring_store s g) snk) = false
  /\ midi_two (mkMachine y (ring_store s g) snk) = false.
Proof.
  intros Hk Hs.
  pose proof (status_byte s ltac:(lia)) as Hs'.
  destruct (ring_tests_at _ Hk) as (A & B & _).
  destruct (midi_tests_indices y (ring_store s g) snk) as [-> ->].
  unfold ring_store. cbn [midiIndex msgStart]. rewrite Hs'. split; assumption.
Qed.

(** After the first data byte a two-byte message is complete, at every ring
    position. *)
Lemma ring_stage2 (g : GlobalVars) (s c : Z) y snk :
  length (midiBuf g) = 128%nat -> 0 <= midiIndex g <= 127 ->
  0x80 <= s < 0xF8 -> 0 <= c < 0x80 ->
  midi_three (mkMachine y (ring_store c (ring_store s g)) snk) = false
  /\ midi_two (mkMachine y (ring_store c (ring_store s g)) snk) = true
  /\ midi_status (mkMachine y (ring_store c (ring_store s g)) snk) = Z.land s 0xF0
  /\ midi_data1 (mkMachine y (ring_store c (ring_store s g)) snk) = c.
Proof.
  intros Hlen Hk Hs Hc.
  pose proof (status_byte s ltac:(lia)) as Hs'.
  pose proof (data_byte_no_status c Hc) as Hc'.
  destruct (ring_tests_at _ Hk) as (_ & _ & A & B & _).
  destruct (ring_next_distinct _ Hk) as (N1 & N2 & N3 & R1 & R2).
  destruct (midi_tests_indices y (ring_store c (ring_store s g)) snk) as [-> ->].
  assert (msgStart (ring_store c (ring_store s g)) = midiIndex g) as Est
    by (unfold ring_store; cbn [midiIndex msgStart]; rewrite Hs', Hc'; reflexivity).
  split; [rewrite Est; exact A |]. split; [rewrite Est; exact B |].
  destruct (midi_data_next (mkMachine y (ring_store c (ring_store s g)) snk)) as [-> _];
    [cbn [glb]; rewrite Est; exact Hk |].
  unfold midi_status, buf. cbn [glb]. rewrite Est.
  unfold ring_store. cbn [midiBuf midiIndex msgStart].
  split; lookup_ring; reflexivity.
Qed.

(** After the second data byte a three-byte message is complete unless its
    status byte was stored at ring index 125. *)
Lemma ring_stage3 (g : GlobalVars) (s c d : Z) y snk :
  length (midiBuf g) = 128%nat -> 0 <= midiIndex g <= 127 ->
  0x80 <= s < 0xF8 -> 0 <= c < 0x80 -> 0 <= d < 0x80 ->
  midi_three (mkMachine y (ring_store d (ring_store c (ring_store s g))) snk)
  = negb (midiIndex g =? 125)
  /\ midi_two (mkMachine y (ring_store d (ring_store c (ring_store s g))) snk) = false
  /\ midi_status (mkMachine y (ring_store d (ring_store c (ring_store s g))) snk)
     = Z.land s 0xF0
  /\ midi_data1 (mkMachine y (ring_store d (ring_store c (ring_store s g))) snk) = c
  /\ midi_data2 (mkMachine y (ring_store d (ring_store c (ring_store s g))) snk) = d.
Proof.
  intros Hlen Hk Hs Hc Hd.
  pose proof (status_byte s ltac:(lia)) as Hs'.
  pose proof (data_byte_no_status c Hc) as Hc'.
  pose proof (data_byte_no_status d Hd) as Hd'.
  destruct (ring_tests_at _ Hk) as (_ & _ & _ & _ & A & B).
  destruct (ring_next_distinct _ Hk) as (N1 & N2 & N3 & R1 & R2).
  destruct (midi_tests_indices y (ring_store d (ring_store c (ring_store s g))) snk)
    as [-> ->].
  assert (msgStart (ring_store d (ring_store c (ring_store s g))) = midiIndex g) as Est
    by (unfold ring_store; cbn [midiIndex msgStart]; rewrite Hs', Hc', Hd'; reflexivity).
  split; [rewrite Est; exact A |]. split; [rewrite Est; exact B |].
  destruct (midi_data_next (mkMachine y (ring_store d (ring_store c (ring_store s g))) snk))
    as [-> ->]; [cbn [glb]; rewrite Est; exact Hk |].
  unfold midi_status, buf. cbn [glb]. rewrite Est.
  unfold ring_store. cbn [midiBuf midiIndex msgStart].
  split; [| split]; lookup_ring; reflexivity.
Qed.

(** The voice allocator, the all-notes-off and the aftertouch burst neither
    read nor write the ring. *)
Lemma note_ring N v on y g g' snk :
  note N v on (mkMachine y g snk)
  = mkMachine (ym (note N v on (mkMachine y g' snk))) g
      (sink (note N v on (mkMachine y g' snk))).
Proof.
  unfold note. destruct on.
  - generalize (seq 0 6). intros idx. induction idx as [| i idx IH]; cbn [note_on_loop ym].
    + reflexivity.
    + destruct (chan_free y i); [reflexivity |].
      destruct (chan_plays y i (u8 N)); [reflexivity | exact IH].
  - generalize (seq 0 6). intros idx. induction idx as [| i idx IH]; cbn [note_off_loop ym].
    + reflexivity.
    + destruct (chan_plays y i (u8 N)); [reflexivity | exact IH].
Qed.

Lemma all_off_ring y g g' snk :
  all_off (mkMachine y g snk)
  = mkMachine (ym (all_off (mkMachine y g' snk))) g (sink (all_off (mkMachine y g' snk))).
Proof.
  unfold all_off. generalize (seq 0 6). intros idx. revert y snk.
  induction idx as [| i idx IH]; intros y snk; cbn [fold_left].
  - reflexivity.
  - unfold sendreg at 2 4 6. unfold with_ym at 2 4 6. cbn [ym glb sink]. apply IH.
Qed.

Lemma aftertouch_ring p y g g' snk :
  aftertouch p (mkMachine y g snk)
  = mkMachine (ym (aftertouch p (mkMachine y g' snk))) g
      (sink (aftertouch p (mkMachine y g' snk))).
Proof. unfold aftertouch. destruct (p =? 0); rewrite !aftertouch_burst_eq; reflexivity. Qed.

Lemma dispatch3_other m :
  midi_status m <> 0x90 -> midi_status m <> 0x80 -> midi_status m <> 0xB0 -> dispatch3 m = m.
Proof.
  intros H9 H8 HB. unfold dispatch3. cbv zeta.
  destruct (midi_status m) as [| p | p]; try reflexivity.
  do 8 (destruct p as [p | p |]; try reflexivity); exfalso; lia.
Qed.

Lemma dispatch2_other m :
  midi_status m <> 0xD0 -> midi_status m <> 0xE0 -> dispatch2 m = m.
Proof.
  intros HD HE. unfold dispatch2. cbv zeta.
  destruct (midi_status m) as [| p | p]; try reflexivity.
  do 8 (destruct p as [p | p |]; try reflexivity); exfalso; lia.
Qed.

(** The handler on a status byte and one data byte, at every ring position:
    the two-byte dispatch runs once, on the ring that holds the two bytes. *)
Lemma feed_two (m : Machine) (s c : Z) :
  length (midiBuf (glb m)) = 128%nat -> 0 <= midiIndex (glb m) <= 127 ->
  0x80 <= s < 0xF8 -> 0 <= c < 0x80 ->
  feed [s; c] m = dispatch2 (mkMachine (ym m) (ring_store c (ring_store s (glb m))) (sink m)).
Proof.
  intros Hlen Hk Hs Hc. unfold feed. cbn [fold_left].
  assert (USART_RX_vect s m = mkMachine (ym m) (ring_store s (glb m)) (sink m)) as E1.
  { unfold USART_RX_vect. cbv zeta. rewrite (u8_small s) by lia.
    rewrite midi_store_ring_store by lia.
    destruct (ring_stage1 (glb m) s (ym m) (sink m) Hk ltac:(lia)) as [-> ->]. reflexivity. }
  rewrite E1. unfold USART_RX_vect. cbv zeta. rewrite (u8_small c) by lia.
  rewrite midi_store_ring_store
    by (cbn [glb ring_store midiIndex]; first [lia | apply ring_next_range; lia]).
  cbn [ym glb sink].
  destruct (ring_stage2 (glb m) s c (ym m) (sink m) Hlen Hk ltac:(lia) Hc) as (-> & -> & _).
  reflexivity.
Qed.

(** The handler on a status byte and two data bytes, at every ring position. *)
Lemma feed_message (m : Machine) (s c d : Z) :
  length (midiBuf (glb m)) = 128%nat -> 0 <= midiIndex (glb m) <= 127 ->
  0x80 <= s < 0xF8 -> 0 <= c < 0x80 -> 0 <= d < 0x80 ->
  feed [s; c; d] m =
    (let m2 := dispatch2 (mkMachine (ym m) (ring_store c (ring_store s (glb m))) (sink m)) in
     let m3 := mkMachine (ym m2) (ring_store d (ring_store c (ring_store s (glb m))))
                 (sink m2) in
     if midiIndex (glb m) =? 125 then m3 else dispatch3 m3).
Proof.
  intros Hlen Hk Hs Hc Hd. rewrite feed_three, feed_two by assumption. cbv zeta.
  set (m2 := dispatch2 _).
  assert (glb m2 = ring_store c (ring_store s (glb m))) as Eg
    by (destruct (dispatch2_settings
                    (mkMachine (ym m) (ring_store c (ring_store s (glb m))) (sink m)))
          as (_ & _ & E); exact E).
  unfold USART_RX_vect. cbv zeta. rewrite (u8_small d) by lia.
  destruct (ring_next_distinct _ Hk) as (_ & _ & _ & _ & R2).
  rewrite midi_store_ring_store by (rewrite ?Eg; cbn [ring_store midiIndex]; lia).
  rewrite Eg.
  destruct (ring_stage3 (glb m) s c d (ym m2) (sink m2) Hlen Hk ltac:(lia) Hc Hd)
    as (-> & -> & _).
  destruct (midiIndex (glb m) =? 125); reflexivity.
Qed.

(** X16: a note-on or note-off message (status byte with upper nibble 0x90
    or 0x80, any MIDI channel) reaches the voice allocator once, with the note
    and velocity of the message, wherever in the ring its status byte is
    stored, index 125 excepted.  A note-on with velocity 0 is a note-on like
    any other. *)
Theorem note_message_dispatched (m : Machine) (s n v : Z) (on : bool) :
  ring_ok (glb m) -> midiIndex (glb m) <> 125 ->
  0 <= s < 256 -> Z.land s 0xF0 = (if on then 0x90 else 0x80) ->
  0 <= n < 0x80 -> 0 <= v < 0x80 ->
  ym (feed [s; n; v] m) = ym (note n v on m)
  /\ sink (feed [s; n; v] m) = sink (note n v on m)
  /\ glb (feed [s; n; v] m) = ring_store v (ring_store n (ring_store s (glb m))).
Proof.
  intros (Hlen & Hk & _) H125 Hs Hst Hn Hv.
  pose proof (status_nibble s Hs) as Hnib.
  assert (0x80 <= s < 0xF8) as Hs' by (destruct on; lia).
  rewrite feed_message by assumption. cbv zeta.
  destruct (ring_stage2 (glb m) s n (ym m) (sink m) Hlen Hk Hs' Hn) as (_ & _ & S2 & _).
  rewrite dispatch2_other by (rewrite S2, Hst; destruct on; discriminate).
  cbn [ym sink].
  replace (midiIndex (glb m) =? 125) with false by (symmetry; apply Z.eqb_neq; exact H125).
  destruct (ring_stage3 (glb m) s n v (ym m) (sink m) Hlen Hk Hs' Hn Hv)
    as (_ & _ & S3 & D1 & D2).
  assert (dispatch3 (mkMachine (ym m) (ring_store v (ring_store n (ring_store s (glb m))))
                       (sink m))
          = note n v on (mkMachine (ym m) (ring_store v (ring_store n (ring_store s (glb m))))
                           (sink m))) as ->.
  { unfold dispatch3. rewrite S3, D1, D2, Hst. destruct on; reflexivity. }
  rewrite (note_ring n v on (ym m) _ (glb m) (sink m)), <- machine_eta.
  split; [reflexivity |]. split; reflexivity.
Qed.

Lemma note_message_dispatched_witness :
  ring_ok (glb power_on)
  /\ sink (feed [0x93; 60; 0] power_on) = sink (note 60 0 true power_on).
Proof.
  assert (ring_ok (glb power_on)) as Hr
    by (split; [| split]; vm_compute; [reflexivity | split; discriminate ..]).
  split; [exact Hr |].
  refine (proj1 (proj2 (note_message_dispatched power_on 0x93 60 0 true Hr _ _ _ _ _)));
    vm_compute; first [reflexivity | discriminate | split; [discriminate | reflexivity]].
Defined.

(** X17: a message of a three-byte kind (status 0x80 to 0xCF) whose status
    byte is stored at ring index 125 is dropped: after its three bytes the
    parameter store, the channel arrays and the sink are what they were, and
    the write index is 0. *)
Theorem message_at_ring_125_dropped (m : Machine) (s c d : Z) :
  ring_ok (glb m) -> midiIndex (glb m) = 125 ->
  0x80 <= s < 0xD0 -> 0 <= c < 0x80 -> 0 <= d < 0x80 ->
  ym (feed [s; c; d] m) = ym m
  /\ sink (feed [s; c; d] m) = sink m
  /\ midiIndex (glb (feed [s; c; d] m)) = 0.
Proof.
  intros (Hlen & Hk & _) H125 Hs Hc Hd.
  pose proof (status_nibble s ltac:(lia)) as Hnib.
  rewrite feed_message by (first [assumption | lia]). cbv zeta.
  destruct (ring_stage2 (glb m) s c (ym m) (sink m) Hlen Hk ltac:(lia) Hc) as (_ & _ & S2 & _).
  rewrite dispatch2_other by (rewrite S2; lia).
  rewrite H125. cbn [Z.eqb Pos.eqb ym sink glb].
  split; [reflexivity |]. split; [reflexivity |].
  unfold ring_store. cbn [midiIndex]. rewrite H125. reflexivity.
Qed.

Lemma message_at_ring_125_dropped_witness :
  ring_ok (glb st_ring_125)
  /\ sink (feed [0x90; 60; 100] st_ring_125) = sink st_ring_125.
Proof.
  assert (ring_ok (glb st_ring_125)) as Hr
    by (split; [| split]; vm_compute; [reflexivity | split; discriminate ..]).
  split; [exact Hr |].
  refine (proj1 (proj2 (message_at_ring_125_dropped st_ring_125 0x90 60 100 Hr _ _ _ _)));
    vm_compute; first [reflexivity | split; [discriminate | reflexivity]].
Defined.

(** X18: the two short dispatches fire on the second byte, at every ring
    position.  A status byte with upper nibble 0xD0 and its data byte run the
    aftertouch burst; a status byte with upper nibble 0xE0 (pitch bend) and
    its first data byte switch every channel off, and the second data byte of
    the pitch-bend message changes nothing more. *)
Theorem short_messages_dispatched (m : Machine) (s c d : Z) :
  ring_ok (glb m) -> 0 <= s < 256 -> 0 <= c < 0x80 -> 0 <= d < 0x80 ->
  (Z.land s 0xF0 = 0xD0 ->
     ym (feed [s; c] m) = ym (aftertouch c m)
     /\ sink (feed [s; c] m) = sink (aftertouch c m))
  /\ (Z.land s 0xF0 = 0xE0 ->
        ym (feed [s; c] m) = ym (all_off m)
        /\ sink (feed [s; c] m) = sink (all_off m)
        /\ ym (feed [s; c; d] m) = ym (all_off m)
        /\ sink (feed [s; c; d] m) = sink (all_off m)).
Proof.
  intros (Hlen & Hk & _) Hs Hc Hd.
  pose proof (status_nibble s Hs) as Hnib.
  split; intros Hst.
  - assert (0x80 <= s < 0xF8) as Hs' by lia.
    rewrite feed_two by assumption.
    destruct (ring_stage2 (glb m) s c (ym m) (sink m) Hlen Hk Hs' Hc) as (_ & _ & S2 & D1).
    unfold dispatch2. rewrite S2, D1, Hst. cbv iota.
    rewrite (aftertouch_ring c (ym m) _ (glb m) (sink m)), <- machine_eta.
    split; reflexivity.
  - assert (0x80 <= s < 0xF8) as Hs' by lia.
    destruct (ring_stage2 (glb m) s c (ym m) (sink m) Hlen Hk Hs' Hc) as (_ & _ & S2 & D1).
    assert (dispatch2 (mkMachine (ym m) (ring_store c (ring_store s (glb m))) (sink m))
            = mkMachine (ym (all_off m)) (ring_store c (ring_store s (glb m)))
                (sink (all_off m))) as E2.
    { unfold dispatch2. rewrite S2, Hst. cbv iota.
      rewrite (all_off_ring (ym m) _ (glb m) (sink m)), <- machine_eta. reflexivity. }
    rewrite feed_message, feed_two by assumption. cbv zeta. rewrite E2. cbn [ym sink].
    split; [reflexivity |]. split; [reflexivity |].
    destruct (ring_stage3 (glb m) s c d (ym (all_off m)) (sink (all_off m)) Hlen Hk Hs' Hc Hd)
      as (_ & _ & S3 & _).
    rewrite dispatch3_other by (rewrite S3, Hst; discriminate).
    destruct (midiIndex (glb m) =? 125); split; reflexivity.
Qed.

Lemma short_messages_dispatched_witness :
  ring_ok (glb st_sounding)
  /\ sink (feed [0xE0; 0; 64] st_sounding) = sink (all_off st_sounding).
Proof.
  assert (ring_ok (glb st_sounding)) as Hr
    by (split; [| split]; vm_compute; [reflexivity | split; discriminate ..]).
  split; [exact Hr |].
  refine (proj2 (proj2 (proj2 (proj2 (short_messages_dispatched st_sounding 0xE0 0 64
            Hr _ _ _) _))));
    vm_compute; first [reflexivity | split; [discriminate | reflexivity]].
Defined.

(** X19: a real-time byte (0xF8 to 0xFF) is not stored, but the handler
    still runs its completeness test on the unchanged ring.  Arriving right
    after a complete note message it sends the same note to the voice
    allocator a second time: after a note-on a second channel is taken for
    the same key as long as one is free. *)
Theorem real_time_byte_repeats_note (m : Machine) (s n v rt : Z) (on : bool) :
  ring_ok (glb m) -> midiIndex (glb m) <> 125 ->
  0 <= s < 256 -> Z.land s 0xF0 = (if on then 0x90 else 0x80) ->
  0 <= n < 0x80 -> 0 <= v < 0x80 -> 0xF8 <= rt < 256 ->
  ym (feed [s; n; v; rt] m) = ym (note n v on (note n v on m))
  /\ sink (feed [s; n; v; rt] m) = sink (note n v on (note n v on m)).
Proof.
  intros (Hlen & Hk & _) H125 Hs Hst Hn Hv Hrt.
  pose proof (status_nibble s Hs) as Hnib.
  assert (0x80 <= s < 0xF8) as Hs' by (destruct on; lia).
  change (feed [s; n; v; rt] m) with (USART_RX_vect rt (feed [s; n; v] m)).
  rewrite feed_message by assumption. cbv zeta.
  destruct (ring_stage2 (glb m) s n (ym m) (sink m) Hlen Hk Hs' Hn) as (_ & _ & S2 & _).
  rewrite dispatch2_other by (rewrite S2, Hst; destruct on; discriminate).
  cbn [ym sink].
  replace (midiIndex (glb m) =? 125) with false by (symmetry; apply Z.eqb_neq; exact H125).
  set (g3 := ring_store v (ring_store n (ring_store s (glb m)))).
  assert (forall y snk, dispatch3 (mkMachine y g3 snk) = note n v on (mkMachine y g3 snk))
    as Hd3.
  { intros y snk.
    destruct (ring_stage3 (glb m) s n v y snk Hlen Hk Hs' Hn Hv) as (_ & _ & S3 & D1 & D2).
    fold g3 in S3, D1, D2.
    unfold dispatch3. rewrite S3, D1, D2, Hst. destruct on; reflexivity. }
  rewrite Hd3. rewrite (note_ring n v on (ym m) g3 (glb m) (sink m)), <- machine_eta.
  unfold USART_RX_vect. cbv zeta. rewrite (u8_small rt) by lia.
  rewrite midi_store_real_time by lia.
  destruct (ring_stage3 (glb m) s n v (ym (note n v on m))
              (sink (note n v on m)) Hlen Hk Hs' Hn Hv) as (T3 & _).
  fold g3 in T3. rewrite T3.
  replace (midiIndex (glb m) =? 125) with false by (symmetry; apply Z.eqb_neq; exact H125).
  cbn [negb]. rewrite Hd3.
  rewrite (note_ring n v on (ym (note n v on m)) g3 (glb (note n v on m))
             (sink (note n v on m))), <- machine_eta.
  split; reflexivity.
Qed.

Lemma real_time_byte_repeats_note_witness :
  ring_ok (glb power_on)
  /\ map (fun i => nr_note (row (feed [0x90; 60; 100; 0xF8] power_on) i)) [0; 1; 2]%nat
     = [60; 60; 0].
Proof.
  assert (ring_ok (glb power_on)) as Hr
    by (split; [| split]; vm_compute; [reflexivity | split; discriminate ..]).
  split; [exact Hr |].
  unfold row.
  rewrite (proj1 (real_time_byte_repeats_note power_on 0x90 60 100 0xF8 true Hr
                    ltac:(vm_compute; discriminate) ltac:(lia) ltac:(reflexivity)
                    ltac:(lia) ltac:(lia) ltac:(lia))).
  vm_compute. reflexivity.
Defined.

(** * The slave controller *)

Ltac slave_eval :=
  cbv beta iota zeta delta
    [Slave.setreg123 Slave.setreg456 Slave.ymWrite Slave.ctrl_and Slave.ctrl_or
     Slave.glb Slave.YM_CTRL_PORT Slave.YM_DATA_PORT Slave.strobes].

Lemma slave_setreg123 r d st :
  Slave.YM_CTRL_PORT st = 7 ->
  Slave.setreg123 r d st
  = Slave.mkState (Slave.glb st) 7 (u8 d) (Slave.strobes st ++ [(4, u8 r); (12, u8 d)]).
Proof.
  destruct st as [g c dp s]. cbn [Slave.glb Slave.YM_CTRL_PORT Slave.strobes].
  intros ->. slave_eval. rewrite <- app_assoc. reflexivity.
Qed.

Lemma slave_setreg456 r d st :
  Slave.YM_CTRL_PORT st = 7 ->
  Slave.setreg456 r d st
  = Slave.mkState (Slave.glb st) 7 (u8 d) (Slave.strobes st ++ [(20, u8 r); (28, u8 d)]).
Proof.
  destruct st as [g c dp s]. cbn [Slave.glb Slave.YM_CTRL_PORT Slave.strobes].
  intros ->. slave_eval. rewrite <- app_assoc. reflexivity.
Qed.

(** Between two writes the control port is where [main] left it. *)
Lemma slave_setreg_eq r d f st :
  Slave.YM_CTRL_PORT st = 7 ->
  exists new,
    Slave.setreg r d f st
    = Slave.mkState (Slave.glb st) 7 (u8 d) (Slave.strobes st ++ new)
    /\ map Slave.seen new = Slave.frame_writes (u8 f, u8 r, u8 d).
Proof.
  intros H. unfold Slave.setreg, Slave.frame_writes. cbn [fst snd].
  destruct (u8 f) as [| p | p].
  - rewrite slave_setreg123 by exact H. eexists. split; reflexivity.
  - destruct p as [p | p |].
    + rewrite slave_setreg123, slave_setreg456 by (first [exact H | reflexivity]).
      cbn [Slave.glb Slave.strobes]. rewrite <- app_assoc. eexists. split; reflexivity.
    + rewrite slave_setreg123, slave_setreg456 by (first [exact H | reflexivity]).
      cbn [Slave.glb Slave.strobes]. rewrite <- app_assoc. eexists. split; reflexivity.
    + rewrite slave_setreg456 by exact H. eexists. split; reflexivity.
  - rewrite slave_setreg123, slave_setreg456 by (first [exact H | reflexivity]).
    cbn [Slave.glb Slave.strobes]. rewrite <- app_assoc. eexists. split; reflexivity.
Qed.

Ltac slave_step :=
  cbv beta iota zeta delta
    [Slave.SPI_STC_vect Slave.set_glb Slave.glb Slave.YM_CTRL_PORT Slave.YM_DATA_PORT
     Slave.strobes Slave.inCnt Slave.YM_reg Slave.YM_data Slave.writeFlag].

(** The three interrupts of a frame, one by one. *)
Lemma slave_flag_byte b yr yd wf0 cp dp sb :
  Slave.SPI_STC_vect b (Slave.mkState (Slave.mkGlobal yr yd wf0 0) cp dp sb)
  = Slave.mkState (Slave.mkGlobal yr yd (u8 b) 1) cp dp sb.
Proof. slave_step. reflexivity. Qed.

Lemma slave_reg_byte b yr yd wf0 cp dp sb :
  Slave.SPI_STC_vect b (Slave.mkState (Slave.mkGlobal yr yd wf0 1) cp dp sb)
  = Slave.mkState (Slave.mkGlobal (u8 b) yd wf0 2) cp dp sb.
Proof. slave_step. reflexivity. Qed.

Lemma slave_data_byte b yr yd wf0 dp sb :
  exists new,
    Slave.SPI_STC_vect b (Slave.mkState (Slave.mkGlobal yr yd wf0 2) 7 dp sb)
    = Slave.mkState (Slave.mkGlobal yr (u8 b) wf0 0) 7 (u8 (u8 b)) (sb ++ new)
    /\ map Slave.seen new = Slave.frame_writes (u8 wf0, u8 yr, u8 (u8 b)).
Proof.
  destruct (slave_setreg_eq yr (u8 b) wf0
              (Slave.mkState (Slave.mkGlobal yr (u8 b) wf0 2) 7 dp sb) eq_refl)
    as (new & E & V).
  exists new. split; [| exact V].
  slave_step. rewrite E. slave_step. reflexivity.
Qed.

(** Three interrupts from the start of a frame. *)
Lemma slave_frame a b c st :
  Slave.inCnt (Slave.glb st) = 0 -> Slave.YM_CTRL_PORT st = 7 ->
  Slave.inCnt (Slave.glb (Slave.spi_run [a; b; c] st)) = 0
  /\ Slave.YM_CTRL_PORT (Slave.spi_run [a; b; c] st) = 7
  /\ exists new,
       Slave.strobes (Slave.spi_run [a; b; c] st) = Slave.strobes st ++ new
       /\ map Slave.seen new = Slave.frame_writes (u8 a, u8 b, u8 c).
Proof.
  destruct st as [[yr yd wf0 ic] cp dp sb].
  cbn [Slave.glb Slave.YM_CTRL_PORT Slave.strobes Slave.inCnt].
  intros -> ->. unfold Slave.spi_run. cbn [fold_left].
  rewrite slave_flag_byte, slave_reg_byte.
  destruct (slave_data_byte c (u8 b) yd (u8 a) dp sb) as (new & -> & V).
  pose proof (u8_range a). pose proof (u8_range b). pose proof (u8_range c).
  rewrite !(u8_small (u8 _)) in V by lia.
  split; [reflexivity |]. split; [reflexivity |].
  exists new. split; [reflexivity | exact V].
Qed.

Lemma slave_main_idle :
  Slave.inCnt (Slave.glb Slave.main) = 0
  /\ Slave.YM_CTRL_PORT Slave.main = 7
  /\ map Slave.seen (Slave.strobes Slave.main) = slave_init_writes.
Proof. split; [| split]; vm_compute; reflexivity. Qed.

Lemma slave_run_app a b st :
  Slave.spi_run (a ++ b) st = Slave.spi_run b (Slave.spi_run a st).
Proof. unfold Slave.spi_run. apply fold_left_app. Qed.

(** The handler from a frame boundary, over any number of bytes. *)
Lemma slave_run_frames (n : nat) :
  forall bytes st,
    (length bytes <= n)%nat ->
    Slave.inCnt (Slave.glb st) = 0 -> Slave.YM_CTRL_PORT st = 7 ->
    Slave.inCnt (Slave.glb (Slave.spi_run bytes st)) = Z.of_nat (length bytes mod 3)
    /\ Slave.YM_CTRL_PORT (Slave.spi_run bytes st) = 7
    /\ map Slave.seen (Slave.strobes (Slave.spi_run bytes st))
       = map Slave.seen (Slave.strobes st)
         ++ flat_map Slave.frame_writes (Slave.frames (map u8 bytes)).
Proof.
  induction n as [| n IH]; intros bytes st Hn Hi Hp.
  - destruct bytes; [| cbn in Hn; lia]. cbn. rewrite app_nil_r. auto.
  - destruct bytes as [| a [| b [| c rest]]].
    + cbn. rewrite app_nil_r. auto.
    + destruct st as [[yr yd wf0 ic] cp dp sb].
      cbn [Slave.glb Slave.YM_CTRL_PORT Slave.inCnt] in Hi, Hp. subst ic cp.
      unfold Slave.spi_run. cbn [fold_left]. rewrite slave_flag_byte.
      cbn. rewrite app_nil_r. auto.
    + destruct st as [[yr yd wf0 ic] cp dp sb].
      cbn [Slave.glb Slave.YM_CTRL_PORT Slave.inCnt] in Hi, Hp. subst ic cp.
      unfold Slave.spi_run. cbn [fold_left]. rewrite slave_flag_byte, slave_reg_byte.
      cbn. rewrite app_nil_r. auto.
    + change (a :: b :: c :: rest) with ([a; b; c] ++ rest).
      rewrite slave_run_app.
      destruct (slave_frame a b c st Hi Hp) as (Hi' & Hp' & new & Es & Ev).
      destruct (IH rest (Slave.spi_run [a; b; c] st) ltac:(cbn in Hn; lia) Hi' Hp')
        as (A & B & C).
      split; [| split].
      * rewrite A. cbn [app length]. f_equal.
        replace (S (S (S (length rest)))) with (length rest + 1 * 3)%nat by lia.
        rewrite Nat.Div0.mod_add. reflexivity.
      * exact B.
      * rewrite C, Es, map_app, Ev. cbn [app map Slave.frames flat_map].
        rewrite <- app_assoc. reflexivity.
Qed.

(** X20: the slave frames the SPI stream by count alone.  Whatever bytes
    arrive after start-up, the chip is shown the test patch of [main] and then,
    for each complete group of three bytes, the register write that the group
    stands for: on bank 1-3 for flag 0, on bank 4-6 for flag 1, on both for
    any other flag.  Between interrupts the control port is back at its idle
    value (CS, WR and RD high, A0 and A1 low) and the byte counter is the
    number of bytes received modulo 3. *)
Theorem spi_framing_by_count (bytes : list Z) :
  Slave.inCnt (Slave.glb (Slave.spi_run bytes Slave.main)) = Z.of_nat (length bytes mod 3)
  /\ Slave.YM_CTRL_PORT (Slave.spi_run bytes Slave.main) = 7
  /\ map Slave.seen (Slave.strobes (Slave.spi_run bytes Slave.main))
     = slave_init_writes ++ flat_map Slave.frame_writes (Slave.frames (map u8 bytes)).
Proof.
  destruct slave_main_idle as (Hi & Hp & Hs).
  destruct (slave_run_frames (length bytes) bytes Slave.main (le_n _) Hi Hp) as (A & B & C).
  split; [exact A |]. split; [exact B |]. rewrite C, Hs. reflexivity.
Qed.

Lemma frames_wire ws : Slave.frames (flat_map wire ws) = ws.
Proof.
  induction ws as [| [[f r] d] ws IH]; [reflexivity |].
  cbn [flat_map wire app fst snd].
  change (Slave.frames (f :: r :: d :: flat_map wire ws))
    with ((f, r, d) :: Slave.frames (flat_map wire ws)).
  rewrite IH. reflexivity.
Qed.

Lemma frames_shifted x ws : Slave.frames (x :: flat_map wire ws) = shifted x ws.
Proof.
  revert x. induction ws as [| [[f r] d] ws IH]; intros x; [reflexivity |].
  cbn [flat_map wire app fst snd shifted].
  change (Slave.frames (x :: f :: r :: d :: flat_map wire ws))
    with ((x, f, r) :: Slave.frames (d :: flat_map wire ws)).
  rewrite IH. reflexivity.
Qed.

Lemma map_u8_bytes bytes : Forall is_byte bytes -> map u8 bytes = bytes.
Proof.
  induction 1 as [| b bytes Hb _ IH]; [reflexivity |].
  cbn [map]. rewrite IH, (u8_small b) by exact Hb. reflexivity.
Qed.

Lemma wire_bytes ws : Forall bytes_ok ws -> Forall is_byte (flat_map wire ws).
Proof.
  induction 1 as [| [[f r] d] ws (Hf & Hr & Hd) _ IH]; [constructor |].
  cbn [flat_map wire app fst snd] in *.
  constructor; [exact Hf |]. constructor; [exact Hr |]. constructor; [exact Hd | exact IH].
Qed.

(** X21: no resynchronisation.  If one stray byte reaches the slave before
    the register writes of the master, every frame is read one byte late: the
    flag of each write is taken as the register address, its register address
    as the data, and its data byte as the flag of the next frame; the counter
    is off by one after any number of writes. *)
Theorem stray_byte_shifts_frames (x : Z) (ws : list RegWrite) :
  is_byte x -> Forall bytes_ok ws ->
  Slave.inCnt (Slave.glb (Slave.spi_run (x :: flat_map wire ws) Slave.main)) = 1
  /\ map Slave.seen (Slave.strobes (Slave.spi_run (x :: flat_map wire ws) Slave.main))
     = slave_init_writes ++ flat_map Slave.frame_writes (shifted x ws).
Proof.
  intros Hx Hws.
  destruct slave_main_idle as (Hi & Hp & Hs).
  destruct (slave_run_frames _ (x :: flat_map wire ws) Slave.main (le_n _) Hi Hp)
    as (A & _ & C).
  split.
  - rewrite A. cbn [length].
    assert (length (flat_map wire ws) = (length ws * 3)%nat) as ->.
    { clear. induction ws as [| w ws IH]; [reflexivity |].
      cbn [flat_map wire app length]. rewrite IH. lia. }
    replace (S (length ws * 3)) with (1 + length ws * 3)%nat by lia.
    rewrite Nat.Div0.mod_add. reflexivity.
  - rewrite C, Hs.
    rewrite (map_u8_bytes (x :: flat_map wire ws))
      by (constructor; [exact Hx | apply wire_bytes, Hws]).
    rewrite frames_shifted. reflexivity.
Qed.

Lemma stray_byte_shifts_frames_witness :
  map Slave.seen (Slave.strobes
    (Slave.spi_run (0xFF :: flat_map wire [(0, 0x28, 0xF0); (1, 0xA4, 0x22)]) Slave.main))
  = slave_init_writes
    ++ flat_map Slave.frame_writes (shifted 0xFF [(0, 0x28, 0xF0); (1, 0xA4, 0x22)]).
Proof.
  refine (proj2 (stray_byte_shifts_frames 0xFF [(0, 0x28, 0xF0); (1, 0xA4, 0x22)] _ _)).
  - unfold is_byte. lia.
  - constructor; [| constructor; [| constructor]];
      (split; [| split]); unfold is_byte; cbn; lia.
Defined.

(** *** The register writes of the master *)

Lemma sends_ok_refl m : sends_ok m m.
Proof. exists []. rewrite app_nil_r. split; [reflexivity | constructor]. Qed.

Lemma sends_ok_trans m1 m2 m3 : sends_ok m1 m2 -> sends_ok m2 m3 -> sends_ok m1 m3.
Proof.
  intros (n1 & E1 & F1) (n2 & E2 & F2). exists (n1 ++ n2).
  rewrite E2, E1, app_assoc. split; [reflexivity | apply Forall_app; split; assumption].
Qed.

Lemma sends_ok_sink m m' : sink m' = sink m -> sends_ok m m'.
Proof. intros E. exists []. rewrite app_nil_r. split; [exact E | constructor]. Qed.

Lemma sends_ok_fold {A} (f : Machine -> A -> Machine) (idx : list A) :
  (forall m i, In i idx -> sends_ok m (f m i)) ->
  forall m, sends_ok m (fold_left f idx m).
Proof.
  induction idx as [| i idx IH]; intros Hf m; cbn [fold_left].
  - apply sends_ok_refl.
  - eapply sends_ok_trans; [apply Hf; left; reflexivity |].
    apply IH. intros m' j Hj. apply Hf. right. exact Hj.
Qed.

Lemma sendreg_ok flag reg data m :
  flag = 0 \/ flag = 1 -> sends_ok m (sendreg flag reg data m).
Proof.
  intros Hf. exists [(u8 flag, u8 reg, u8 data)]. split; [reflexivity |].
  constructor; [| constructor]. split; [| split]; cbn [fst snd].
  - destruct Hf as [-> | ->]; [left | right]; reflexivity.
  - apply u8_range.
  - apply u8_range.
Qed.

Lemma chanGrp_flag i : chanGrp i = 0 \/ chanGrp i = 1.
Proof. pose proof (chanGrp_range i). lia. Qed.

Lemma note_ok N v on m : sends_ok m (note N v on m).
Proof.
  unfold note. destruct on.
  - generalize (seq 0 6). intros idx. induction idx as [| i idx IH]; cbn [note_on_loop].
    + apply sends_ok_refl.
    + destruct (chan_free (ym m) i); [apply sends_ok_sink; reflexivity |].
      destruct (chan_plays (ym m) i (u8 N)); [| exact IH].
      unfold note_retrigger. cbv zeta.
      repeat (eapply sends_ok_trans; [| apply sendreg_ok; auto using chanGrp_flag]).
      apply sends_ok_refl.
  - generalize (seq 0 6). intros idx. induction idx as [| i idx IH]; cbn [note_off_loop].
    + apply sends_ok_refl.
    + destruct (chan_plays (ym m) i (u8 N)); [apply sends_ok_sink; reflexivity | exact IH].
Qed.

Lemma controller_ok d1 d2 m : sends_ok m (controller d1 d2 m).
Proof.
  unfold controller.
  repeat match goal with
  | |- context [if ?c then _ else _] => destruct c
  end; first [apply sendreg_ok; auto | apply sends_ok_refl | apply sends_ok_sink; reflexivity].
Qed.

Lemma seq_two j : In j (seq 0 2) -> Z.of_nat j = 0 \/ Z.of_nat j = 1.
Proof. intros H. apply in_seq in H. lia. Qed.

Lemma aftertouch_ok d1 m : sends_ok m (aftertouch d1 m).
Proof.
  unfold aftertouch, aftertouch_burst.
  destruct (d1 =? 0); apply sends_ok_fold; intros m' i _; apply sends_ok_fold;
    intros m'' j Hj; apply sendreg_ok, seq_two, Hj.
Qed.

Lemma all_off_ok m : sends_ok m (all_off m).
Proof.
  unfold all_off. apply sends_ok_fold. intros m' i _. cbv zeta.
  apply (sends_ok_trans _ (sendreg 0 0x28 (0x00 + chan i) m'));
    [apply sendreg_ok; auto | apply sends_ok_sink; reflexivity].
Qed.

Lemma dispatch3_ok m : sends_ok m (dispatch3 m).
Proof.
  destruct (decide (midi_status m = 0x90)) as [E | H9];
    [unfold dispatch3; rewrite E; apply note_ok |].
  destruct (decide (midi_status m = 0x80)) as [E | H8];
    [unfold dispatch3; rewrite E; apply note_ok |].
  destruct (decide (midi_status m = 0xB0)) as [E | HB];
    [unfold dispatch3; rewrite E; apply controller_ok |].
  rewrite dispatch3_other by assumption. apply sends_ok_refl.
Qed.

Lemma dispatch2_ok m : sends_ok m (dispatch2 m).
Proof.
  destruct (decide (midi_status m = 0xD0)) as [E | HD];
    [unfold dispatch2; rewrite E; apply aftertouch_ok |].
  destruct (decide (midi_status m = 0xE0)) as [E | HE];
    [unfold dispatch2; rewrite E; apply all_off_ok |].
  rewrite dispatch2_other by assumption. apply sends_ok_refl.
Qed.

Lemma USART_RX_vect_ok b m : sends_ok m (USART_RX_vect b m).
Proof.
  unfold USART_RX_vect. cbv zeta.
  apply (sends_ok_trans _ (midi_store (u8 b) m)).
  - apply sends_ok_sink. apply midi_store_frame.
  - destruct (midi_three _); [apply dispatch3_ok |].
    destruct (midi_two _); [apply dispatch2_ok | apply sends_ok_refl].
Qed.

Lemma tick_chan_ok m i : sends_ok m (tick_chan m i).
Proof.
  unfold tick_chan. cbv zeta.
  destruct (_ && _).
  - match goal with
    | |- sends_ok _ (with_ym _ ?x) =>
        apply (sends_ok_trans _ x); [| apply sends_ok_sink; reflexivity]
    end.
    repeat (eapply sends_ok_trans; [| apply sendreg_ok; auto using chanGrp_flag]).
    apply sends_ok_refl.
  - destruct (_ && _); [| apply sends_ok_refl].
    destruct (negb _); [| apply sends_ok_refl].
    apply (sends_ok_trans _ (sendreg 0 0x28 (0x00 + chan i) m));
      [apply sendreg_ok; auto | apply sends_ok_sink; reflexivity].
Qed.

Lemma TIMER1_OVF_vect_ok m : sends_ok m (TIMER1_OVF_vect m).
Proof. unfold TIMER1_OVF_vect. apply sends_ok_fold. intros m' i _. apply tick_chan_ok. Qed.

Lemma writeToYM_ok op val1 val2 baseReg s1 s2 multiOp multiChannel options sub1 sub2 m :
  sends_ok m (writeToYM op val1 val2 baseReg s1 s2 multiOp multiChannel options sub1 sub2 m).
Proof.
  unfold writeToYM. cbv zeta. destruct multiChannel.
  - apply sends_ok_fold. intros m' j Hj. apply sends_ok_fold. intros m'' i _.
    apply sendreg_ok, seq_two, Hj.
  - apply sendreg_ok. auto.
Qed.

Lemma write_lfo_ok op lfo m : sends_ok m (write_lfo op lfo m).
Proof. unfold write_lfo. destruct (lfo =? 0); apply writeToYM_ok. Qed.

Lemma write_ssgeg_ok op eg m : sends_ok m (write_ssgeg op eg m).
Proof. unfold write_ssgeg. destruct (eg =? 0); apply writeToYM_ok. Qed.

Lemma changeAllParams_op_ok mult det tl atk dcy sl sr rel rs eg am m i :
  sends_ok m (changeAllParams_op mult det tl atk dcy sl sr rel rs eg am m i).
Proof.
  unfold changeAllParams_op. cbv zeta.
  eapply sends_ok_trans; [| apply write_ssgeg_ok].
  repeat (eapply sends_ok_trans; [| apply writeToYM_ok]).
  apply sends_ok_sink. reflexivity.
Qed.

Lemma changeAllParams_ok alg fb lfo vib trem mult det tl atk dcy sl sr rel rs eg am m :
  sends_ok m (changeAllParams alg fb lfo vib trem mult det tl atk dcy sl sr rel rs eg am m).
Proof.
  unfold changeAllParams. cbv zeta.
  eapply sends_ok_trans;
    [| apply sends_ok_fold; intros m' i _; apply changeAllParams_op_ok].
  eapply sends_ok_trans; [| apply writeToYM_ok].
  eapply sends_ok_trans; [| apply write_lfo_ok].
  eapply sends_ok_trans; [| apply writeToYM_ok].
  apply sends_ok_sink. reflexivity.
Qed.

Lemma preset_ok m : sends_ok m (preset m).
Proof.
  unfold preset. destruct (_ && _); [| apply sends_ok_refl].
  destruct (patches !! _); [| apply sends_ok_refl].
  apply changeAllParams_ok.
Qed.

Lemma changeValue_ok m : sends_ok m (changeValue m).
Proof.
  unfold changeValue. cbv zeta.
  repeat match goal with
  | |- context [decide (?a = ?b)] => destruct (decide (a = b)) as [? | ?]; cbv iota
  end;
  try (apply sends_ok_refl);
  try (apply sends_ok_sink; reflexivity);
  (eapply sends_ok_trans;
   [| first [apply preset_ok | apply writeToYM_ok | apply write_lfo_ok
            | apply write_ssgeg_ok]];
   apply sends_ok_sink; reflexivity).
Qed.

Lemma edit_value_ok clockwise m : sends_ok m (edit_value clockwise m).
Proof.
  unfold edit_value. cbv zeta.
  eapply sends_ok_trans; [| apply changeValue_ok]. apply sends_ok_sink. reflexivity.
Qed.

Lemma step_group_ok d m : sends_ok m (step_group d m).
Proof.
  unfold step_group. apply sends_ok_sink.
  destruct (changeGroup_frame (with_ym (fun y => set_group (int (group y + d)) y) m))
    as (_ & _ & _ & _ & _ & _ & _ & E).
  exact E.
Qed.

Lemma step_current_ok d m : sends_ok m (step_current d m).
Proof.
  unfold step_current. apply sends_ok_sink.
  destruct (changeCurrent_frame (with_ym (fun y => set_current (int (current y + d)) y) m))
    as (_ & _ & _ & _ & _ & _ & _ & E).
  exact E.
Qed.

Lemma step_op_ok d m : sends_ok m (step_op d m).
Proof.
  unfold step_op. apply sends_ok_sink.
  destruct (changeCurrent_frame (with_ym (fun y => set_op (int (op y + d)) y) m))
    as (_ & _ & _ & _ & _ & _ & _ & E).
  exact E.
Qed.

Lemma PCINT2_vect_ok PIND g m : sends_ok m (snd (PCINT2_vect PIND (g, m))).
Proof.
  apply (PCINT2_vect_closed (sends_ok m)).
  - intros d m' H. eapply sends_ok_trans; [exact H | apply step_group_ok].
  - intros d m' H. eapply sends_ok_trans; [exact H | apply step_current_ok].
  - intros d m' H. eapply sends_ok_trans; [exact H | apply step_op_ok].
  - intros cw m' H. eapply sends_ok_trans; [exact H | apply edit_value_ok].
  - apply sends_ok_refl.
Qed.

Lemma handle_ok e s : sends_ok (snd s) (snd (handle e s)).
Proof.
  destruct s as [g m]. destruct e as [| b | p]; cbn [handle fst snd].
  - apply TIMER1_OVF_vect_ok.
  - apply USART_RX_vect_ok.
  - apply PCINT2_vect_ok.
Qed.

Lemma run_ok events s : sends_ok (snd s) (snd (run events s)).
Proof.
  unfold run. revert s. induction events as [| e events IH]; intros s; cbn [fold_left].
  - apply sends_ok_refl.
  - eapply sends_ok_trans; [apply handle_ok | apply IH].
Qed.

Lemma power_on_ok : sends_ok (mkMachine ym0 glb0 []) power_on.
Proof.
  unfold power_on.
  eapply sends_ok_trans; [apply preset_ok |].
  apply sends_ok_sink.
  destruct (changeGroup_frame (preset (mkMachine ym0 glb0 []))) as (_ & _ & _ & _ & _ & _ & _ & E).
  exact E.
Qed.

Lemma reachable_sink_ok events PIND : Forall wire_ok (sink (snd (run events (start PIND)))).
Proof.
  destruct (sends_ok_trans _ _ _ power_on_ok (run_ok events (start PIND)))
    as (new & E & F).
  rewrite E. exact F.
Qed.

(** X22: every register write that the master sends, in any state reachable
    from power-on, is a frame of three bytes whose flag is 0 or 1: the master
    never uses the flag values for which the slave writes both banks. *)
Theorem master_flags_zero_or_one (events : list Event) (PIND : Z) (w : RegWrite) :
  In w (sink (snd (run events (start PIND)))) ->
  (fst (fst w) = 0 \/ fst (fst w) = 1)
  /\ 0 <= snd (fst w) < 256 /\ 0 <= snd w < 256.
Proof.
  intros Hin. pose proof (reachable_sink_ok events PIND) as H.
  rewrite List.Forall_forall in H. exact (H w Hin).
Qed.

Lemma master_flags_zero_or_one_witness :
  In (0, 0xB0, 7) (sink (snd (run [MidiByte 0x90; MidiByte 60; MidiByte 100; Tick] (start 0))))
  /\ ((fst (fst (0, 0xB0, 7)) = 0 \/ fst (fst (0, 0xB0, 7)) = 1)
      /\ 0 <= snd (fst (0, 0xB0, 7)) < 256 /\ 0 <= snd (0, 0xB0, 7) < 256).
Proof.
  assert (In (0, 0xB0, 7)
            (sink (snd (run [MidiByte 0x90; MidiByte 60; MidiByte 100; Tick] (start 0)))))
    as Hin by (vm_compute; left; reflexivity).
  split; [exact Hin |].
  exact (master_flags_zero_or_one [MidiByte 0x90; MidiByte 60; MidiByte 100; Tick] 0
           (0, 0xB0, 7) Hin).
Defined.

Lemma wire_ok_bytes w : wire_ok w -> bytes_ok w.
Proof. intros (Hf & Hr & Hd). split; [| split]; unfold is_byte; lia. Qed.

Lemma frame_writes_ok ws :
  Forall wire_ok ws -> flat_map Slave.frame_writes ws = flat_map chip_write ws.
Proof.
  induction 1 as [| [[f r] d] ws (Hf & _) _ IH]; [reflexivity |].
  cbn [flat_map]. rewrite IH. f_equal.
  unfold Slave.frame_writes, chip_write. cbn [fst snd] in *.
  destruct Hf as [-> | ->]; reflexivity.
Qed.

(** X23: master and slave together.  When the slave has received the SPI
    bytes of all the register writes that the master has sent up to any
    reachable state, the chip has been shown the test patch of the slave and
    then exactly one register write for each write of the master, in order:
    the address strobe and the data strobe on the bank that the flag names.
    The slave is at a frame boundary. *)
Theorem master_writes_reach_chip (events : list Event) (PIND : Z) :
  map Slave.seen
    (Slave.strobes
       (Slave.spi_run (flat_map wire (sink (snd (run events (start PIND))))) Slave.main))
  = slave_init_writes ++ flat_map chip_write (sink (snd (run events (start PIND))))
  /\ Slave.inCnt
       (Slave.glb
          (Slave.spi_run (flat_map wire (sink (snd (run events (start PIND))))) Slave.main))
     = 0.
Proof.
  set (sent := sink (snd (run events (start PIND)))).
  pose proof (reachable_sink_ok events PIND) as Hok. fold sent in Hok.
  destruct slave_main_idle as (Hi & Hp & Hs).
  destruct (slave_run_frames _ (flat_map wire sent) Slave.main (le_n _) Hi Hp)
    as (A & _ & C).
  split.
  - rewrite C, Hs.
    rewrite map_u8_bytes
      by (apply wire_bytes; exact (List.Forall_impl _ wire_ok_bytes Hok)).
    rewrite frames_wire, frame_writes_ok by exact Hok. reflexivity.
  - rewrite A.
    assert (length (flat_map wire sent) = (0 + length sent * 3)%nat) as ->.
    { clear. induction sent as [| w ws IH]; [reflexivity |].
      cbn [flat_map wire app length]. rewrite IH. lia. }
    rewrite Nat.Div0.mod_add. reflexivity.
Qed.

(** * The cursor steps *)

Ltac cursor_cases y H :=
  destruct y as [o g c v fr no ve su pa];
  unfold nav_ok in H; cbn [op group current value] in H;
  destruct H as (Ho & Hg & Hc & Hv); subst v;
  assert (o = 0 \/ o = 1 \/ o = 2 \/ o = 3) as [-> | [-> | [-> | ->]]] by lia;
  (assert (g = 0 \/ g = 1 \/ g = 2 \/ g = 3) as [-> | [-> | [-> | ->]]] by lia);
  cbn [cur_max] in Hc;
  (assert (c = 0 \/ c = 1 \/ c = 2 \/ c = 3 \/ c = 4 \/ c = 5 \/ c = 6)
     as [-> | [-> | [-> | [-> | [-> | [-> | ->]]]]]] by lia);
  try (exfalso; lia).

Lemma step_current_back d m :
  nav_ok (ym m) -> d = 1 \/ d = -1 -> step_current (- d) (step_current d m) = m.
Proof.
  intros H Hd. destruct m as [y gl s]. cbn [ym] in H.
  cursor_cases y H; destruct Hd as [-> | ->]; reflexivity.
Qed.

Lemma step_op_back d m :
  nav_ok (ym m) -> d = 1 \/ d = -1 -> step_op (- d) (step_op d m) = m.
Proof.
  intros H Hd. destruct m as [y gl s]. cbn [ym] in H.
  cursor_cases y H; destruct Hd as [-> | ->]; reflexivity.
Qed.

Lemma step_group_back d m :
  nav_ok (ym m) -> d = 1 \/ d = -1 ->
  step_group (- d) (step_group d m)
  = with_ym (fun y => set_value (field_at (group y) 0 (op y)) (set_current 0 y)) m.
Proof.
  intros H Hd. destruct m as [y gl s]. cbn [ym] in H.
  cursor_cases y H; destruct Hd as [-> | ->]; reflexivity.
Qed.

(** X24: the cursor steps undo each other.  With a consistent cursor, a step
    of the parameter index and the step back, or a step of the operator and
    the step back, give the machine that was there before, also across the
    wrap-around at either end.  A step of the group and the step back return
    to the group but not to the parameter: the index is 0 and [ym.value]
    points to the first parameter of the group. *)
Theorem cursor_steps_undo (m : Machine) (d : Z) :
  nav_ok (ym m) -> d = 1 \/ d = -1 ->
  step_current (- d) (step_current d m) = m
  /\ step_op (- d) (step_op d m) = m
  /\ step_group (- d) (step_group d m)
     = with_ym (fun y => set_value (field_at (group y) 0 (op y)) (set_current 0 y)) m.
Proof.
  intros H Hd. split; [| split].
  - apply step_current_back; assumption.
  - apply step_op_back; assumption.
  - apply step_group_back; assumption.
Qed.

Lemma cursor_steps_undo_witness :
  (nav_ok (ym power_on) /\ (1 = 1 \/ 1 = -1))
  /\ step_current (- 1) (step_current 1 power_on) = power_on.
Proof.
  assert (nav_ok (ym power_on)) as Hn
    by (unfold nav_ok; vm_compute; intuition discriminate).
  split; [split; [exact Hn | left; reflexivity] |].
  exact (proj1 (cursor_steps_undo power_on 1 Hn (or_introl eq_refl))).
Defined.

(** * A detent on a field that shares its register *)

Lemma sustain_release_byte a b :
  0 <= a <= 15 -> 0 <= b <= 15 ->
  dataToWrite (u8 a) (u8 b) (u8 4) (u8 0) (u8 3) (u8 15) (u8 15) = 16 * (15 - a) + (15 - b).
Proof.
  intros Ha Hb. unfold dataToWrite.
  rewrite (u8_small a), (u8_small b) by lia.
  change (u8 4) with 4. change (u8 0) with 0. change (u8 3) with 3. change (u8 15) with 15.
  cbv iota. rewrite Z.shiftl_mul_pow2, Z.shiftl_0_r by lia.
  change (2 ^ 4) with 16. rewrite u8_small by lia. lia.
Qed.

(** X25: a detent on the sustain level rewrites the whole register that the
    sustain level shares with the release rate, and takes the release rate
    from the parameter store.  Right after a preset load the store still holds
    the release rate from before the load (the loader does not assign it), so
    the detent replaces the release rate that the load sent to the chip by the
    old one. *)
Theorem sustain_detent_resends_stored_release (m : Machine) (clockwise : bool) (o : Z) :
  editing (ym m) (F_susLvl o) -> 0 <= o <= 3 ->
  0 <= susLvl (ym (preset m)) o <= 15 -> 0 <= release (ym m) o <= 15 ->
  sink (edit_value clockwise (preset m))
  = sink (preset m)
    ++ burst_of (0x80 + opOffset (Z.to_nat o))
         (16 * (15 - minMaxValue (susLvl (ym (preset m)) o + (if clockwise then 1 else -1))
                       0 15)
          + (15 - release (ym m) o)).
Proof.
  intros [Hv Hop] Ho Hsl Hrel.
  specialize (Hop o eq_refl). subst o.
  destruct (preset_frame m) as (_ & _ & _ & _ & Ec & _).
  apply cursor_eq in Ec as (Eop & _ & _ & Eval).
  pose proof (preset_keeps_release m (op (ym m))) as Erel.
  set (m1 := preset m) in *.
  unfold edit_value. cbv zeta.
  set (m2 := with_ym _ m1).
  assert (value (ym m2) = F_susLvl (op (ym m2))) as Hv2
    by (change (value (ym m1) = F_susLvl (op (ym m1))); rewrite Eval, Eop; exact Hv).
  assert (op (ym m2) = op (ym m)) as Eop2 by exact Eop.
  unfold changeValue. rewrite Hv2. cbv zeta. resolve_chain.
  rewrite writeToYM_broadcast. unfold restrict. cbn [with_ym ym sink].
  unfold susLvl, release. rewrite par_store_same, par_store_other by discriminate.
  rewrite Eop2.
  assert (par (ym m2) (F_susLvl (op (ym m)))
          = int (susLvl (ym m1) (op (ym m)) + (if clockwise then 1 else -1))) as ->.
  { unfold m2. cbn [with_ym ym]. rewrite Eval, Hv. rewrite par_store_same. reflexivity. }
  assert (par (ym m2) (F_release (op (ym m))) = release (ym m) (op (ym m))) as ->.
  { unfold m2. cbn [with_ym ym]. rewrite par_store_other by (rewrite Eval, Hv; discriminate).
    exact Erel. }
  rewrite int_small by (destruct clockwise; lia).
  pose proof (minMaxValue_range
                (susLvl (ym m1) (op (ym m)) + (if clockwise then 1 else -1)) 0 15
                ltac:(lia)) as Hr.
  rewrite sustain_release_byte by assumption.
  assert (sink m2 = sink m1) as -> by reflexivity.
  f_equal. unfold burst_of.
  rewrite (u8_small (op (ym m))) by lia.
  pose proof (opOffset_range (Z.to_nat (op (ym m)))).
  change (u8 128) with 128. rewrite (u8_small (128 + _)) by lia.
  reflexivity.
Qed.

Lemma sustain_detent_resends_stored_release_witness :
  editing (ym st_sustain_level) (F_susLvl 0)
  /\ sink (edit_value true (preset st_sustain_level))
     = sink (preset st_sustain_level)
       ++ burst_of (0x80 + opOffset (Z.to_nat 0))
            (16 * (15 - minMaxValue
                          (susLvl (ym (preset st_sustain_level)) 0 + (if true then 1 else -1))
                          0 15)
             + (15 - release (ym st_sustain_level) 0)).
Proof.
  assert (editing (ym st_sustain_level) (F_susLvl 0)) as He.
  { split; [vm_compute; reflexivity |].
    intros o' H. injection H as <-. vm_compute. reflexivity. }
  split; [exact He |].
  apply (sustain_detent_resends_stored_release st_sustain_level true 0 He).
  - lia.
  - vm_compute. split; discriminate.
  - vm_compute. split; discriminate.
Defined.

(** * Controller messages on the wire *)

(** A controller message at every ring position: the handler reaches
    [controller] with the two data bytes unless the status byte was stored at
    ring index 125, where the three bytes only move the ring. *)
Lemma feed_controller (m : Machine) (s c d : Z) :
  ring_ok (glb m) -> 0 <= s < 256 -> Z.land s 0xF0 = 0xB0 ->
  0 <= c < 0x80 -> 0 <= d < 0x80 ->
  feed [s; c; d] m
  = (if midiIndex (glb m) =? 125
     then mkMachine (ym m) (ring_store d (ring_store c (ring_store s (glb m)))) (sink m)
     else controller c d
            (mkMachine (ym m) (ring_store d (ring_store c (ring_store s (glb m)))) (sink m))).
Proof.
  intros (Hlen & Hk & _) Hs Hst Hc Hd.
  pose proof (status_nibble s Hs) as Hnib.
  assert (0x80 <= s < 0xF8) as Hs' by lia.
  rewrite feed_message by assumption. cbv zeta.
  destruct (ring_stage2 (glb m) s c (ym m) (sink m) Hlen Hk Hs' Hc) as (_ & _ & S2 & _).
  rewrite dispatch2_other by (rewrite S2, Hst; discriminate).
  cbn [ym sink].
  destruct (ring_stage3 (glb m) s c d (ym m) (sink m) Hlen Hk Hs' Hc Hd)
    as (_ & _ & S3 & D1 & D2).
  destruct (midiIndex (glb m) =? 125); [reflexivity |].
  unfold dispatch3. rewrite S3, D1, D2, Hst. reflexivity.
Qed.

(** C9: a mod-wheel message on the wire (status byte with upper nibble 0xB0
    on any MIDI channel, controller number 1, data byte [d]), in any state with
    a well-formed ring.  The three bytes never change the parameter store, so
    [lfoFreq] is what it was.  When the status byte is stored at any ring index
    other than 125 they add exactly one write of the LFO register 0x22: for
    [d <> 0] the value [8 + d/18] (8 to 15), for [d = 0] the value that encodes
    the stored [lfoFreq] (0 when it is off, [0x08 + lfoFreq - 1] otherwise).
    When the status byte is stored at ring index 125 the message is lost:
    nothing is written. *)
Theorem mod_wheel_bypasses_store (m : Machine) (s d : Z) :
  ring_ok (glb m) -> 0 <= s < 256 -> Z.land s 0xF0 = 0xB0 -> 0 <= d < 0x80 ->
  ym (feed [s; 1; d] m) = ym m
  /\ lfoFreq (ym (feed [s; 1; d] m)) = lfoFreq (ym m)
  /\ (midiIndex (glb m) <> 125 ->
        sink (feed [s; 1; d] m)
        = sink m ++ [(0, 0x22, if d =? 0
                               then if lfoFreq (ym m) =? 0 then 0
                                    else u8 (0x08 + lfoFreq (ym m) - 1)
                               else 8 + d / 18)]
        /\ 8 <= 8 + d / 18 <= 15)
  /\ (midiIndex (glb m) = 125 -> sink (feed [s; 1; d] m) = sink m).
Proof.
  intros Hr Hs Hst Hd.
  rewrite (feed_controller m s 1 d Hr Hs Hst ltac:(lia) Hd).
  set (m3 := mkMachine (ym m) _ (sink m)).
  destruct (controller_mod_wheel d m3) as (Cy & _ & Cs).
  assert (ym (if midiIndex (glb m) =? 125 then m3 else controller 1 d m3) = ym m) as Hym
    by (destruct (midiIndex (glb m) =? 125); [reflexivity | exact Cy]).
  split; [exact Hym |]. split; [unfold lfoFreq; rewrite Hym; reflexivity |].
  split.
  - intros H125.
    replace (midiIndex (glb m) =? 125) with false by (symmetry; apply Z.eqb_neq; exact H125).
    rewrite Cs. unfold m3. cbn [ym sink].
    assert (0 <= d / 18 < 8) as Hq
      by (split; [apply Z.div_pos; lia | apply Z.div_lt_upper_bound; lia]).
    split; [| lia].
    destruct (d =? 0) eqn:Ed; [reflexivity |].
    apply Z.eqb_neq in Ed.
    rewrite (proj1 (mod_wheel_value d ltac:(lia))). reflexivity.
  - intros H125. rewrite H125. reflexivity.
Qed.

Lemma mod_wheel_bypasses_store_witness :
  (ring_ok (glb st_127_messages) /\ midiIndex (glb st_127_messages) = 125)
  /\ sink (feed [0xB0; 1; 100] st_127_messages) = sink st_127_messages.
Proof.
  assert (ring_ok (glb st_127_messages)) as Hr
    by (split; [| split]; vm_compute; [reflexivity | split; discriminate ..]).
  assert (midiIndex (glb st_127_messages) = 125) as H125 by (vm_compute; reflexivity).
  split; [split; [exact Hr | exact H125] |].
  exact (proj2 (proj2 (proj2
           (mod_wheel_bypasses_store st_127_messages 0xB0 100 Hr
              ltac:(lia) eq_refl ltac:(lia)))) H125).
Defined.

(** The 127 messages before it have each been answered by one write. *)
Lemma mod_wheel_first_127_answered :
  sink st_127_messages = sink power_on ++ repeat (0, 0x22, 13) 127.
Proof. vm_compute. reflexivity. Qed.

(** A real-time byte after the message makes the handler answer it again. *)
Lemma mod_wheel_repeated_by_real_time :
  sink (feed [0xB0; 1; 100; 0xF8] power_on) = sink power_on ++ [(0, 0x22, 13); (0, 0x22, 13)].
Proof. vm_compute. reflexivity. Qed.

(** C10: a sustain-pedal message on the wire (status byte with upper nibble
    0xB0 on any MIDI channel, controller number 64, data byte [d]), in any
    state with a well-formed ring.  The three bytes never write to the sink and
    never change a channel row, a velocity, a pitch entry or a parameter.
    When the status byte is stored at any ring index other than 125, data 0
    sets the sustain flag and any other data clears it.  When the status byte
    is stored at ring index 125 the message is lost: the flag is what it
    was. *)
Theorem sustain_controller_polarity (m : Machine) (s d : Z) :
  ring_ok (glb m) -> 0 <= s < 256 -> Z.land s 0xF0 = 0xB0 -> 0 <= d < 0x80 ->
  sink (feed [s; 64; d] m) = sink m
  /\ notesOn (ym (feed [s; 64; d] m)) = notesOn (ym m)
  /\ vel (ym (feed [s; 64; d] m)) = vel (ym m)
  /\ freq (ym (feed [s; 64; d] m)) = freq (ym m)
  /\ par (ym (feed [s; 64; d] m)) = par (ym m)
  /\ (midiIndex (glb m) <> 125 ->
        ym (feed [s; 64; d] m) = set_sustain (d =? 0) (ym m)
        /\ (d = 0 -> sustain (ym (feed [s; 64; d] m)) = true)
        /\ (d <> 0 -> sustain (ym (feed [s; 64; d] m)) = false))
  /\ (midiIndex (glb m) = 125 ->
        ym (feed [s; 64; d] m) = ym m
        /\ sustain (ym (feed [s; 64; d] m)) = sustain (ym m)).
Proof.
  intros Hr Hs Hst Hd.
  rewrite (feed_controller m s 64 d Hr Hs Hst ltac:(lia) Hd).
  rewrite controller_sustain. cbn [ym glb sink].
  destruct (midiIndex (glb m) =? 125) eqn:E; cbn [ym sink];
    [apply Z.eqb_eq in E | apply Z.eqb_neq in E].
  - split; [reflexivity |]. split; [reflexivity |]. split; [reflexivity |].
    split; [reflexivity |]. split; [reflexivity |].
    split; [intros H; contradiction | intros _; split; reflexivity].
  - split; [reflexivity |]. split; [reflexivity |]. split; [reflexivity |].
    split; [reflexivity |]. split; [reflexivity |].
    split; [intros _ | intros H; contradiction].
    split; [reflexivity |]. cbn [sustain set_sustain].
    split; intros Hd0.
    + rewrite Hd0. reflexivity.
    + apply Z.eqb_neq. exact Hd0.
Qed.

Lemma sustain_controller_polarity_witness :
  (ring_ok (glb st_127_messages) /\ midiIndex (glb st_127_messages) = 125)
  /\ sustain (ym (feed [0xB0; 64; 0] st_127_messages)) = sustain (ym st_127_messages).
Proof.
  assert (ring_ok (glb st_127_messages)) as Hr
    by (split; [| split]; vm_compute; [reflexivity | split; discriminate ..]).
  assert (midiIndex (glb st_127_messages) = 125) as H125 by (vm_compute; reflexivity).
  split; [split; [exact Hr | exact H125] |].
  exact (proj2 (proj2 (proj2 (proj2 (proj2 (proj2 (proj2
           (sustain_controller_polarity st_127_messages 0xB0 0 Hr
              ltac:(lia) eq_refl ltac:(lia))))))) H125)).
Defined.

(** The flag was clear, and the pedal message with data 0 leaves it clear. *)
Lemma sustain_message_lost_at_ring_125 :
  sustain (ym st_127_messages) = false
  /\ sustain (ym (feed [0xB0; 64; 0] st_127_messages)) = false
  /\ sustain (ym (feed [0xB0; 64; 0] power_on)) = true.
Proof. split; [| split]; vm_compute; reflexivity. Qed.
